(** * ToyDB: the ordered index, the table engine and the transaction manager

    A shallow embedding of the storage core of ToyDB:
    - [storage::BPlusTree<Key, Value, Order>] (bplustree.h), with its nodes
      kept in an explicit store so that the [next] links between leaves and
      the in-place updates of nodes are modelled as the code has them;
    - [db::Table] (table.cpp): rows, the primary-key index, [insert_row],
      [select], [update], [remove];
    - [db::Database] (database.cpp): the tables by name;
    - [Transaction], [TransactionManager] (transaction.hpp) and the
      transaction-aware [Table] and [Database] that use them (table.hpp);
    - [Parser::tokenize] (parser.cpp).

    Part I holds the code, Part II the definitions the specifications are
    stated with, Part III the proofs. *)

From Stdlib Require Import PrimFloat.
From stdpp Require Import sorting strings numbers gmap pretty.
From stdpp Require Import base option list.

#[local] Set Warnings "-clear-no-such-hyp".

(** ** Results of calls

    A call either returns, or runs into behaviour the C++ standard leaves
    undefined (an index past the end of a vector, [front()] of an empty
    vector, a null pointer), or exhausts the recursion budget of the model. *)

Inductive result (A : Type) : Type :=
  | Ret (a : A)
  | Undefined
  | OutOfFuel.
Arguments Ret {A} a.
Arguments Undefined {A}.
Arguments OutOfFuel {A}.

Global Instance result_bind : MBind result := λ A B f r,
  match r with
  | Ret a => f a
  | Undefined => Undefined
  | OutOfFuel => OutOfFuel
  end.

(** A call of a function that can throw either returns a value or throws;
    the effects it had on the state up to that point stay. *)
Inductive exn : Type :=
  | bad_variant_access
  | runtime_error (what : string).

Inductive call (A : Type) : Type :=
  | Returned (a : A)
  | Thrown (e : exn).
Arguments Returned {A} a.
Arguments Thrown {A} e.

(** ** Keys

    The tree is a template over [Key]; it uses [operator<] (through
    [std::lower_bound] and [std::upper_bound]), [operator==], [operator<=]
    and [operator>=].  For the two key types the tables instantiate it with
    ([int64_t] and [std::string]) these all derive from one strict total
    order, with [==] the identity of values. *)

Class KeyOps (K : Type) := {
  key_lt : K → K → bool;
  key_eq_dec :: EqDecision K;
}.

Definition key_le `{KeyOps K} (a b : K) : bool := negb (key_lt b a).
Definition key_ge `{KeyOps K} (a b : K) : bool := negb (key_lt a b).

Global Instance Z_KeyOps : KeyOps Z := {| key_lt := Z.ltb |}.
Global Instance string_KeyOps : KeyOps string := {| key_lt := String.ltb |}.

(** * Part I: the code *)

Module BPlusTree.

Abbreviation addr := nat (only parsing).

Section defs.
Context {Key Value : Type} {Kops : KeyOps Key}.
Variable Order : nat.

(** Nodes live in a store, a list of nodes; the address of a node (what a
    [std::shared_ptr] holds) is its position in the store, and
    [std::make_shared] appends a node. *)
Inductive Node : Type :=
  | LeafNode (keys : list Key) (values : list Value) (next : option addr)
  | InternalNode (keys : list Key) (children : list addr).

Local Abbreviation store := (list Node) (only parsing).

Record t : Type := mk { nodes : store; root_ : addr }.

Record InsertResult : Type := mkInsertResult { key : Key; node : addr }.

(** [std::lower_bound (keys.begin(), keys.end(), k) - keys.begin()]: the
    first position whose key is not less than [k].  The binary search finds
    it in a vector that is partitioned by [< k], as the sorted keys of a node
    are ([lower_bound_partition]). *)
Fixpoint lower_bound (ks : list Key) (k : Key) : nat :=
  match ks with
  | [] => 0
  | x :: ks' => if key_lt x k then S (lower_bound ks' k) else 0
  end.

(** [std::upper_bound (keys.begin(), keys.end(), k) - keys.begin()]: the
    first position whose key is greater than [k]
    ([upper_bound_partition]). *)
Fixpoint upper_bound (ks : list Key) (k : Key) : nat :=
  match ks with
  | [] => 0
  | x :: ks' => if key_lt k x then 0 else S (upper_bound ks' k)
  end.

Definition find_child_index (ks : list Key) (k : Key) : nat := upper_bound ks k.

(** [v.insert (v.begin() + i, x)] *)
Definition insert_at {A} (i : nat) (x : A) (l : list A) : list A :=
  take i l ++ x :: drop i l.

(** [v.erase (v.begin() + i)] *)
Definition erase_at {A} (i : nat) (l : list A) : list A :=
  take i l ++ drop (S i) l.

(** [it != keys.end() && *it == key] for [it = keys.begin() + idx] *)
Definition key_at (ks : list Key) (idx : nat) (k : Key) : bool :=
  bool_decide (ks !! idx = Some k).

(** *** LeafNode *)

Definition LeafNode_insert (h : store) (a : addr)
    (ks : list Key) (vs : list Value) (nxt : option addr)
    (k : Key) (v : Value) : result (store * option InsertResult) :=
  let idx := lower_bound ks k in
  if key_at ks idx k then
    if decide (idx < length vs)
    then Ret (<[a := LeafNode ks (<[idx := v]> vs) nxt]> h, None)
    else Undefined
  else if decide (idx ≤ length vs) then
    let ks1 := insert_at idx k ks in
    let vs1 := insert_at idx v vs in
    if decide (Order < length ks1) then
      let new_leaf := length h in
      let mid := length ks1 / 2 in
      let new_keys := drop mid ks1 in
      let new_values := drop mid vs1 in
      match head new_keys with
      | Some front =>
          Ret (<[a := LeafNode (take mid ks1) (take mid vs1) (Some new_leaf)]> h
                 ++ [LeafNode new_keys new_values nxt],
               Some (mkInsertResult front new_leaf))
      | None => Undefined
      end
    else Ret (<[a := LeafNode ks1 vs1 nxt]> h, None)
  else Undefined.

Definition LeafNode_find (ks : list Key) (vs : list Value) (k : Key)
    : result (option Value) :=
  let idx := lower_bound ks k in
  if key_at ks idx k then
    match vs !! idx with
    | Some v => Ret (Some v)
    | None => Undefined
    end
  else Ret None.

Definition LeafNode_update (h : store) (a : addr)
    (ks : list Key) (vs : list Value) (nxt : option addr)
    (k : Key) (v : Value) : result (store * bool) :=
  let idx := lower_bound ks k in
  if key_at ks idx k then
    if decide (idx < length vs)
    then Ret (<[a := LeafNode ks (<[idx := v]> vs) nxt]> h, true)
    else Undefined
  else Ret (h, false).

Definition LeafNode_remove (h : store) (a : addr)
    (ks : list Key) (vs : list Value) (nxt : option addr)
    (k : Key) : result (store * bool) :=
  let idx := lower_bound ks k in
  if key_at ks idx k then
    if decide (idx < length vs)
    then Ret (<[a := LeafNode (erase_at idx ks) (erase_at idx vs) nxt]> h, true)
    else Undefined
  else Ret (h, false).

(** The loop [while (it != keys.end() && *it <= end) { func (...); ++it; }]
    on the part of the leaf from [lower_bound] on; the calls of [func] are
    returned in order. *)
Fixpoint visit_upto (ks : list Key) (vs : list Value) (hi : Key)
    : result (list (Key * Value)) :=
  match ks with
  | [] => Ret []
  | k :: ks' =>
      if key_le k hi then
        match vs with
        | v :: vs' => r ← visit_upto ks' vs' hi ; Ret ((k, v) :: r)
        | [] => Undefined
        end
      else Ret []
  end.

Fixpoint LeafNode_range_scan (fuel : nat) (h : store) (a : addr)
    (lo hi : Key) : result (list (Key * Value)) :=
  match fuel with
  | 0 => OutOfFuel
  | S fuel' =>
      match h !! a with
      | Some (LeafNode ks vs nxt) =>
          let idx := lower_bound ks lo in
          here ← visit_upto (drop idx ks) (drop idx vs) hi ;
          match nxt with
          | None => Ret here
          | Some b =>
              match h !! b with
              | Some (LeafNode (front :: _) _ _) =>
                  if key_ge hi front then
                    rest ← LeafNode_range_scan fuel' h b lo hi ;
                    Ret (here ++ rest)
                  else Ret here
              | _ => Undefined  (* [front()] of an empty vector *)
              end
          end
      | _ => Undefined
      end
  end.

(** *** Dispatch on the node, and InternalNode *)

Fixpoint Node_insert (fuel : nat) (h : store) (a : addr) (k : Key) (v : Value)
    : result (store * option InsertResult) :=
  match fuel with
  | 0 => OutOfFuel
  | S fuel' =>
      match h !! a with
      | None => Undefined
      | Some (LeafNode ks vs nxt) => LeafNode_insert h a ks vs nxt k v
      | Some (InternalNode ks cs) =>
          let idx := find_child_index ks k in
          match cs !! idx with
          | None => Undefined
          | Some c =>
              '(h1, res) ← Node_insert fuel' h c k v ;
              match res with
              | None => Ret (h1, None)
              | Some (mkInsertResult sk sn) =>
                  match h1 !! a with
                  | Some (InternalNode ks1 cs1) =>
                      if decide (idx ≤ length ks1 ∧ S idx ≤ length cs1) then
                        let ks2 := insert_at idx sk ks1 in
                        let cs2 := insert_at (S idx) sn cs1 in
                        if decide (Order < length ks2) then
                          let new_internal := length h1 in
                          let mid := length ks2 / 2 in
                          match ks2 !! mid with
                          | Some middle_key =>
                              Ret (<[a := InternalNode (take mid ks2) (take (S mid) cs2)]> h1
                                     ++ [InternalNode (drop (S mid) ks2) (drop (S mid) cs2)],
                                   Some (mkInsertResult middle_key new_internal))
                          | None => Undefined
                          end
                        else Ret (<[a := InternalNode ks2 cs2]> h1, None)
                      else Undefined
                  | _ => Undefined
                  end
              end
          end
      end
  end.

Fixpoint Node_find (fuel : nat) (h : store) (a : addr) (k : Key)
    : result (option Value) :=
  match fuel with
  | 0 => OutOfFuel
  | S fuel' =>
      match h !! a with
      | None => Undefined
      | Some (LeafNode ks vs _) => LeafNode_find ks vs k
      | Some (InternalNode ks cs) =>
          match cs !! find_child_index ks k with
          | None => Undefined
          | Some c => Node_find fuel' h c k
          end
      end
  end.

Fixpoint Node_update (fuel : nat) (h : store) (a : addr) (k : Key) (v : Value)
    : result (store * bool) :=
  match fuel with
  | 0 => OutOfFuel
  | S fuel' =>
      match h !! a with
      | None => Undefined
      | Some (LeafNode ks vs nxt) => LeafNode_update h a ks vs nxt k v
      | Some (InternalNode ks cs) =>
          match cs !! find_child_index ks k with
          | None => Undefined
          | Some c => Node_update fuel' h c k v
          end
      end
  end.

Fixpoint Node_remove (fuel : nat) (h : store) (a : addr) (k : Key)
    : result (store * bool) :=
  match fuel with
  | 0 => OutOfFuel
  | S fuel' =>
      match h !! a with
      | None => Undefined
      | Some (LeafNode ks vs nxt) => LeafNode_remove h a ks vs nxt k
      | Some (InternalNode ks cs) =>
          match cs !! find_child_index ks k with
          | None => Undefined
          | Some c => Node_remove fuel' h c k
          end
      end
  end.

Fixpoint Node_range_scan (fuel : nat) (h : store) (a : addr) (lo hi : Key)
    : result (list (Key * Value)) :=
  match fuel with
  | 0 => OutOfFuel
  | S fuel' =>
      match h !! a with
      | None => Undefined
      | Some (LeafNode _ _ _) => LeafNode_range_scan (length h) h a lo hi
      | Some (InternalNode ks cs) =>
          match cs !! find_child_index ks lo with
          | None => Undefined
          | Some c => Node_range_scan fuel' h c lo hi
          end
      end
  end.

(** *** BPlusTree

    The recursion of the node operations follows a path of distinct nodes,
    so the number of nodes in the store bounds its depth. *)

Definition empty : t := mk [LeafNode [] [] None] 0.

Definition insert (tr : t) (k : Key) (v : Value) : result t :=
  '(h, res) ← Node_insert (length (nodes tr)) (nodes tr) (root_ tr) k v ;
  match res with
  | None => Ret (mk h (root_ tr))
  | Some (mkInsertResult sk sn) =>
      Ret (mk (h ++ [InternalNode [sk] [root_ tr; sn]]) (length h))
  end.

Definition find (tr : t) (k : Key) : result (option Value) :=
  Node_find (length (nodes tr)) (nodes tr) (root_ tr) k.

Definition update (tr : t) (k : Key) (v : Value) : result (t * bool) :=
  '(h, b) ← Node_update (length (nodes tr)) (nodes tr) (root_ tr) k v ;
  Ret (mk h (root_ tr), b).

Definition remove (tr : t) (k : Key) : result (t * bool) :=
  '(h, b) ← Node_remove (length (nodes tr)) (nodes tr) (root_ tr) k ;
  match h !! root_ tr with
  | Some (InternalNode [] cs) =>
      if (b : bool) then
        match cs !! 0 with
        | Some c => Ret (mk h c, b)
        | None => Undefined
        end
      else Ret (mk h (root_ tr), b)
  | Some _ => Ret (mk h (root_ tr), b)
  | None => Undefined
  end.

Definition range_scan (tr : t) (lo hi : Key) : result (list (Key * Value)) :=
  Node_range_scan (length (nodes tr)) (nodes tr) (root_ tr) lo hi.

(** A traversal that starts at the leftmost leaf and follows the [next]
    links, collecting the entries of every leaf. *)
Fixpoint leftmost_leaf (fuel : nat) (h : store) (a : addr) : result addr :=
  match fuel with
  | 0 => OutOfFuel
  | S fuel' =>
      match h !! a with
      | None => Undefined
      | Some (LeafNode _ _ _) => Ret a
      | Some (InternalNode _ cs) =>
          match cs !! 0 with
          | None => Undefined
          | Some c => leftmost_leaf fuel' h c
          end
      end
  end.

Fixpoint follow_links (fuel : nat) (h : store) (oa : option addr)
    : result (list (Key * Value)) :=
  match oa with
  | None => Ret []
  | Some a =>
      match fuel with
      | 0 => OutOfFuel
      | S fuel' =>
          match h !! a with
          | Some (LeafNode ks vs nxt) =>
              if decide (length vs = length ks) then
                rest ← follow_links fuel' h nxt ; Ret (zip ks vs ++ rest)
              else Undefined
          | _ => Undefined
          end
      end
  end.

Definition traverse (tr : t) : result (list (Key * Value)) :=
  a ← leftmost_leaf (length (nodes tr)) (nodes tr) (root_ tr) ;
  follow_links (length (nodes tr)) (nodes tr) (Some a).

Definition insert_all (tr : t) (kvs : list (Key * Value)) : result t :=
  foldl (λ (r : result t) (kv : Key * Value), tr' ← r ; insert tr' kv.1 kv.2)
        (Ret tr) kvs.

End defs.

End BPlusTree.

(** ** Tables (table.h, table.cpp) *)

Module db.

Inductive DBValue : Type :=
  | DBNull
  | DBInt (i : Z)          (* int64_t *)
  | DBFloat (f : float)    (* double *)
  | DBText (s : string).

Inductive ColumnType : Type := Null | Int | Float | Text.

Global Instance ColumnType_eq_dec : EqDecision ColumnType.
Proof. solve_decision. Defined.

(** [static_cast<int> (type)] *)
Definition ColumnType_to_int (ty : ColumnType) : Z :=
  match ty with Null => 0 | Int => 1 | Float => 2 | Text => 3 end.

Record ColumnDef : Type := mkColumnDef {
  name : string;
  type : ColumnType;
  primary_key : bool;
  not_null : bool;
}.

Definition value_type (value : DBValue) : ColumnType :=
  match value with
  | DBNull => Null
  | DBInt _ => Int
  | DBFloat _ => Float
  | DBText _ => Text
  end.

Definition is_null (value : DBValue) : bool :=
  match value with DBNull => true | _ => false end.

(** [std::get<DBInt> (value)] and [std::get<DBText> (value)]: [None] stands
    for the [std::bad_variant_access] they throw on another alternative. *)
Definition get_DBInt (value : DBValue) : option Z :=
  match value with DBInt i => Some i | _ => None end.
Definition get_DBText (value : DBValue) : option string :=
  match value with DBText s => Some s | _ => None end.

Definition values_equal (a b : DBValue) : bool :=
  match a, b with
  | DBNull, DBNull => true
  | DBInt x, DBInt y => bool_decide (x = y)
  | DBFloat x, DBFloat y => PrimFloat.eqb x y
  | DBText x, DBText y => bool_decide (x = y)
  | _, _ => false
  end.

Definition values_less (a b : DBValue) : bool :=
  match a, b with
  | DBNull, DBNull => false
  | DBNull, _ => true
  | _, DBNull => false
  | DBInt x, DBInt y => Z.ltb x y
  | DBFloat x, DBFloat y => PrimFloat.ltb x y
  | DBText x, DBText y => String.ltb x y
  | _, _ => Z.ltb (ColumnType_to_int (value_type a)) (ColumnType_to_int (value_type b))
  end.

(** [using Row = std::vector<DBValue>] *)
Abbreviation Row := (list DBValue).

Record Condition : Type := mkCondition {
  column_name : string;
  op : string;
  value : DBValue;
}.

(** The position of the first column called [n]. *)
Fixpoint column_index_from (i : nat) (columns : list ColumnDef) (n : string)
    : option nat :=
  match columns with
  | [] => None
  | col :: columns' =>
      if bool_decide (name col = n) then Some i
      else column_index_from (S i) columns' n
  end.

Definition evaluate (c : Condition) (row : Row) (columns : list ColumnDef) : bool :=
  match column_index_from 0 columns (column_name c) with
  | None => false
  | Some col_idx =>
      match row !! col_idx with
      | None => false
      | Some row_value =>
          if bool_decide (op c = "=") then values_equal row_value (value c)
          else if bool_decide (op c = "!=") then negb (values_equal row_value (value c))
          else if bool_decide (op c = "<") then values_less row_value (value c)
          else if bool_decide (op c = ">") then
            negb (values_less row_value (value c)) && negb (values_equal row_value (value c))
          else if bool_decide (op c = "<=") then
            values_less row_value (value c) || values_equal row_value (value c)
          else if bool_decide (op c = ">=") then negb (values_less row_value (value c))
          else false
      end
  end.

Record Table : Type := mkTable {
  name_ : string;
  columns_ : list ColumnDef;
  rows_ : list Row;
  primary_key_index_ : option nat;
  int_index_ : option (@BPlusTree.t Z nat);      (* null when [None] *)
  text_index_ : option (@BPlusTree.t string nat);
}.

Definition set_rows (t : Table) (rows : list Row) : Table :=
  mkTable (name_ t) (columns_ t) rows (primary_key_index_ t)
          (int_index_ t) (text_index_ t).
Definition set_int_index (t : Table) (ix : @BPlusTree.t Z nat) : Table :=
  mkTable (name_ t) (columns_ t) (rows_ t) (primary_key_index_ t)
          (Some ix) (text_index_ t).
Definition set_text_index (t : Table) (ix : @BPlusTree.t string nat) : Table :=
  mkTable (name_ t) (columns_ t) (rows_ t) (primary_key_index_ t)
          (int_index_ t) (Some ix).

(** The position of the first column declared [primary_key]. *)
Fixpoint first_primary_key (i : nat) (columns : list ColumnDef) : option nat :=
  match columns with
  | [] => None
  | col :: columns' =>
      if primary_key col then Some i else first_primary_key (S i) columns'
  end.

(** [Table::Table (name, columns)] *)
Definition new_Table (n : string) (columns : list ColumnDef) : Table :=
  let pk := first_primary_key 0 columns in
  let pk_type := pk ≫= (λ i, type <$> columns !! i) in
  mkTable n columns [] pk
    (if bool_decide (pk_type = Some Int) then Some BPlusTree.empty else None)
    (if bool_decide (pk_type = Some Text) then Some BPlusTree.empty else None).

Definition column_index (t : Table) (n : string) : option nat :=
  column_index_from 0 (columns_ t) n.

Definition has_index (t : Table) : bool :=
  bool_decide (is_Some (primary_key_index_ t)).

(** [index->find (key).has_value ()] through a pointer that may be null. *)
Definition index_find `{KeyOps K} (ix : option (@BPlusTree.t K nat)) (k : K)
    : result (option nat) :=
  match ix with
  | None => Undefined
  | Some tr => BPlusTree.find tr k
  end.

(** The checks of [insert_row] on the columns from position [i] on: [None]
    when they all pass, otherwise how the call ends. *)
Fixpoint insert_row_checks (t : Table) (i : nat)
    (columns : list ColumnDef) (row : Row) : result (option (call bool)) :=
  match columns, row with
  | col :: columns', val :: row' =>
      if not_null col && is_null val then Ret (Some (Returned false))
      else if negb (is_null val) && negb (bool_decide (value_type val = type col))
      then Ret (Some (Returned false))
      else
        let continue := insert_row_checks t (S i) columns' row' in
        if primary_key col && has_index t
           && bool_decide (primary_key_index_ t = Some i) then
          if bool_decide (type col = Int) then
            match get_DBInt val with
            | None => Ret (Some (Thrown bad_variant_access))
            | Some key =>
                found ← index_find (int_index_ t) key;
                if found is Some _ then Ret (Some (Returned false)) else continue
            end
          else if bool_decide (type col = Text) then
            match get_DBText val with
            | None => Ret (Some (Thrown bad_variant_access))
            | Some key =>
                found ← index_find (text_index_ t) key;
                if found is Some _ then Ret (Some (Returned false)) else continue
            end
          else continue
        else continue
  | _, _ => Ret None
  end.

Definition update_index (t : Table) (key : DBValue) (row_index : nat)
    : result (Table * call ()) :=
  match primary_key_index_ t with
  | None => Ret (t, Returned ())
  | Some pk =>
      match columns_ t !! pk with
      | None => Undefined
      | Some pk_column =>
          match type pk_column, int_index_ t, text_index_ t with
          | Int, Some ix, _ =>
              match get_DBInt key with
              | None => Ret (t, Thrown bad_variant_access)
              | Some k =>
                  ix' ← BPlusTree.insert 4 ix k row_index;
                  Ret (set_int_index t ix', Returned ())
              end
          | Text, _, Some ix =>
              match get_DBText key with
              | None => Ret (t, Thrown bad_variant_access)
              | Some k =>
                  ix' ← BPlusTree.insert 4 ix k row_index;
                  Ret (set_text_index t ix', Returned ())
              end
          | _, _, _ => Ret (t, Returned ())
          end
      end
  end.

Definition insert_row (t : Table) (row : Row) : result (Table * call bool) :=
  if negb (bool_decide (length row = length (columns_ t)))
  then Ret (t, Returned false)
  else
    checks ← insert_row_checks t 0 (columns_ t) row;
    match checks with
    | Some how => Ret (t, how)
    | None =>
        let row_idx := length (rows_ t) in
        let t1 := set_rows t (rows_ t ++ [row]) in
        match primary_key_index_ t1 with
        | None => Ret (t1, Returned true)
        | Some pk =>
            match row !! pk with
            | None => Undefined
            | Some key =>
                '(t2, c) ← update_index t1 key row_idx;
                match c with
                | Returned _ => Ret (t2, Returned true)
                | Thrown e => Ret (t2, Thrown e)
                end
            end
        end
    end.

Definition row_matches (t : Table) (row : Row) (conditions : list Condition) : bool :=
  forallb (λ c, evaluate c row (columns_ t)) conditions.

(** The row an index lookup resolves to: [rows_[*row_idx_opt]] if the
    position is below [rows_.size ()]. *)
Definition row_at (t : Table) (row_idx_opt : option nat) : list Row :=
  match row_idx_opt with
  | Some row_idx =>
      match rows_ t !! row_idx with Some row => [row] | None => [] end
  | None => []
  end.

Definition full_scan (t : Table) (conditions : list Condition) : list Row :=
  filter (λ row, row_matches t row conditions = true) (rows_ t).

Definition select (t : Table) (conditions : list Condition) : result (list Row) :=
  match primary_key_index_ t, conditions with
  | Some pk, [condition] =>
      match columns_ t !! pk with
      | None => Undefined
      | Some pk_column =>
          if bool_decide (column_name condition = name pk_column)
             && bool_decide (op condition = "=") then
            match type pk_column, value condition with
            | Int, DBInt key =>
                row_idx_opt ← index_find (int_index_ t) key;
                Ret (row_at t row_idx_opt)
            | Text, DBText key =>
                row_idx_opt ← index_find (text_index_ t) key;
                Ret (row_at t row_idx_opt)
            | _, _ => Ret (full_scan t conditions)
            end
          else Ret (full_scan t conditions)
      end
  | _, _ => Ret (full_scan t conditions)
  end.

(** The assignments of [update], by column position. *)
Definition resolve_updates (t : Table) (updates : gmap string DBValue)
    : gmap nat DBValue :=
  map_fold (λ col_name value acc,
              match column_index t col_name with
              | Some idx => <[idx := value]> acc
              | None => acc
              end) ∅ updates.

(** One step of the loop over [col_idx_to_value] on a row: an assignment
    whose value is not Null and not of the type of the column is skipped.
    (The column positions come from [column_index] and the rows have one
    field per column, so both accesses are in range.) *)
Definition assign_field (t : Table) (row : Row) (col_idx : nat) (value : DBValue)
    : Row :=
  if negb (is_null value)
     && negb (bool_decide (Some (value_type value) = type <$> columns_ t !! col_idx))
  then row
  else <[col_idx := value]> row.

Definition assign_fields (t : Table) (col_idx_to_value : gmap nat DBValue)
    (row : Row) : Row :=
  foldl (λ (r : Row) '(col_idx, value), assign_field t r col_idx value)
        row (map_to_list col_idx_to_value).

(** The uniqueness check of [update] for row [i]: [Returned true] when the
    row is to be skipped. *)
Definition duplicate_key (t : Table) (pk : nat) (new_pk_value : DBValue)
    (i : nat) : result (call bool) :=
  match columns_ t !! pk with
  | None => Undefined
  | Some pk_col =>
      if bool_decide (type pk_col = Int) then
        match get_DBInt new_pk_value with
        | None => Ret (Thrown bad_variant_access)
        | Some key =>
            existing ← index_find (int_index_ t) key;
            Ret (Returned (if existing is Some e then negb (bool_decide (e = i)) else false))
        end
      else if bool_decide (type pk_col = Text) then
        match get_DBText new_pk_value with
        | None => Ret (Thrown bad_variant_access)
        | Some key =>
            existing ← index_find (text_index_ t) key;
            Ret (Returned (if existing is Some e then negb (bool_decide (e = i)) else false))
        end
      else Ret (Returned false)
  end.

(** The body of the loop of [update] for row [i]; it returns whether the
    row was counted. *)
Definition update_row (t : Table) (col_idx_to_value : gmap nat DBValue)
    (conditions : list Condition) (i : nat) : result (Table * call bool) :=
  match rows_ t !! i with
  | None => Undefined
  | Some row =>
      if row_matches t row conditions then
        let updating_pk :=
          match primary_key_index_ t with
          | Some pk => col_idx_to_value !! pk
          | None => None
          end in
        skip ← match primary_key_index_ t, updating_pk with
               | Some pk, Some new_pk_value => duplicate_key t pk new_pk_value i
               | _, _ => Ret (Returned false)
               end;
        match skip with
        | Thrown e => Ret (t, Thrown e)
        | Returned true => Ret (t, Returned false)
        | Returned false =>
            let row' := assign_fields t col_idx_to_value row in
            let t1 := set_rows t (<[i := row']> (rows_ t)) in
            match primary_key_index_ t, updating_pk with
            | Some pk, Some _ =>
                match row' !! pk with
                | None => Undefined
                | Some key =>
                    '(t2, c) ← update_index t1 key i;
                    match c with
                    | Returned _ => Ret (t2, Returned true)
                    | Thrown e => Ret (t2, Thrown e)
                    end
                end
            | _, _ => Ret (t1, Returned true)
            end
        end
      else Ret (t, Returned false)
  end.

(** The loop [for (i = 0; i < rows_.size (); ++i)] from [i] on, [n] rows
    remaining. *)
Fixpoint update_loop (n : nat) (t : Table) (col_idx_to_value : gmap nat DBValue)
    (conditions : list Condition) (i count : nat) : result (Table * call nat) :=
  match n with
  | 0 => Ret (t, Returned count)
  | S n' =>
      '(t1, c) ← update_row t col_idx_to_value conditions i;
      match c with
      | Thrown e => Ret (t1, Thrown e)
      | Returned counted =>
          update_loop n' t1 col_idx_to_value conditions (S i)
                      (if (counted : bool) then S count else count)
      end
  end.

Definition update (t : Table) (updates : gmap string DBValue)
    (conditions : list Condition) : result (Table * call nat) :=
  update_loop (length (rows_ t)) t (resolve_updates t updates) conditions 0 0.

Definition remove (t : Table) (conditions : list Condition) : Table * nat :=
  let initial_size := length (rows_ t) in
  let rows := filter (λ row, row_matches t row conditions ≠ true) (rows_ t) in
  (set_rows t rows, initial_size - length rows).

(** *** Database (database.h, database.cpp)

    The tables by name.  [std::cerr] only receives messages. *)
Record Database : Type := mkDatabase {
  Database_name_ : string;
  tables_ : gmap string Table;
}.

Definition new_Database (n : string) : Database := mkDatabase n ∅.

Definition table_exists (d : Database) (n : string) : bool :=
  bool_decide (is_Some (tables_ d !! n)).

(** The loop of [create_table] over the columns, [has_primary_key] being
    the flag it keeps: [false] when it meets a second primary key. *)
Fixpoint validate_columns (has_primary_key : bool) (columns : list ColumnDef) : bool :=
  match columns with
  | [] => true
  | col :: columns' =>
      if primary_key col then
        if has_primary_key then false else validate_columns true columns'
      else validate_columns has_primary_key columns'
  end.

Definition create_table (d : Database) (n : string) (columns : list ColumnDef)
    : Database * bool :=
  if table_exists d n then (d, false)
  else if negb (validate_columns false columns) then (d, false)
  else (mkDatabase (Database_name_ d) (<[n := new_Table n columns]> (tables_ d)), true).

Definition drop_table (d : Database) (n : string) : Database * bool :=
  if negb (table_exists d n) then (d, false)
  else (mkDatabase (Database_name_ d) (delete n (tables_ d)), true).

(** [nullptr] is [None]. *)
Definition get_table (d : Database) (n : string) : option Table := tables_ d !! n.

(** The names in the order in which the map is iterated, which the
    standard leaves open; here it is the order of [map_to_list]. *)
Definition list_tables (d : Database) : list string := (map_to_list (tables_ d)).*1.

End db.

(** ** Transactions (transaction.hpp) and the transaction-aware table
    (table.hpp, database.hpp) *)

Module txn.

Inductive State : Type := ACTIVE | COMMITTED | ABORTED.

Global Instance State_eq_dec : EqDecision State.
Proof. solve_decision. Defined.

Section defs.
(** [Value], [Column] and [Index] come from headers (column.hpp, index.hpp)
    that are not part of the sources; the code below only uses the
    following of them. *)
Context {Value Column Index : Type}.
Variable validate_value : Column → Value → bool.      (* Column::validate_value *)
Variable Column_name : Column → string.               (* Column::name *)
Variable Index_column_index : Index → nat.            (* Index::column_index *)
Variable Index_insert : Index → Value → nat → Index.  (* Index::insert *)

Record Transaction : Type := mkTransaction {
  id_ : N;                                   (* uint64_t *)
  state_ : State;
  table_states_ : gmap string (list (list Value));
}.

Definition new_Transaction (id : N) : Transaction := mkTransaction id ACTIVE ∅.

Definition add_table_state (tx : Transaction) (table_name : string)
    (state : list (list Value)) : Transaction :=
  mkTransaction (id_ tx) (state_ tx) (<[table_name := state]> (table_states_ tx)).

Definition get_table_state (tx : Transaction) (table_name : string)
    : call (list (list Value)) :=
  match table_states_ tx !! table_name with
  | Some state => Returned state
  | None => Thrown (runtime_error ("No state found for table " +:+ table_name))
  end.

Definition set_state (tx : Transaction) (state : State) : Transaction :=
  mkTransaction (id_ tx) state (table_states_ tx).

Record TransactionManager : Type := mkTransactionManager {
  next_transaction_id_ : N;                  (* uint64_t *)
  transactions_ : gmap N Transaction;
}.

Definition new_TransactionManager : TransactionManager :=
  mkTransactionManager 1 ∅.

Definition not_found (id : N) : exn :=
  runtime_error ("Transaction " +:+ pretty id +:+ " not found").

Definition begin_transaction (tm : TransactionManager) : TransactionManager * N :=
  let id := next_transaction_id_ tm in
  (mkTransactionManager ((id + 1) `mod` 2 ^ 64)
     (<[id := new_Transaction id]> (transactions_ tm)), id).

Definition commit_transaction (tm : TransactionManager) (id : N)
    : TransactionManager * call () :=
  match transactions_ tm !! id with
  | None => (tm, Thrown (not_found id))
  | Some tx =>
      let transactions := <[id := set_state tx COMMITTED]> (transactions_ tm) in
      (mkTransactionManager (next_transaction_id_ tm) (delete id transactions),
       Returned ())
  end.

Definition abort_transaction (tm : TransactionManager) (id : N)
    : TransactionManager * call () :=
  match transactions_ tm !! id with
  | None => (tm, Thrown (not_found id))
  | Some tx =>
      let transactions := <[id := set_state tx ABORTED]> (transactions_ tm) in
      (mkTransactionManager (next_transaction_id_ tm) (delete id transactions),
       Returned ())
  end.

Definition get_transaction (tm : TransactionManager) (id : N) : call Transaction :=
  match transactions_ tm !! id with
  | None => Thrown (not_found id)
  | Some tx => Returned tx
  end.

Record Table : Type := mkTable {
  name_ : string;
  columns_ : list Column;
  rows_ : list (list Value);
  indexes_ : gmap string Index;
}.

Definition get_current_state (t : Table) : list (list Value) := rows_ t.

(** The first column of [columns] whose check rejects its value. *)
Fixpoint first_invalid (columns : list Column) (values : list Value)
    : option Column :=
  match columns, values with
  | col :: columns', v :: values' =>
      if validate_value col v then first_invalid columns' values' else Some col
  | _, _ => None
  end.

(** [transaction.add_table_state (name_, get_current_state ())], on the
    record that [get_transaction] returns a reference to. *)
Definition store_original_state (tm : TransactionManager) (t : Table)
    (transaction_id : N) : TransactionManager * call () :=
  if decide (0 < transaction_id)%N then
    match get_transaction tm transaction_id with
    | Thrown e => (tm, Thrown e)
    | Returned transaction =>
        if decide (state_ transaction = ACTIVE) then
          (mkTransactionManager (next_transaction_id_ tm)
             (<[transaction_id :=
                  add_table_state transaction (name_ t) (get_current_state t)]>
                (transactions_ tm)),
           Returned ())
        else (tm, Returned ())
    end
  else (tm, Returned ()).

(** [Table::insert (values, transaction_id)]; the manager is the singleton
    [TransactionManager::instance ()]. *)
Definition insert (tm : TransactionManager) (t : Table)
    (values : list Value) (transaction_id : N)
    : result (TransactionManager * Table * call ()) :=
  if negb (bool_decide (length values = length (columns_ t))) then
    Ret (tm, t, Thrown (runtime_error
                          "Number of values does not match number of columns"))
  else
    match first_invalid (columns_ t) values with
    | Some col =>
        Ret (tm, t, Thrown (runtime_error
                              ("Invalid value type for column " +:+ Column_name col)))
    | None =>
        match store_original_state tm t transaction_id with
        | (tm1, Thrown e) => Ret (tm1, t, Thrown e)
        | (tm1, Returned _) =>
            let rows := rows_ t ++ [values] in
            if bool_decide (map_Forall
                 (λ _ ix, is_Some (values !! Index_column_index ix)) (indexes_ t))
            then
              let indexes :=
                (λ ix, match values !! Index_column_index ix with
                       | Some v => Index_insert ix v (length rows - 1)
                       | None => ix
                       end) <$> indexes_ t in
              Ret (tm1, mkTable (name_ t) (columns_ t) rows indexes, Returned ())
            else Undefined
        end
    end.

(** [Database]: the tables by name; the transaction operations forward to
    the manager. *)
Record Database : Type := mkDatabase {
  tables_ : gmap string Table;
}.

Definition Database_begin_transaction (tm : TransactionManager) (d : Database)
    : TransactionManager * Database * N :=
  let '(tm1, id) := begin_transaction tm in (tm1, d, id).

Definition Database_commit_transaction (tm : TransactionManager) (d : Database)
    (id : N) : TransactionManager * Database * call () :=
  let '(tm1, c) := commit_transaction tm id in (tm1, d, c).

Definition Database_abort_transaction (tm : TransactionManager) (d : Database)
    (id : N) : TransactionManager * Database * call () :=
  let '(tm1, c) := abort_transaction tm id in (tm1, d, c).

Definition create_table (d : Database) (n : string) (columns : list Column)
    : Database * call () :=
  match tables_ d !! n with
  | Some _ => (d, Thrown (runtime_error ("Table " +:+ n +:+ " already exists")))
  | None => (mkDatabase (<[n := mkTable n columns [] ∅]> (tables_ d)), Returned ())
  end.

Definition get_table (d : Database) (n : string) : option Table := tables_ d !! n.

(** [db.get_table (n)->insert (values, transaction_id)] *)
Definition insert_into (tm : TransactionManager) (d : Database) (n : string)
    (values : list Value) (transaction_id : N)
    : result (TransactionManager * Database * call ()) :=
  match get_table d n with
  | None => Undefined
  | Some t =>
      '(tm1, t1, c) ← insert tm t values transaction_id;
      Ret (tm1, mkDatabase (<[n := t1]> (tables_ d)), c)
  end.

(** *** [Table::update], [Table::delete_rows] (table.hpp)

    [update] and [delete_rows] also compare values and maintain the
    indexes. *)
Variable Value_eq : Value → Value → bool.             (* operator== of Value *)
Variable Index_update : Index → nat → Value → Index.  (* Index::update *)
Variable Index_remove : Index → nat → Index.          (* Index::remove *)

(** The position of the first column called [column_name]. *)
Fixpoint get_column_index_from (i : nat) (columns : list Column)
    (column_name : string) : option nat :=
  match columns with
  | [] => None
  | col :: columns' =>
      if bool_decide (Column_name col = column_name) then Some i
      else get_column_index_from (S i) columns' column_name
  end.

Definition get_column_index (t : Table) (column_name : string) : call nat :=
  match get_column_index_from 0 (columns_ t) column_name with
  | Some i => Returned i
  | None => Thrown (runtime_error ("Column " +:+ column_name +:+ " does not exist"))
  end.

(** The loop [for (i = 0; i < rows_.size (); ++i)] of [update] from [i] on,
    [n] rows remaining. *)
Fixpoint update_loop (n : nat) (rows : list (list Value))
    (indexes : gmap string Index) (column_idx where_idx : nat)
    (new_value where_value : Value) (i : nat)
    : result (list (list Value) * gmap string Index) :=
  match n with
  | 0 => Ret (rows, indexes)
  | S n' =>
      match rows !! i with
      | None => Undefined
      | Some row =>
          match row !! where_idx with
          | None => Undefined
          | Some x =>
              if Value_eq x where_value then
                if decide (column_idx < length row) then
                  update_loop n'
                    (<[i := <[column_idx := new_value]> row]> rows)
                    ((λ ix, if decide (Index_column_index ix = column_idx)
                            then Index_update ix i new_value else ix) <$> indexes)
                    column_idx where_idx new_value where_value (S i)
                else Undefined
              else update_loop n' rows indexes column_idx where_idx
                               new_value where_value (S i)
          end
      end
  end.

Definition update (tm : TransactionManager) (t : Table)
    (column_name : string) (new_value : Value)
    (where_column : string) (where_value : Value) (transaction_id : N)
    : result (TransactionManager * Table * call ()) :=
  match get_column_index t column_name with
  | Thrown e => Ret (tm, t, Thrown e)
  | Returned column_idx =>
      match get_column_index t where_column with
      | Thrown e => Ret (tm, t, Thrown e)
      | Returned where_idx =>
          match store_original_state tm t transaction_id with
          | (tm1, Thrown e) => Ret (tm1, t, Thrown e)
          | (tm1, Returned _) =>
              '(rows, indexes) ← update_loop (length (rows_ t)) (rows_ t) (indexes_ t)
                                   column_idx where_idx new_value where_value 0;
              Ret (tm1, mkTable (name_ t) (columns_ t) rows indexes, Returned ())
          end
      end
  end.



End defs.

End txn.

(** ** The tokenizer of the SQL parser (parser.cpp) *)

Module parser.
Import Stdlib.Strings.Ascii.

(** A [std::string] as the sequence of its characters. *)
Abbreviation chars := (list ascii) (only parsing).

Definition single_quote : ascii := ascii_of_nat 39.
Definition double_quote : ascii := ascii_of_nat 34.

Definition is_quote (c : ascii) : bool :=
  bool_decide (c = single_quote) || bool_decide (c = double_quote).

(** [std::isspace] in the "C" locale, which the program never changes: the
    blank and the characters 9 to 13.  A character above 127 is no white
    space either (where [char] is signed it reaches [std::isspace] as a
    negative number, for which the tables of the C library answer no as
    well). *)
Definition isspace (c : ascii) : bool :=
  bool_decide (nat_of_ascii c = 32)
  || bool_decide (9 ≤ nat_of_ascii c ≤ 13).

(** [c == ',' || c == '(' || c == ')' || c == ';'] *)
Definition is_special (c : ascii) : bool :=
  bool_decide (c = ","%char) || bool_decide (c = "("%char)
  || bool_decide (c = ")"%char) || bool_decide (c = ";"%char).

(** [c == '=' || c == '<' || c == '>' || c == '!'] *)
Definition is_operator (c : ascii) : bool :=
  bool_decide (c = "="%char) || bool_decide (c = "<"%char)
  || bool_decide (c = ">"%char) || bool_decide (c = "!"%char).

(** [if (!current_token.empty ()) { tokens.push_back (current_token);
    current_token.clear (); }] *)
Definition push_current (tokens : list chars) (current_token : chars) : list chars :=
  match current_token with
  | [] => tokens
  | _ => tokens ++ [current_token]
  end.

(** The loop of [tokenize] over the characters that remain. *)
Fixpoint tokenize_from (sql : chars) (tokens : list chars) (current_token : chars)
    (in_quotes : bool) (quote_char : ascii) : list chars :=
  match sql with
  | [] => push_current tokens current_token
  | c :: rest =>
      if is_quote c then
        if negb in_quotes then
          tokenize_from rest (push_current tokens current_token) [c] true c
        else if bool_decide (c = quote_char) then
          tokenize_from rest (tokens ++ [current_token ++ [c]]) [] false quote_char
        else tokenize_from rest tokens (current_token ++ [c]) in_quotes quote_char
      else if in_quotes then
        tokenize_from rest tokens (current_token ++ [c]) in_quotes quote_char
      else if isspace c then
        tokenize_from rest (push_current tokens current_token) [] in_quotes quote_char
      else if is_special c then
        tokenize_from rest (push_current tokens current_token ++ [[c]]) []
                      in_quotes quote_char
      else if is_operator c then
        match rest with
        | c' :: rest' =>
            if bool_decide (c' = "="%char)
               || (bool_decide (c = "<"%char) && bool_decide (c' = ">"%char))
            then tokenize_from rest' (push_current tokens current_token ++ [[c; c']]) []
                               in_quotes quote_char
            else tokenize_from rest (push_current tokens current_token ++ [[c]]) []
                               in_quotes quote_char
        | [] => tokenize_from rest (push_current tokens current_token ++ [[c]]) []
                              in_quotes quote_char
        end
      else tokenize_from rest tokens (current_token ++ [c]) in_quotes quote_char
  end.

Definition tokenize (sql : chars) : list chars :=
  tokenize_from sql [] [] false (ascii_of_nat 0).

End parser.

(** * Part II: specifications *)

(** The laws of the order on keys. *)
Class KeyOrd (K : Type) `{KeyOps K} := {
  key_lt_irrefl : ∀ a : K, key_lt a a = false;
  key_lt_trans : ∀ a b c : K,
    key_lt a b = true → key_lt b c = true → key_lt a c = true;
  key_lt_total : ∀ a b : K, key_lt a b = false → key_lt b a = false → a = b;
}.

(** ** The shape of a tree in the store *)

Section bpt_shape.
Import BPlusTree.
Context {Key Value : Type} {Kops : KeyOps Key}.
Local Abbreviation store := (list (@Node Key Value)) (only parsing).
Implicit Types (h : store) (a b c : addr) (k : Key) (v : Value).
Implicit Types (ks : list Key) (vs : list Value) (cs fp : list addr).
Implicit Types (kvs : list (Key * Value)) (lo hi : option Key).

(** Bounds of a subtree: keys are at least [lo] and below [hi]. *)
Definition lo_ok lo k : Prop :=
  match lo with None => True | Some l => key_lt k l = false end.
Definition hi_ok hi k : Prop :=
  match hi with None => True | Some u => key_lt k u = true end.
Definition within lo hi k : Prop := lo_ok lo k ∧ hi_ok hi k.

(** Bounds of a separator key: at least [lo] and at most [hi]. *)
Definition hi_le hi k : Prop :=
  match hi with None => True | Some u => key_lt u k = false end.
Definition sep_ok lo hi k : Prop := lo_ok lo k ∧ hi_le hi k.

Definition sorted ks : Prop := StronglySorted (λ x y, key_lt x y = true) ks.

(** The entries of a tree, as a sorted association list, and the three
    operations on it that the tree implements. *)
Fixpoint ins k v kvs : list (Key * Value) :=
  match kvs with
  | [] => [(k, v)]
  | (k', v') :: kvs' =>
      if key_lt k' k then (k', v') :: ins k v kvs'
      else if decide (k' = k) then (k, v) :: kvs'
      else (k, v) :: (k', v') :: kvs'
  end.

Fixpoint del k kvs : list (Key * Value) :=
  match kvs with
  | [] => []
  | (k', v') :: kvs' =>
      if key_lt k' k then (k', v') :: del k kvs'
      else if decide (k' = k) then kvs'
      else (k', v') :: kvs'
  end.

Fixpoint get k kvs : option Value :=
  match kvs with
  | [] => None
  | (k', v') :: kvs' =>
      if key_lt k' k then get k kvs'
      else if decide (k' = k) then Some v' else None
  end.

Definition upd k v kvs : list (Key * Value) :=
  if get k kvs is Some _ then ins k v kvs else kvs.

(** *** Subtrees

    [tree_at h n a lo hi first nxt fp kvs]: in the store [h], the node at
    [a] is the root of a subtree of height [n] whose keys lie in
    [[lo, hi)]; [first] is its leftmost leaf and [nxt] the [next] link of
    its rightmost leaf; [fp] lists the addresses of its nodes and [kvs] its
    entries from left to right.  The children of an internal node form a
    [forest]: consecutive children are separated by the keys of the node,
    and the last leaf of each child links to the first leaf of the next. *)
Definition tree_pred : Type :=
  addr → option Key → option Key → addr → option addr →
  list addr → list (Key * Value) → Prop.

Inductive forest (T : tree_pred) :
    list addr → list Key → option Key → option Key → addr → option addr →
    list addr → list (Key * Value) → Prop :=
  | forest_one c lo hi first nxt fp kvs :
      T c lo hi first nxt fp kvs →
      forest T [c] [] lo hi first nxt fp kvs
  | forest_cons c cs k ks lo hi first mid nxt fp1 fp2 kvs1 kvs2 :
      T c lo (Some k) first (Some mid) fp1 kvs1 →
      forest T cs ks (Some k) hi mid nxt fp2 kvs2 →
      (∀ b, b ∈ fp1 → b ∉ fp2) →
      sep_ok lo hi k →
      forest T (c :: cs) (k :: ks) lo hi first nxt (fp1 ++ fp2) (kvs1 ++ kvs2).

Fixpoint tree_at h (n : nat) : tree_pred := λ a lo hi first nxt fp kvs,
  match n with
  | 0 => ∃ ks vs,
      h !! a = Some (LeafNode ks vs nxt) ∧ length vs = length ks ∧
      sorted ks ∧ Forall (within lo hi) ks ∧
      first = a ∧ fp = [a] ∧ kvs = zip ks vs
  | S n' => ∃ ks cs fp',
      h !! a = Some (InternalNode ks cs) ∧
      forest (tree_at h n') cs ks lo hi first nxt fp' kvs ∧
      (a ∉ fp') ∧ fp = a :: fp'
  end.

(** The invariant of a [BPlusTree] object. *)
Definition wf (tr : @t Key Value) (kvs : list (Key * Value)) : Prop :=
  ∃ n first fp, tree_at (nodes tr) n (root_ tr) None None first None fp kvs.

(** *** Descending into the child that covers a key

    [find_child_index] selects a child whose bounds cover the key; the
    entries to its left are smaller and those to its right greater.  The
    forest can be rebuilt around a new version of that child, or around the
    two halves of a split. *)
Definition framed (T T' : tree_pred) (fpc : list addr) : Prop :=
  ∀ c lo hi first nxt fp kvs,
    T c lo hi first nxt fp kvs → (∀ b, b ∈ fp → b ∉ fpc) →
    T' c lo hi first nxt fp kvs.

(** What an insertion below [a] leaves behind: either the same subtree
    with the entry added, or -- after a split -- two subtrees separated by
    the key that moves up, the old node being the left one.  Nodes outside
    the subtree are untouched and new nodes are fresh. *)
Definition insert_post h n a lo hi first nxt fp kvs k v
    (h' : store) (res : option (@InsertResult Key)) : Prop :=
  length h ≤ length h' ∧
  (∀ b, b < length h → b ∉ fp → h' !! b = h !! b) ∧
  match res with
  | None => ∃ fp',
      tree_at h' n a lo hi first nxt fp' (ins k v kvs) ∧
      (∀ b, b ∈ fp' → b ∈ fp ∨ length h ≤ b)
  | Some (mkInsertResult sk sn) => ∃ m fp1 fp2 kvs1 kvs2,
      tree_at h' n a lo (Some sk) first (Some m) fp1 kvs1 ∧
      tree_at h' n sn (Some sk) hi m nxt fp2 kvs2 ∧
      ins k v kvs = kvs1 ++ kvs2 ∧
      sep_ok lo hi sk ∧
      (∀ b, b ∈ fp1 → b ∉ fp2) ∧
      (∀ b, b ∈ fp1 ++ fp2 → b ∈ fp ∨ length h ≤ b)
  end.

Definition modify_post h n a lo hi first nxt fp
    (kvs' : list (Key * Value)) (h' : store) : Prop :=
  length h' = length h ∧
  (∀ b, b ∉ fp → h' !! b = h !! b) ∧
  tree_at h' n a lo hi first nxt fp kvs'.

Definition ins_all (kvs0 l : list (Key * Value)) : list (Key * Value) :=
  foldl (λ acc kv, ins kv.1 kv.2 acc) kvs0 l.

(** Sequences of the public operations, and their effect on the entries. *)
Inductive op : Type :=
  | OpInsert (k : Key) (v : Value)
  | OpUpdate (k : Key) (v : Value)
  | OpRemove (k : Key).

Definition op_key (o : op) : Key :=
  match o with OpInsert k _ | OpUpdate k _ | OpRemove k => k end.

Definition run_op (Order : nat) (tr : @t Key Value) (o : op) : result t :=
  match o with
  | OpInsert k v => insert Order tr k v
  | OpUpdate k v => r ← update tr k v; Ret r.1
  | OpRemove k => r ← remove tr k; Ret r.1
  end.

Definition run_ops (Order : nat) (tr : @t Key Value) (ops : list op) : result t :=
  foldl (λ (r : result t) o, tr' ← r; run_op Order tr' o) (Ret tr) ops.

Definition apply_op kvs (o : op) : list (Key * Value) :=
  match o with
  | OpInsert k v => ins k v kvs
  | OpUpdate k v => upd k v kvs
  | OpRemove k => del k kvs
  end.

(** The states a tree can be in: every tree is built from the empty one by
    the public operations. *)
Definition reachable (Order : nat) (tr : @t Key Value) : Prop :=
  ∃ ops, run_ops Order empty ops = Ret tr.

(** The value that was written to [k] last: by [ops], or else [v]. *)
Definition last_written (k : Key) (v : Value) (ops : list op) : Value :=
  foldl (λ w o, match o with
                | OpInsert k' v' | OpUpdate k' v' => if decide (k' = k) then v' else w
                | OpRemove _ => w
                end) v ops.

End bpt_shape.

(** ** Tables: sequences of operations and the state of the index *)

Section db_spec.
Import db.

Inductive table_op : Type :=
  | TInsert (row : Row)
  | TUpdate (updates : gmap string DBValue) (conditions : list Condition)
  | TRemove (conditions : list Condition).

(** A caller that goes on after an exception continues with the table as
    the call left it. *)
Definition run_table_op (t : Table) (o : table_op) : result Table :=
  match o with
  | TInsert row => r ← insert_row t row; Ret r.1
  | TUpdate updates conditions => r ← update t updates conditions; Ret r.1
  | TRemove conditions => Ret (remove t conditions).1
  end.

Definition run_table_ops (t : Table) (ops : list table_op) : result Table :=
  foldl (λ (r : result Table) o, t' ← r; run_table_op t' o) (Ret t) ops.

Definition is_update (o : table_op) : bool :=
  match o with TUpdate _ _ => true | _ => false end.
Definition is_remove (o : table_op) : bool :=
  match o with TRemove _ => true | _ => false end.

Fixpoint no_update_after_remove (ops : list table_op) : bool :=
  match ops with
  | [] => true
  | TRemove _ :: ops' => forallb (λ o, negb (is_update o)) ops'
  | _ :: ops' => no_update_after_remove ops'
  end.

(** Whether an operation assigns the primary-key column: an update one of
    whose column names [column_index] resolves to it. *)
Definition assigns_key (columns : list ColumnDef) (pk : nat) (o : table_op) : bool :=
  match o with
  | TUpdate updates _ =>
      bool_decide (map_Exists (λ n _, column_index_from 0 columns n = Some pk) updates)
  | _ => false
  end.

Fixpoint no_key_update_after_remove (columns : list ColumnDef) (pk : nat)
    (ops : list table_op) : bool :=
  match ops with
  | [] => true
  | TRemove _ :: ops' => forallb (λ o, negb (assigns_key columns pk o)) ops'
  | _ :: ops' => no_key_update_after_remove columns pk ops'
  end.

(** The primary-key column of a table that gets an index: the first column
    declared [primary_key], if its type is Int or Text. *)
Definition indexed_pk (columns : list ColumnDef) : option (nat * ColumnDef) :=
  pk ← first_primary_key 0 columns;
  col ← columns !! pk;
  if bool_decide (type col = Int ∨ type col = Text) then Some (pk, col) else None.

(** What the rows hold in the primary-key column. *)
Definition pk_values (t : Table) (pk : nat) : list (option DBValue) :=
  (λ row : Row, row !! pk) <$> rows_ t.

Definition pk_unique (t : Table) : Prop :=
  ∀ pk, primary_key_index_ t = Some pk → NoDup (pk_values t pk).

(** A value that can be a key of the index of a column of type [ty]. *)
Definition key_ok (ty : ColumnType) (v : DBValue) : Prop :=
  match ty, v with
  | Int, DBInt _ | Text, DBText _ => True
  | _, _ => False
  end.

(** [f] is what the index of the table maps the key values to. *)
Definition index_view (t : Table) (pk : nat) (col : ColumnDef)
    (f : DBValue → option nat) : Prop :=
  primary_key_index_ t = Some pk ∧ columns_ t !! pk = Some col ∧
  primary_key col = true ∧
  match type col with
  | Int => ∃ ix kvs, int_index_ t = Some ix ∧ wf ix kvs ∧
                     ∀ z, f (DBInt z) = get z kvs
  | Text => ∃ ix kvs, text_index_ t = Some ix ∧ wf ix kvs ∧
                      ∀ z, f (DBText z) = get z kvs
  | _ => False
  end.

(** The state of a table with an index.  Every row has a key in the
    primary-key column, and no two rows have the same.  The index is
    [strict] when it maps the key of every row to the position of the row;
    otherwise it only has an entry for the key of every row. *)
Definition row_indexed (strict : bool) (t : Table) (pk : nat) (col : ColumnDef)
    (f : DBValue → option nat) (i : nat) (row : Row) : Prop :=
  length row = length (columns_ t) ∧
  ∃ v, row !! pk = Some v ∧ key_ok (type col) v ∧
       if strict then f v = Some i else is_Some (f v).

Definition table_inv (strict : bool) (t : Table) (pk : nat) (col : ColumnDef)
    : Prop :=
  ∃ f, index_view t pk col f ∧
       (∀ i row, rows_ t !! i = Some row → row_indexed strict t pk col f i row) ∧
       NoDup (pk_values t pk).

End db_spec.

(** ** Example data *)

Section examples.
Import db.

(** Keys with the values a function gives them. *)
Definition with_values {Value} (f : Z → Value) (ks : list Z) : list (Z * Value) :=
  (λ k, (k, f k)) <$> ks.

Definition users_columns : list ColumnDef :=
  [mkColumnDef "id" Int true false; mkColumnDef "name" Text false false].

Definition users : Table := new_Table "users" users_columns.

Definition ada : Row := [DBInt 1; DBText "Ada"].
Definition linus : Row := [DBInt 2; DBText "Linus"].
Definition guido : Row := [DBInt 3; DBText "Guido"].

Definition id_is (i : Z) : Condition := mkCondition "id" "=" (DBInt i).

(** A legacy table of one column that accepts every value, and a database
    that holds it. *)
Definition accounts : @txn.Table Z () () := txn.mkTable "accounts" [()] [] ∅.
Definition bank : @txn.Database Z () () := txn.mkDatabase {["accounts" := accounts]}.

Definition txn_insert :=
  @txn.insert_into Z () () (λ _ _, true) (λ _, "amount") (λ _, 0) (λ ix _ _, ix).

End examples.

(** ** Range scans and the occupancy of nodes *)

Section bpt_occupancy.
Import BPlusTree.
Context {Key Value : Type} {Kops : KeyOps Key}.
Local Abbreviation store := (list (@Node Key Value)) (only parsing).
Implicit Types (h : store) (a b c : addr) (k : Key) (v : Value).
Implicit Types (ks : list Key) (vs : list Value) (cs fp : list addr).
Implicit Types (kvs : list (Key * Value)) (lo hi : option Key).

(** The entries a range scan from [start] to [stop] is to visit. *)
Definition in_range (start stop : Key) (kv : Key * Value) : bool :=
  key_le start kv.1 && key_le kv.1 stop.

(** The second half of [LeafNode::range_scan]: what follows the loop over
    the leaf, given the [next] link. *)
Definition scan_next (fuel : nat) h (nxt : option addr) (start stop : Key)
    : result (list (Key * Value)) :=
  match nxt with
  | None => Ret []
  | Some b =>
      match h !! b with
      | Some (LeafNode (front :: _) _ _) =>
          if key_ge stop front then LeafNode_range_scan fuel h b start stop
          else Ret []
      | _ => Undefined
      end
  end.

(** How full the nodes are.  A leaf holds between [fill] and [Order]
    entries, an internal node at most [Order] keys and one child more than
    keys. *)
Definition node_ok (Order fill : nat) (nd : @Node Key Value) : Prop :=
  match nd with
  | LeafNode ks vs _ => length vs = length ks ∧ fill ≤ length ks ≤ Order
  | InternalNode ks cs => length cs = S (length ks) ∧ length ks ≤ Order
  end.


(** Removals can empty a leaf; insertions never leave one empty, unless it
    is the only node. *)
Definition leaves_nonempty h : Prop :=
  ∀ a ks vs nx, h !! a = Some (LeafNode ks vs nx) → 1 < length h → ks ≠ [].

Definition is_remove_op (o : @op Key Value) : bool :=
  match o with OpRemove _ => true | _ => false end.

(** The leftmost leaf of a subtree holds the first entries of the subtree. *)
Definition first_leaf h (first : addr) kvs : Prop :=
  ∃ ks vs nx kvs', h !! first = Some (LeafNode ks vs nx) ∧
                   length vs = length ks ∧ kvs = zip ks vs ++ kvs'.

(** The least number of entries of a leaf: none if the leaf is the only
    node, or if [fill = 0]. *)
Definition fill_of (fill : nat) (h : store) : nat :=
  if decide (length h = 1) then 0 else fill.

Definition store_ok (Order fill : nat) (h : store) : Prop :=
  Forall (node_ok Order (fill_of fill h)) h.

(** A leaf that is the only node of the tree may hold fewer entries than
    half of [Order], and so may any leaf once entries were removed. *)
Definition min_fill (Order : nat) (removed : bool) (h : store) : nat :=
  if removed then 0 else fill_of ((Order + 1) / 2) h.

End bpt_occupancy.

(** ** What every table satisfies *)

Section db_safety_spec.
Import db.

(** A value a column can hold: Null, or a value of the type of the column;
    a value [insert_row] admits to a column: in addition not Null if the
    column is declared NOT NULL. *)
Definition value_fits (col : ColumnDef) (v : DBValue) : Prop :=
  is_null v = true ∨ value_type v = type col.

Definition value_admitted (col : ColumnDef) (v : DBValue) : Prop :=
  (not_null col = true → is_null v = false) ∧ value_fits col v.

Definition row_fits (columns : list ColumnDef) (row : Row) : Prop :=
  Forall2 value_fits columns row.

Definition row_admitted (columns : list ColumnDef) (row : Row) : Prop :=
  Forall2 value_admitted columns row.

(** The index that the primary-key column calls for exists and is a
    well-formed tree. *)
Definition index_ok (t : Table) : Prop :=
  match primary_key_index_ t with
  | None => True
  | Some pk =>
      ∃ col, columns_ t !! pk = Some col ∧ primary_key col = true ∧
             (type col = Int → ∃ ix kvs, int_index_ t = Some ix ∧ wf ix kvs) ∧
             (type col = Text → ∃ ix kvs, text_index_ t = Some ix ∧ wf ix kvs)
  end.

Definition table_ok (t : Table) : Prop :=
  index_ok t ∧ Forall (row_fits (columns_ t)) (rows_ t).

(** The index is exact when, in addition to mapping the key of every row
    to the position of the row, it has no other entries. *)
Definition table_exact (t : Table) (pk : nat) (col : ColumnDef) : Prop :=
  ∃ f, index_view t pk col f ∧
       (∀ i row, rows_ t !! i = Some row → row_indexed true t pk col f i row) ∧
       (∀ v i, key_ok (type col) v → f v = Some i →
               ∃ row, rows_ t !! i = Some row ∧ row !! pk = Some v).

(** Operations that keep the index exact: insertions, and updates that do
    not assign the key column. *)
Definition keeps_key (key_column : string) (o : table_op) : bool :=
  match o with
  | TInsert _ => true
  | TUpdate updates _ => bool_decide (updates !! key_column = None)
  | TRemove _ => false
  end.

(** A table whose primary key is neither an integer nor a text (or that has
    no primary key) has no index. *)
Definition no_index (t : Table) : Prop :=
  match primary_key_index_ t with
  | None => True
  | Some pk => ∃ col, columns_ t !! pk = Some col ∧ type col ≠ Int ∧ type col ≠ Text
  end.

End db_safety_spec.

(** ** Sequences of operations on a database *)

Section database_spec.
Import db.

Inductive database_op : Type :=
  | DCreate (n : string) (columns : list ColumnDef)
  | DDrop (n : string).

Definition run_database_op (d : Database) (o : database_op) : Database :=
  match o with
  | DCreate n columns => (create_table d n columns).1
  | DDrop n => (drop_table d n).1
  end.

Definition run_database_ops (d : Database) (ops : list database_op) : Database :=
  foldl run_database_op d ops.

End database_spec.

(** ** Sequences of operations on the transaction manager *)

Section txn_spec.
Import txn.
Context {Value Column Index : Type}.

(** What can happen to the transaction manager: the three operations of
    its interface, and the capture of the rows of a table by one of the
    operations of [Table]. *)
Inductive manager_op : Type :=
  | MBegin
  | MCommit (id : N)
  | MAbort (id : N)
  | MCapture (t : @Table Value Column Index) (id : N).

Definition run_manager_op (tm : @TransactionManager Value) (o : manager_op)
    : TransactionManager :=
  match o with
  | MBegin => (begin_transaction tm).1
  | MCommit id => (commit_transaction tm id).1
  | MAbort id => (abort_transaction tm id).1
  | MCapture t id => (store_original_state tm t id).1
  end.

Definition run_manager_ops (tm : @TransactionManager Value) (ops : list manager_op)
    : TransactionManager :=
  foldl run_manager_op tm ops.

Definition is_begin (o : manager_op) : bool :=
  match o with MBegin => true | _ => false end.

Definition begins (ops : list manager_op) : N :=
  N.of_nat (length (filter (λ o, is_begin o = true) ops)).

(** The invariant of the manager while the counter has not wrapped
    around. *)
Definition manager_inv (tm : @TransactionManager Value) (count : N) : Prop :=
  next_transaction_id_ tm = (1 + count)%N ∧
  ∀ id tx, transactions_ tm !! id = Some tx →
           id_ tx = id ∧ state_ tx = ACTIVE ∧ (0 < id < next_transaction_id_ tm)%N.


End txn_spec.

(** ** The tokens of the parser *)

Section parser_spec.
Import Stdlib.Strings.Ascii parser.

(** The characters a word is made of. *)
Definition is_plain (c : ascii) : bool :=
  negb (is_quote c || isspace c || is_special c || is_operator c).

(** A quoted string with its quotes; the closing one is missing if the
    input ended within the string. *)
Definition is_string (closed : bool) (token : list ascii) : Prop :=
  ∃ q body, is_quote q = true ∧ (q ∉ body) ∧
            token = q :: body ++ (if closed then [q] else []).

(** The four kinds of token: a quoted string, one of [, ( ) ;], a
    comparison operator of one or two characters, and a word. *)
Definition is_token (token : list ascii) : Prop :=
  is_string true token ∨
  (∃ c, is_special c = true ∧ token = [c]) ∨
  (∃ c, is_operator c = true ∧
        (token = [c] ∨ token = [c; "="%char] ∨ (c = "<"%char ∧ token = [c; ">"%char]))) ∨
  (token ≠ [] ∧ Forall (λ c, is_plain c = true) token).

(** The tokens [tokenize] can return: only the last can be a string that
    is not closed. *)
Definition are_tokens (tokens : list (list ascii)) : Prop :=
  ∃ complete, Forall is_token complete ∧
              (tokens = complete ∨
               ∃ last, is_string false last ∧ tokens = complete ++ [last]).

(** The tokens with one blank between them. *)
Fixpoint join (tokens : list (list ascii)) : list ascii :=
  match tokens with
  | [] => []
  | token :: tokens' =>
      match tokens' with
      | [] => token
      | _ => token ++ " "%char :: join tokens'
      end
  end.

End parser_spec.

(** ** More example data *)

Section more_examples.
Import db.

Definition id_column : ColumnDef := mkColumnDef "id" Int true false.

(** A table whose primary key is a floating-point number, and so has no
    index. *)
Definition readings_columns : list ColumnDef :=
  [mkColumnDef "at" Float true true; mkColumnDef "note" Text false false].

Definition rename (i : Z) (s : string) : table_op :=
  TUpdate {["name" := DBText s]} [id_is i].




End more_examples.

Section parser_examples.
Import Stdlib.Strings.Ascii parser.

Definition chars_of (s : string) : list ascii := String.list_ascii_of_string s.

Definition query : list ascii :=
  chars_of "SELECT * FROM users WHERE name='Ada L' AND id>=7;".

Definition query_tokens : list (list ascii) :=
  chars_of <$> ["SELECT"; "*"; "FROM"; "users"; "WHERE"; "name"; "="; "'Ada L'";
                "AND"; "id"; ">="; "7"; ";"].

(** A word with two characters above 127. *)
Definition cafe : list ascii := chars_of "caf" ++ [ascii_of_nat 195; ascii_of_nat 169].

End parser_examples.

(** * Part III: proofs *)

Global Instance Z_KeyOrd : KeyOrd Z.
Proof.
  split; simpl.
  - intros a. apply Z.ltb_irrefl.
  - intros a b c ?%Z.ltb_lt ?%Z.ltb_lt. apply Z.ltb_lt. lia.
  - intros a b ?%Z.ltb_ge ?%Z.ltb_ge. lia.
Qed.

Section bpt_lemmas.
Import BPlusTree.
Context {Key Value : Type} {Kops : KeyOps Key} {Kord : KeyOrd Key}.
Local Abbreviation store := (list (@Node Key Value)) (only parsing).
Implicit Types (h : store) (a b c : addr) (k : Key) (v : Value).
Implicit Types (ks : list Key) (vs : list Value) (cs fp : list addr).
Implicit Types (kvs : list (Key * Value)) (lo hi : option Key).

Lemma key_lt_asym x y : key_lt x y = true → key_lt y x = false.
Proof.
  intros Hxy. destruct (key_lt y x) eqn:Hyx; [|done].
  by rewrite <-(key_lt_irrefl x), <-(key_lt_trans _ _ _ Hxy Hyx).
Qed.

Lemma key_lt_le_trans x y z :
  key_lt x y = true → key_lt z y = false → key_lt x z = true.
Proof.
  intros Hxy Hzy. destruct (key_lt x z) eqn:Hxz; [done|].
  destruct (key_lt z x) eqn:Hzx.
  - by rewrite (key_lt_trans _ _ _ Hzx Hxy) in Hzy.
  - rewrite (key_lt_total _ _ Hxz Hzx) in Hxy. congruence.
Qed.

Lemma key_le_lt_trans x y z :
  key_lt y x = false → key_lt y z = true → key_lt x z = true.
Proof.
  intros Hyx Hyz. destruct (key_lt x z) eqn:Hxz; [done|].
  destruct (key_lt z x) eqn:Hzx.
  - by rewrite (key_lt_trans _ _ _ Hyz Hzx) in Hyx.
  - rewrite (key_lt_total _ _ Hxz Hzx) in Hyx. congruence.
Qed.

Lemma key_le_trans x y z :
  key_lt y x = false → key_lt z y = false → key_lt z x = false.
Proof.
  intros Hyx Hzy. destruct (key_lt z x) eqn:Hzx; [|done].
  by rewrite (key_lt_le_trans _ _ _ Hzx Hyx) in Hzy.
Qed.

Lemma ins_app_l kvs1 kvs2 k v :
  Forall (λ kv, key_lt kv.1 k = true) kvs1 →
  ins k v (kvs1 ++ kvs2) = kvs1 ++ ins k v kvs2.
Proof.
  induction 1 as [|[k' v'] ? Hk ? IH]; simpl in *; [done|].
  by rewrite Hk, IH.
Qed.

Lemma ins_app_r kvs1 kvs2 k v :
  Forall (λ kv, key_lt k kv.1 = true) kvs2 →
  ins k v (kvs1 ++ kvs2) = ins k v kvs1 ++ kvs2.
Proof.
  intros H2. induction kvs1 as [|[k' v'] ? IH]; simpl.
  - destruct H2 as [|[k' v'] ? Hk ?]; simpl in *; [done|].
    rewrite (key_lt_asym _ _ Hk). case_decide; [|done].
    subst. by rewrite key_lt_irrefl in Hk.
  - rewrite IH. by repeat case_match.
Qed.

Lemma del_app_l kvs1 kvs2 k :
  Forall (λ kv, key_lt kv.1 k = true) kvs1 →
  del k (kvs1 ++ kvs2) = kvs1 ++ del k kvs2.
Proof.
  induction 1 as [|[k' v'] ? Hk ? IH]; simpl in *; [done|].
  by rewrite Hk, IH.
Qed.

Lemma del_app_r kvs1 kvs2 k :
  Forall (λ kv, key_lt k kv.1 = true) kvs2 →
  del k (kvs1 ++ kvs2) = del k kvs1 ++ kvs2.
Proof.
  intros H2. induction kvs1 as [|[k' v'] ? IH]; simpl.
  - destruct H2 as [|[k' v'] ? Hk ?]; simpl in *; [done|].
    rewrite (key_lt_asym _ _ Hk). case_decide; [|done].
    subst. by rewrite key_lt_irrefl in Hk.
  - rewrite IH. by repeat case_match.
Qed.

Lemma get_app_l kvs1 kvs2 k :
  Forall (λ kv, key_lt kv.1 k = true) kvs1 →
  get k (kvs1 ++ kvs2) = get k kvs2.
Proof.
  induction 1 as [|[k' v'] ? Hk ? IH]; simpl in *; [done|]. by rewrite Hk.
Qed.

Lemma get_app_r kvs1 kvs2 k :
  Forall (λ kv, key_lt k kv.1 = true) kvs2 →
  get k (kvs1 ++ kvs2) = get k kvs1.
Proof.
  intros H2. induction kvs1 as [|[k' v'] ? IH]; simpl.
  - destruct H2 as [|[k' v'] ? Hk ?]; simpl in *; [done|].
    rewrite (key_lt_asym _ _ Hk). case_decide; [|done].
    subst. by rewrite key_lt_irrefl in Hk.
  - rewrite IH. by repeat case_match.
Qed.

Lemma upd_app kvs1 kvs2 kvs3 k v :
  Forall (λ kv, key_lt kv.1 k = true) kvs1 →
  Forall (λ kv, key_lt k kv.1 = true) kvs3 →
  upd k v (kvs1 ++ kvs2 ++ kvs3) = kvs1 ++ upd k v kvs2 ++ kvs3.
Proof.
  intros H1 H3. unfold upd.
  rewrite get_app_l, get_app_r by done.
  destruct (get k kvs2); [|done]. by rewrite ins_app_l, ins_app_r.
Qed.

(** What [get] returns after each of the operations. *)
Lemma key_lt_ne x y : key_lt y x = false → x ≠ y → key_lt x y = true.
Proof.
  intros Hyx Hne. destruct (key_lt x y) eqn:Hxy; [done|].
  by destruct Hne; apply key_lt_total.
Qed.

Lemma get_ins kvs k v k' :
  get k' (ins k v kvs) = if decide (k' = k) then Some v else get k' kvs.
Proof.
  induction kvs as [|[k0 v0] kvs IH]; simpl.
  - destruct (decide (k' = k)) as [->|Hne].
    + by rewrite key_lt_irrefl, decide_True.
    + destruct (key_lt k k'); [done|]. by rewrite decide_False by congruence.
  - destruct (decide (k' = k)) as [->|Hne].
    + destruct (key_lt k0 k) eqn:H0k; simpl.
      * by rewrite H0k, IH.
      * case_decide; simpl; by rewrite key_lt_irrefl, decide_True.
    + destruct (key_lt k0 k) eqn:H0k; simpl.
      * by rewrite IH.
      * destruct (decide (k0 = k)) as [->|H0]; simpl.
        -- destruct (key_lt k k'); [done|]. by rewrite !decide_False by congruence.
        -- destruct (key_lt k k') eqn:Hkk'; [done|].
           rewrite decide_False by congruence.
           pose proof (key_lt_ne _ _ Hkk' Hne) as Hk'k.
           pose proof (key_lt_le_trans _ _ _ Hk'k H0k) as Hk'0.
           rewrite (key_lt_asym _ _ Hk'0). case_decide; [|done].
           subst. by rewrite key_lt_irrefl in Hk'0.
Qed.

Lemma get_above kvs k0 k :
  Forall (λ kv, key_lt k0 kv.1 = true) kvs → key_lt k0 k = false →
  get k kvs = None.
Proof.
  intros Hall Hk. destruct Hall as [|[k1 v1] kvs Hk1 _]; simpl in *; [done|].
  pose proof (key_le_lt_trans _ _ _ Hk Hk1) as Hlt.
  rewrite (key_lt_asym _ _ Hlt), decide_False; [done|].
  intros ->. by rewrite key_lt_irrefl in Hlt.
Qed.

Lemma get_del kvs k k' :
  sorted kvs.*1 →
  get k' (del k kvs) = if decide (k' = k) then None else get k' kvs.
Proof.
  induction kvs as [|[k0 v0] kvs IH]; simpl; intros Hs.
  - by case_decide.
  - apply StronglySorted_inv in Hs as [Hs Hall].
    rewrite Forall_fmap in Hall. specialize (IH Hs).
    destruct (decide (k' = k)) as [->|Hne].
    + destruct (key_lt k0 k) eqn:H0k; simpl.
      * by rewrite H0k, IH.
      * case_decide; simpl; [by eapply get_above|].
        by rewrite H0k, decide_False.
    + destruct (key_lt k0 k) eqn:H0k; simpl.
      * by rewrite IH.
      * destruct (decide (k0 = k)) as [->|H0]; simpl; [|done].
        destruct (key_lt k k') eqn:Hkk'; [done|].
        rewrite decide_False by congruence. by eapply get_above.
Qed.

Lemma sorted_ins kvs k v : sorted kvs.*1 → sorted (ins k v kvs).*1.
Proof.
  induction kvs as [|[k0 v0] kvs IH]; simpl; intros Hs.
  - repeat constructor.
  - apply StronglySorted_inv in Hs as [Hs Hall]. specialize (IH Hs).
    destruct (key_lt k0 k) eqn:H0k; simpl.
    + constructor; [done|]. rewrite Forall_fmap in Hall |- *.
      clear -Hall H0k. induction Hall as [|[k1 v1] ? ? ? IH]; simpl in *.
      * by repeat constructor.
      * repeat case_match; repeat constructor; simpl; auto.
    + case_decide; subst; simpl; [by constructor|].
      pose proof (key_lt_ne k k0 H0k ltac:(congruence)) as Hlt.
      constructor; [by constructor|]. constructor; [done|].
      eapply Forall_impl; [exact Hall|]. intros x ?. by eapply key_lt_trans.
Qed.

Lemma sorted_del kvs k : sorted kvs.*1 → sorted (del k kvs).*1.
Proof.
  induction kvs as [|[k0 v0] kvs IH]; simpl; intros Hs; [done|].
  apply StronglySorted_inv in Hs as [Hs Hall]. specialize (IH Hs).
  destruct (key_lt k0 k) eqn:H0k; simpl.
  - constructor; [done|]. rewrite Forall_fmap in Hall |- *.
    clear -Hall. induction Hall as [|[k1 v1] ? ? ? IH]; simpl in *; [done|].
    repeat case_match; repeat constructor; simpl; auto.
  - case_decide; simpl; [done|]. by constructor.
Qed.

Lemma Forall_ins (P : Key → Prop) kvs k v :
  P k → Forall P kvs.*1 → Forall P (ins k v kvs).*1.
Proof.
  intros Hk. induction kvs as [|[k0 v0] kvs IH]; simpl; intros Hall.
  - by repeat constructor.
  - apply Forall_cons_1 in Hall as [??].
    repeat case_match; simpl; repeat constructor; auto.
Qed.

Lemma Forall_del (P : Key → Prop) kvs k :
  Forall P kvs.*1 → Forall P (del k kvs).*1.
Proof.
  induction kvs as [|[k0 v0] kvs IH]; simpl; intros Hall; [done|].
  apply Forall_cons_1 in Hall as [??].
  repeat case_match; simpl; repeat constructor; auto.
Qed.

(** *** One leaf *)

Lemma lower_bound_le ks k : lower_bound ks k ≤ length ks.
Proof. induction ks; simpl; [done|]. case_match; lia. Qed.

Lemma upper_bound_le ks k : upper_bound ks k ≤ length ks.
Proof. induction ks; simpl; [done|]. case_match; lia. Qed.

Lemma insert_at_S {A} i (x y : A) l :
  insert_at (S i) x (y :: l) = y :: insert_at i x l.
Proof. done. Qed.

Lemma length_insert_at {A} i (x : A) l :
  length (insert_at i x l) = S (length l).
Proof.
  unfold insert_at. rewrite length_app, length_cons, length_take, length_drop. lia.
Qed.

Lemma leaf_found_ins ks vs k v :
  length vs = length ks → key_at ks (lower_bound ks k) k = true →
  lower_bound ks k < length vs ∧
  zip ks (<[lower_bound ks k := v]> vs) = ins k v (zip ks vs).
Proof.
  unfold key_at. revert vs.
  induction ks as [|k0 ks IH]; intros [|v0 vs] Hlen Hat;
    simplify_eq/=; try by apply bool_decide_eq_true in Hat.
  destruct (key_lt k0 k) eqn:H0k; simpl in *.
  - destruct (IH vs) as [? ->]; [done..|]. split; [lia|done].
  - apply bool_decide_eq_true in Hat. simplify_eq.
    rewrite decide_True by done. split; [lia|done].
Qed.

Lemma leaf_new_ins ks vs k v :
  length vs = length ks → key_at ks (lower_bound ks k) k = false →
  zip (insert_at (lower_bound ks k) k ks) (insert_at (lower_bound ks k) v vs)
  = ins k v (zip ks vs).
Proof.
  unfold key_at. revert vs.
  induction ks as [|k0 ks IH]; intros [|v0 vs] Hlen Hat; simplify_eq/=; [done|].
  destruct (key_lt k0 k) eqn:H0k; simpl in *.
  - f_equal. by apply IH.
  - apply bool_decide_eq_false in Hat.
    rewrite decide_False by congruence. done.
Qed.

Lemma leaf_find ks vs k :
  length vs = length ks → LeafNode_find ks vs k = Ret (get k (zip ks vs)).
Proof.
  unfold LeafNode_find, key_at. revert vs.
  induction ks as [|k0 ks IH]; intros [|v0 vs] Hlen; simplify_eq/=; [done|].
  destruct (key_lt k0 k) eqn:H0k; simpl in *; [by apply IH|].
  destruct (decide (k0 = k)) as [->|Hne]; [by rewrite bool_decide_eq_true_2|].
  by rewrite bool_decide_eq_false_2 by congruence.
Qed.

Lemma leaf_found_del ks vs k :
  length vs = length ks → key_at ks (lower_bound ks k) k = true →
  lower_bound ks k < length vs ∧
  zip (erase_at (lower_bound ks k) ks) (erase_at (lower_bound ks k) vs)
  = del k (zip ks vs).
Proof.
  unfold key_at. revert vs.
  induction ks as [|k0 ks IH]; intros [|v0 vs] Hlen Hat;
    simplify_eq/=; try by apply bool_decide_eq_true in Hat.
  destruct (key_lt k0 k) eqn:H0k; simpl in *.
  - destruct (IH vs) as [? <-]; [done..|]. split; [lia|done].
  - apply bool_decide_eq_true in Hat. simplify_eq.
    rewrite decide_True by done. split; [lia|]. unfold erase_at. simpl.
    by rewrite !drop_0.
Qed.

Lemma leaf_absent ks vs k :
  length vs = length ks → key_at ks (lower_bound ks k) k = false →
  get k (zip ks vs) = None ∧ del k (zip ks vs) = zip ks vs.
Proof.
  unfold key_at. revert vs.
  induction ks as [|k0 ks IH]; intros [|v0 vs] Hlen Hat; simplify_eq/=; [done|].
  destruct (key_lt k0 k) eqn:H0k; simpl in *.
  - destruct (IH vs) as [-> ->]; done.
  - apply bool_decide_eq_false in Hat.
    rewrite !decide_False by congruence. done.
Qed.

Lemma leaf_found_get ks vs k :
  length vs = length ks → key_at ks (lower_bound ks k) k = true →
  is_Some (get k (zip ks vs)).
Proof.
  unfold key_at. revert vs.
  induction ks as [|k0 ks IH]; intros [|v0 vs] Hlen Hat;
    simplify_eq/=; try by apply bool_decide_eq_true in Hat.
  destruct (key_lt k0 k) eqn:H0k; simpl in *; [by apply IH|].
  apply bool_decide_eq_true in Hat. simplify_eq. by rewrite decide_True.
Qed.

(** Cutting a sorted run of keys in two at its [mid]-th key. *)
Lemma sorted_cut ks mid front :
  sorted ks → head (drop mid ks) = Some front →
  sorted (take mid ks) ∧ sorted (drop mid ks) ∧
  Forall (λ x, key_lt x front = true) (take mid ks) ∧
  Forall (λ x, key_lt x front = false) (drop mid ks).
Proof.
  intros Hs Hfront. rewrite <-(take_drop mid ks) in Hs.
  apply StronglySorted_app in Hs as (Hlt & Hs1 & Hs2).
  destruct (drop mid ks) as [|x rest] eqn:Hd; simplify_eq/=.
  split_and!; [done..| |].
  - apply Forall_forall. intros x Hx. apply Hlt; [done|]. by left.
  - constructor; [apply key_lt_irrefl|].
    apply StronglySorted_inv in Hs2 as [_ Hall].
    eapply Forall_impl; [exact Hall|]. intros x. apply key_lt_asym.
Qed.

Lemma within_weaken_hi lo hi k x :
  within lo (Some k) x → hi_le hi k → within lo hi x.
Proof.
  intros [? Hx] Hk. split; [done|]. destruct hi; simpl in *; [|done].
  by eapply key_lt_le_trans.
Qed.

Lemma within_weaken_lo lo hi k x :
  within (Some k) hi x → lo_ok lo k → within lo hi x.
Proof.
  intros [Hx ?] Hk. split; [|done]. destruct lo; simpl in *; [|done].
  by eapply key_le_trans.
Qed.

Lemma forest_impl T T' cs ks lo hi first nxt fp kvs :
  forest T cs ks lo hi first nxt fp kvs →
  (∀ c lo hi first nxt fp' kvs,
     T c lo hi first nxt fp' kvs → (∀ b, b ∈ fp' → b ∈ fp) →
     T' c lo hi first nxt fp' kvs) →
  forest T' cs ks lo hi first nxt fp kvs.
Proof.
  induction 1 as [|????????????? HT Hf IH Hdisj Hk]; intros Himpl.
  - constructor. by apply Himpl.
  - econstructor; [|apply IH|done..].
    + apply Himpl; [done|]. intros b ?. apply elem_of_app. by left.
    + intros ???????? Hsub. apply Himpl; [done|].
      intros b ?. apply elem_of_app. right. by apply Hsub.
Qed.

Lemma forest_length T cs ks lo hi first nxt fp kvs :
  forest T cs ks lo hi first nxt fp kvs → length cs = S (length ks).
Proof. induction 1; simpl; auto. Qed.

Lemma forest_bounds T cs ks lo hi first nxt fp kvs :
  (∀ c lo hi first nxt fp kvs,
     T c lo hi first nxt fp kvs → Forall (within lo hi) kvs.*1) →
  forest T cs ks lo hi first nxt fp kvs →
  Forall (within lo hi) kvs.*1.
Proof.
  intros HT. induction 1 as [|????????????? H1 Hf IH Hdisj [??]]; [by eapply HT|].
  rewrite fmap_app. apply Forall_app. split.
  - eapply Forall_impl; [by eapply HT|]. intros ? Hx.
    eapply within_weaken_hi; [exact Hx|done].
  - eapply Forall_impl; [exact IH|]. intros ? Hx.
    eapply within_weaken_lo; [exact Hx|done].
Qed.

Lemma tree_at_bounds h n a lo hi first nxt fp kvs :
  tree_at h n a lo hi first nxt fp kvs → Forall (within lo hi) kvs.*1.
Proof.
  revert a lo hi first nxt fp kvs. induction n as [|n IH]; simpl.
  - intros ??????? (ks & vs & _ & Hlen & _ & Hall & _ & _ & ->).
    by rewrite fst_zip by lia.
  - intros ??????? (ks & cs & fp' & _ & Hf & _). by eapply forest_bounds.
Qed.

Lemma forest_sorted T cs ks lo hi first nxt fp kvs :
  (∀ c lo hi first nxt fp kvs,
     T c lo hi first nxt fp kvs →
     Forall (within lo hi) kvs.*1 ∧ sorted kvs.*1) →
  forest T cs ks lo hi first nxt fp kvs → sorted kvs.*1.
Proof.
  intros HT. induction 1 as [|????????????? H1 Hf IH Hdisj [??]]; [by eapply HT|].
  rewrite fmap_app. apply StronglySorted_app_2; [|by eapply HT|done].
  intros x1 x2 Hx1 Hx2.
  apply HT in H1 as [H1 _]. rewrite Forall_forall in H1.
  apply H1 in Hx1 as [_ Hk1].
  eapply forest_bounds in Hf; [|intros; by eapply HT].
  rewrite Forall_forall in Hf. apply Hf in Hx2 as [Hk2 _]; simpl in *.
  by eapply key_lt_le_trans.
Qed.

Lemma tree_at_sorted h n a lo hi first nxt fp kvs :
  tree_at h n a lo hi first nxt fp kvs → sorted kvs.*1.
Proof.
  revert a lo hi first nxt fp kvs. induction n as [|n IH]; simpl.
  - intros ??????? (ks & vs & _ & Hlen & ? & _ & _ & _ & ->).
    by rewrite fst_zip by lia.
  - intros ??????? (ks & cs & fp' & _ & Hf & _).
    eapply forest_sorted; [|done]. intros. split; [by eapply tree_at_bounds|].
    by eapply IH.
Qed.

Lemma forest_footprint T (P : addr → Prop) cs ks lo hi first nxt fp kvs :
  (∀ c lo hi first nxt fp kvs, T c lo hi first nxt fp kvs → Forall P fp) →
  forest T cs ks lo hi first nxt fp kvs → Forall P fp.
Proof.
  intros HT. induction 1; [by eapply HT|].
  apply Forall_app. split; [by eapply HT|done].
Qed.

Lemma tree_at_valid h n a lo hi first nxt fp kvs :
  tree_at h n a lo hi first nxt fp kvs → Forall (λ b, b < length h) fp.
Proof.
  revert a lo hi first nxt fp kvs. induction n as [|n IH]; simpl.
  - intros ??????? (ks & vs & Ha%lookup_lt_Some & _ & _ & _ & _ & -> & _).
    by repeat constructor.
  - intros ??????? (ks & cs & fp' & Ha%lookup_lt_Some & Hf & _ & ->).
    constructor; [done|]. eapply forest_footprint; [|done]. apply IH.
Qed.

Lemma forest_NoDup T cs ks lo hi first nxt fp kvs :
  (∀ c lo hi first nxt fp kvs, T c lo hi first nxt fp kvs → NoDup fp) →
  forest T cs ks lo hi first nxt fp kvs → NoDup fp.
Proof.
  intros HT. induction 1; [by eapply HT|].
  apply NoDup_app. split_and!; [by eapply HT|done..].
Qed.

Lemma tree_at_NoDup h n a lo hi first nxt fp kvs :
  tree_at h n a lo hi first nxt fp kvs → NoDup fp.
Proof.
  revert a lo hi first nxt fp kvs. induction n as [|n IH]; simpl.
  - intros ??????? (ks & vs & _ & _ & _ & _ & _ & -> & _).
    apply NoDup_singleton.
  - intros ??????? (ks & cs & fp' & _ & Hf & ? & ->).
    apply NoDup_cons. split; [done|]. eapply forest_NoDup; [|done]. apply IH.
Qed.

Lemma forest_height T (m : nat) cs ks lo hi first nxt fp kvs :
  (∀ c lo hi first nxt fp kvs, T c lo hi first nxt fp kvs → m ≤ length fp) →
  forest T cs ks lo hi first nxt fp kvs → m ≤ length fp.
Proof.
  intros HT. induction 1 as [|????????????? H1 Hf IH Hdisj Hk]; [by eapply HT|].
  apply HT in H1. rewrite length_app. lia.
Qed.

Lemma tree_at_height h n a lo hi first nxt fp kvs :
  tree_at h n a lo hi first nxt fp kvs → S n ≤ length fp.
Proof.
  revert a lo hi first nxt fp kvs. induction n as [|n IH]; simpl.
  - intros ??????? (ks & vs & _ & _ & _ & _ & _ & -> & _). done.
  - intros ??????? (ks & cs & fp' & _ & Hf & ? & ->). simpl.
    apply le_n_S. eapply forest_height; [|done]. apply IH.
Qed.

(** The nodes of a tree are distinct nodes of the store. *)
Lemma footprint_length h fp :
  NoDup fp → Forall (λ b, b < length h) fp → length fp ≤ length h.
Proof.
  intros Hnd Hall.
  cut (length fp ≤ length (seq 0 (length h))); [by rewrite length_seq|].
  apply submseteq_length, NoDup_submseteq; [done|].
  intros x Hx. rewrite Forall_forall in Hall. apply elem_of_seq.
  specialize (Hall x Hx). lia.
Qed.

Lemma tree_at_fuel h n a lo hi first nxt fp kvs :
  tree_at h n a lo hi first nxt fp kvs → n < length h ∧ length fp ≤ length h.
Proof.
  intros Ht. pose proof (tree_at_height _ _ _ _ _ _ _ _ _ Ht).
  pose proof (footprint_length h fp (tree_at_NoDup _ _ _ _ _ _ _ _ _ Ht)
                (tree_at_valid _ _ _ _ _ _ _ _ _ Ht)). lia.
Qed.

(** A subtree only depends on the nodes in its footprint. *)
Lemma tree_at_frame h h' n a lo hi first nxt fp kvs :
  tree_at h n a lo hi first nxt fp kvs →
  (∀ b, b ∈ fp → h' !! b = h !! b) →
  tree_at h' n a lo hi first nxt fp kvs.
Proof.
  revert a lo hi first nxt fp kvs. induction n as [|n IH]; simpl.
  - intros ??????? (ks & vs & Ha & ? & ? & ? & ? & -> & ->) Hfr.
    exists ks, vs. rewrite Hfr by (by left). done.
  - intros ??????? (ks & cs & fp' & Ha & Hf & ? & ->) Hfr.
    exists ks, cs, fp'. rewrite Hfr by (by left). split_and!; [done| |done..].
    eapply forest_impl; [done|]. intros ??????? Ht Hsub. eapply IH; [done|].
    intros b Hb. apply Hfr. right. by apply Hsub.
Qed.

Lemma forest_framed T T' fpc cs ks lo hi first nxt fp kvs :
  framed T T' fpc →
  forest T cs ks lo hi first nxt fp kvs → (∀ b, b ∈ fp → b ∉ fpc) →
  forest T' cs ks lo hi first nxt fp kvs.
Proof.
  intros Hfr Hf Hdisj. eapply forest_impl; [done|].
  intros ??????? HT Hsub. apply Hfr; [done|]. intros b ?. by apply Hdisj, Hsub.
Qed.

Lemma below_of_within lo k0 k kvs :
  Forall (within lo (Some k0)) kvs.*1 → key_lt k k0 = false →
  Forall (λ kv, key_lt kv.1 k = true) kvs.
Proof.
  intros Hall Hk. rewrite Forall_fmap in Hall. eapply Forall_impl; [exact Hall|].
  intros [x ?] [_ Hx]; simpl in *. by eapply key_lt_le_trans.
Qed.

Lemma above_of_within hi k0 k kvs :
  Forall (within (Some k0) hi) kvs.*1 → key_lt k k0 = true →
  Forall (λ kv, key_lt k kv.1 = true) kvs.
Proof.
  intros Hall Hk. rewrite Forall_fmap in Hall. eapply Forall_impl; [exact Hall|].
  intros [x ?] [Hx _]; simpl in *. by eapply key_lt_le_trans.
Qed.

Lemma forest_focus T cs ks lo hi first nxt fp kvs k :
  (∀ c lo hi first nxt fp kvs,
     T c lo hi first nxt fp kvs → Forall (within lo hi) kvs.*1) →
  forest T cs ks lo hi first nxt fp kvs → within lo hi k →
  ∃ c lo' hi' first' nxt' fpL fpc fpR kvsL kvsc kvsR,
    cs !! upper_bound ks k = Some c ∧
    T c lo' hi' first' nxt' fpc kvsc ∧ within lo' hi' k ∧
    fp = fpL ++ fpc ++ fpR ∧ kvs = kvsL ++ kvsc ++ kvsR ∧
    Forall (λ kv, key_lt kv.1 k = true) kvsL ∧
    Forall (λ kv, key_lt k kv.1 = true) kvsR ∧
    (∀ T' fpc' kvsc',
       framed T T' fpc → T' c lo' hi' first' nxt' fpc' kvsc' →
       (∀ b, b ∈ fpc' → b ∉ fpL ++ fpR) →
       forest T' cs ks lo hi first nxt
         (fpL ++ fpc' ++ fpR) (kvsL ++ kvsc' ++ kvsR)) ∧
    (∀ T' sk sn m fp1 fp2 kvs1 kvs2,
       framed T T' fpc →
       T' c lo' (Some sk) first' (Some m) fp1 kvs1 →
       T' sn (Some sk) hi' m nxt' fp2 kvs2 →
       sep_ok lo' hi' sk →
       (∀ b, b ∈ fp1 → b ∉ fp2) →
       (∀ b, b ∈ fp1 ++ fp2 → b ∉ fpL ++ fpR) →
       forest T' (insert_at (S (upper_bound ks k)) sn cs)
         (insert_at (upper_bound ks k) sk ks) lo hi first nxt
         (fpL ++ (fp1 ++ fp2) ++ fpR) (kvsL ++ (kvs1 ++ kvs2) ++ kvsR)).
Proof.
  intros HT Hf. induction Hf as
    [c lo hi first nxt fp kvs Hc
    |c cs k0 ks lo hi first mid nxt fp1 fp2 kvs1 kvs2 Hc Hf IH Hdisj Hk0];
    intros Hk.
  - exists c, lo, hi, first, nxt, [], fp, [], [], kvs, []. simpl.
    rewrite !app_nil_r. split_and!; [done..| |].
    + intros T' fpc' kvsc' _ Hc' _. rewrite !app_nil_r. by constructor.
    + intros T' sk sn m fp1 fp2 kvs1 kvs2 _ H1 H2 Hsk Hd _.
      rewrite !app_nil_r. unfold insert_at; simpl.
      econstructor; [done|by constructor|done..].
  - simpl. destruct (key_lt k k0) eqn:Hkk0.
    + exists c, lo, (Some k0), first, (Some mid), [], fp1, fp2, [], kvs1, kvs2.
      simpl. split_and!; [done..|by destruct Hk|done|done|done| | |].
      * eapply above_of_within; [|done]. by eapply forest_bounds.
      * intros T' fpc' kvsc' Hfr Hc' Hd. econstructor; [done| |done..].
        eapply forest_framed; [done..|]. intros b Hb2 Hb1. by eapply Hdisj.
      * intros T' sk sn m fp1' fp2' kvs1' kvs2' Hfr H1 H2 [Hsk1 Hsk2] Hd Hd'.
        unfold insert_at; simpl. rewrite <-!app_assoc.
        destruct Hk0 as [Hk01 Hk02].
        econstructor; [done| | |].
        -- econstructor; [done| | |].
           ++ eapply forest_framed; [done..|]. intros b Hb2 Hb1. by eapply Hdisj.
           ++ intros b Hb. apply Hd'. apply elem_of_app. by right.
           ++ by split.
        -- intros b Hb [Hb2|Hb2]%elem_of_app; [by eapply Hd|].
           eapply Hd'; [|done]. apply elem_of_app. by left.
        -- split; [done|]. destruct hi; simpl in *; [|done].
           by eapply key_le_trans.
    + destruct IH as (c' & lo' & hi' & first' & nxt' & fpL & fpc & fpR &
        kvsL & kvsc & kvsR & Hlook & Hc' & Hk' & -> & -> & HL & HR & K1 & K2).
      { split; [done|by destruct Hk]. }
      exists c', lo', hi', first', nxt', (fp1 ++ fpL), fpc, fpR,
        (kvs1 ++ kvsL), kvsc, kvsR.
      rewrite <-!app_assoc. split_and!; [done..| | | |].
      * apply Forall_app. split; [|done]. eapply below_of_within; [|done].
        by eapply HT.
      * done.
      * intros T' fpc' kvsc' Hfr Hc'' Hd.
        assert (T' c lo (Some k0) first (Some mid) fp1 kvs1) as Hc1.
        { apply Hfr; [done|]. clear -Hdisj. set_solver. }
        assert (∀ b, b ∈ fpc' → b ∉ fpL ++ fpR) as Hd1.
        { clear -Hd. set_solver. }
        pose proof (K1 T' fpc' kvsc' Hfr Hc'' Hd1) as K.
        assert (∀ b, b ∈ fp1 → b ∉ fpL ++ fpc' ++ fpR) as Hd2.
        { clear -Hd Hdisj. set_solver. }
        pose proof (forest_cons T' _ _ _ _ _ _ _ _ _ _ _ _ _ Hc1 K Hd2 Hk0) as R.
        by rewrite <-!app_assoc.
      * intros T' sk sn m fp1' fp2' kvs1' kvs2' Hfr H1 H2 Hsk Hd Hd'.
        assert (T' c lo (Some k0) first (Some mid) fp1 kvs1) as Hc1.
        { apply Hfr; [done|]. clear -Hdisj. set_solver. }
        assert (∀ b, b ∈ fp1' ++ fp2' → b ∉ fpL ++ fpR) as Hd1.
        { clear -Hd'. set_solver. }
        pose proof (K2 T' sk sn m fp1' fp2' kvs1' kvs2' Hfr H1 H2 Hsk Hd Hd1) as K.
        assert (∀ b, b ∈ fp1 → b ∉ fpL ++ (fp1' ++ fp2') ++ fpR) as Hd2.
        { clear -Hd' Hdisj. set_solver. }
        pose proof (forest_cons T' _ _ _ _ _ _ _ _ _ _ _ _ _ Hc1 K Hd2 Hk0) as R.
        rewrite !insert_at_S. rewrite <-?app_assoc in R. rewrite <-?app_assoc.
        exact R.
Qed.

(** Cutting a forest at its [mid]-th separator, which moves up. *)
Lemma forest_cut T cs ks lo hi first nxt fp kvs mid m :
  forest T cs ks lo hi first nxt fp kvs → ks !! mid = Some m →
  ∃ f fpl fpr kvsl kvsr,
    forest T (take (S mid) cs) (take mid ks) lo (Some m) first (Some f) fpl kvsl ∧
    forest T (drop (S mid) cs) (drop (S mid) ks) (Some m) hi f nxt fpr kvsr ∧
    fp = fpl ++ fpr ∧ kvs = kvsl ++ kvsr ∧
    (∀ b, b ∈ fpl → b ∉ fpr) ∧ sep_ok lo hi m.
Proof.
  intros Hf. revert mid. induction Hf as
    [c lo hi first nxt fp kvs Hc
    |c cs k0 ks lo hi first f0 nxt fp1 fp2 kvs1 kvs2 Hc Hf IH Hdisj Hk0];
    intros [|mid] Hm; simplify_eq/=.
  - exists f0, fp1, fp2, kvs1, kvs2. rewrite !drop_0.
    split_and!; [by constructor|done..].
  - destruct (IH _ Hm) as (f & fpl & fpr & kvsl & kvsr & Hl & Hr & -> & -> & Hd & [Hm1 Hm2]).
    exists f, (fp1 ++ fpl), fpr, (kvs1 ++ kvsl), kvsr.
    rewrite !app_assoc. split_and!; [|done..| | ].
    + econstructor; [done..| |].
      * clear -Hdisj. set_solver.
      * destruct Hk0. by split.
    + clear -Hdisj Hd. set_solver.
    + destruct Hk0 as [Hk1 Hk2]. split; [|done].
      destruct lo; simpl in *; [|done]. by eapply key_le_trans.
Qed.

Lemma tree_at_rehome h h' n a lo hi first nxt fp kvs :
  tree_at h n a lo hi first nxt fp kvs →
  (∀ b, b < length h → b ∈ fp → h' !! b = h !! b) →
  tree_at h' n a lo hi first nxt fp kvs.
Proof.
  intros Ht Hfr. eapply tree_at_frame; [done|]. intros b Hb.
  apply Hfr; [|done]. apply tree_at_valid in Ht.
  rewrite Forall_forall in Ht. by apply Ht.
Qed.

Lemma forest_rehome h h' n cs ks lo hi first nxt fp kvs :
  forest (tree_at h n) cs ks lo hi first nxt fp kvs →
  (∀ b, b < length h → b ∈ fp → h' !! b = h !! b) →
  forest (tree_at h' n) cs ks lo hi first nxt fp kvs.
Proof.
  intros Hf Hfr. eapply forest_impl; [done|].
  intros ??????? Ht Hsub. eapply tree_at_rehome; [done|]. naive_solver.
Qed.

Lemma forest_valid h n cs ks lo hi first nxt fp kvs :
  forest (tree_at h n) cs ks lo hi first nxt fp kvs →
  Forall (λ b, b < length h) fp.
Proof. apply forest_footprint. intros. by eapply tree_at_valid. Qed.

(** *** find *)
Lemma Node_find_spec h n a lo hi first nxt fp kvs k fuel :
  tree_at h n a lo hi first nxt fp kvs → within lo hi k → n < fuel →
  Node_find fuel h a k = Ret (get k kvs).
Proof.
  revert a lo hi first nxt fp kvs fuel.
  induction n as [|n IH]; intros a lo hi first nxt fp kvs [|fuel] Ht Hk Hfuel;
    try lia; simpl in *.
  - destruct Ht as (ks & vs & -> & Hlen & _ & _ & _ & _ & ->).
    by apply leaf_find.
  - destruct Ht as (ks & cs & fp' & -> & Hf & _ & ->).
    destruct (forest_focus _ _ _ _ _ _ _ _ _ k (tree_at_bounds h n) Hf Hk)
      as (c & lo' & hi' & first' & nxt' & fpL & fpc & fpR & kvsL & kvsc & kvsR
          & Hc & Htc & Hk' & -> & -> & HL & HR & _).
    unfold find_child_index. rewrite Hc.
    rewrite get_app_l, get_app_r by done. eapply IH; [done..|lia].
Qed.

(** *** insert *)

Lemma half_lt n : 0 < n → n / 2 < n.
Proof. intros. apply Nat.div_lt; lia. Qed.

Lemma LeafNode_insert_spec Order h a lo hi nxt ks vs k v :
  h !! a = Some (LeafNode ks vs nxt) → length vs = length ks →
  sorted ks → Forall (within lo hi) ks → within lo hi k →
  ∃ h' res, LeafNode_insert Order h a ks vs nxt k v = Ret (h', res) ∧
            insert_post h 0 a lo hi a nxt [a] (zip ks vs) k v h' res.
Proof.
  intros Ha Hlen Hs Hb Hk. pose proof (lookup_lt_Some _ _ _ Ha) as Halt.
  unfold LeafNode_insert, insert_post.
  destruct (key_at ks (lower_bound ks k) k) eqn:Hat.
  - destruct (leaf_found_ins ks vs k v Hlen Hat) as [Hlt Hzip].
    rewrite decide_True by done. eexists _, _. split; [done|].
    rewrite length_insert. split_and!; [done| |].
    + intros b _ Hb'. apply list_lookup_insert_ne. set_solver.
    + exists [a]. split; [|auto]. exists ks, (<[lower_bound ks k:=v]> vs).
      rewrite list_lookup_insert_eq, length_insert by done. done.
  - pose proof (leaf_new_ins ks vs k v Hlen Hat) as Hzip.
    pose proof (lower_bound_le ks k) as Hle.
    rewrite decide_True by lia.
    set (ks1 := insert_at (lower_bound ks k) k ks) in *.
    set (vs1 := insert_at (lower_bound ks k) v vs) in *.
    assert (length ks1 = S (length ks)) as Hlk by apply length_insert_at.
    assert (length vs1 = length ks1) as Hlen1.
    { unfold vs1. rewrite length_insert_at. lia. }
    assert (ks1 = (ins k v (zip ks vs)).*1) as Hks1.
    { rewrite <-Hzip. by rewrite fst_zip by lia. }
    assert (sorted ks1) as Hs1.
    { rewrite Hks1. apply sorted_ins. by rewrite fst_zip by lia. }
    assert (Forall (within lo hi) ks1) as Hb1.
    { rewrite Hks1. apply Forall_ins; [done|]. by rewrite fst_zip by lia. }
    case_decide as Hsplit.
    + set (mid := length ks1 / 2) in *.
      assert (mid < length ks1) as Hmid by (apply half_lt; lia).
      destruct (head (drop mid ks1)) as [front|] eqn:Hfront; last first.
      { rewrite head_lookup, lookup_drop in Hfront.
        apply lookup_ge_None in Hfront. lia. }
      destruct (sorted_cut ks1 mid front Hs1 Hfront) as (Hsl & Hsr & Hbl & Hbr).
      eexists _, _. split; [done|].
      rewrite length_app, length_insert. split_and!; [lia| |].
      * intros b Hb' Hne. rewrite lookup_app_l by (by rewrite length_insert).
        apply list_lookup_insert_ne. set_solver.
      * exists (length h), [a], [length h], (zip (take mid ks1) (take mid vs1)),
          (zip (drop mid ks1) (drop mid vs1)).
        assert (front ∈ ks1) as Hin.
        { apply head_Some_elem_of in Hfront. by eapply subseteq_drop. }
        rewrite Forall_forall in Hb1. pose proof (Hb1 _ Hin) as [Hf1 Hf2].
        split_and!.
        -- exists (take mid ks1), (take mid vs1).
           rewrite lookup_app_l by (by rewrite length_insert).
           rewrite list_lookup_insert_eq by done.
           rewrite !length_take. split_and!; [done|lia|done| |done..].
           apply Forall_forall. intros x Hx. split.
           ++ apply Hb1. by eapply subseteq_take.
           ++ rewrite Forall_forall in Hbl. by apply Hbl.
        -- exists (drop mid ks1), (drop mid vs1).
           rewrite (list_lookup_middle _ []) by (by rewrite length_insert).
           rewrite !length_drop. split_and!; [done|lia|done| |done..].
           apply Forall_forall. intros x Hx. split.
           ++ rewrite Forall_forall in Hbr. by apply Hbr.
           ++ apply Hb1. by eapply subseteq_drop.
        -- rewrite <-Hzip.
           by rewrite <-zip_with_take, <-zip_with_drop, take_drop.
        -- split; [done|]. destruct hi; simpl in *; [|done].
           by apply key_lt_asym.
        -- intros b ->%list_elem_of_singleton ?%list_elem_of_singleton. lia.
        -- intros b [->%list_elem_of_singleton| ->%list_elem_of_singleton]%elem_of_app.
           ++ left. by left.
           ++ by right.
    + eexists _, _. split; [done|].
      rewrite length_insert. split_and!; [done| |].
      * intros b _ Hb'. apply list_lookup_insert_ne. set_solver.
      * exists [a]. split; [|auto]. exists ks1, vs1.
        rewrite list_lookup_insert_eq by done. by rewrite Hzip.
Qed.

Lemma Node_insert_spec Order h n a lo hi first nxt fp kvs k v fuel :
  tree_at h n a lo hi first nxt fp kvs → within lo hi k → n < fuel →
  ∃ h' res, Node_insert Order fuel h a k v = Ret (h', res) ∧
            insert_post h n a lo hi first nxt fp kvs k v h' res.
Proof.
  revert h a lo hi first nxt fp kvs fuel.
  induction n as [|n IH];
    intros h a lo hi first nxt fp kvs [|fuel] Ht Hk Hfuel; try lia.
  { simpl in Ht. destruct Ht as (ks & vs & Ha & Hlen & Hs & Hb & -> & -> & ->).
    simpl. rewrite Ha. by apply LeafNode_insert_spec. }
  pose proof (tree_at_NoDup _ _ _ _ _ _ _ _ _ Ht) as Hnd.
  pose proof (tree_at_valid _ _ _ _ _ _ _ _ _ Ht) as Hval.
  rewrite Forall_forall in Hval.
  simpl in Ht. destruct Ht as (ks & cs & fp' & Ha & Hf & Hafp & ->).
  destruct (forest_focus _ _ _ _ _ _ _ _ _ k (tree_at_bounds h n) Hf Hk)
    as (c & lo' & hi' & first' & nxt' & fpL & fpc & fpR & kvsL & kvsc & kvsR
        & Hc & Htc & Hk' & -> & -> & HL & HR & K1 & K2).
  apply NoDup_cons in Hnd as [_ Hnd].
  apply NoDup_app in Hnd as (_ & HdL & Hnd). apply NoDup_app in Hnd as (_ & HdR & _).
  pose proof (lookup_lt_Some _ _ _ Ha) as Halt.
  simpl. rewrite Ha. unfold find_child_index. rewrite Hc.
  destruct (IH h c lo' hi' first' nxt' fpc kvsc fuel Htc Hk' ltac:(lia))
    as (h1 & res & -> & Hlen1 & Hframe & Hres).
  assert (framed (tree_at h n) (tree_at h1 n) fpc) as Hfr.
  { intros c0 ?????? Ht0 Hd0. eapply tree_at_rehome; [done|].
    intros b ? Hb. apply Hframe; [done|]. by apply Hd0. }
  assert (h1 !! a = Some (InternalNode ks cs)) as Ha1.
  { rewrite Hframe; [done..|]. clear -Hafp. set_solver. }
  assert (ins k v (kvsL ++ kvsc ++ kvsR) = kvsL ++ ins k v kvsc ++ kvsR) as Hins.
  { by rewrite ins_app_l, ins_app_r. }
  simpl. destruct res as [[sk sn]|]; last first.
  { destruct Hres as (fpc' & Htc' & Hsub).
    eexists _, _. split; [done|]. split_and!; [done| |].
    - intros b ? Hb. apply Hframe; [done|]. clear -Hb. set_solver.
    - exists (a :: fpL ++ fpc' ++ fpR). split.
      + exists ks, cs, (fpL ++ fpc' ++ fpR). rewrite Hins.
        split_and!; [done| | |done].
        * apply K1; [done..|]. intros b Hb Hb'.
          destruct (Hsub b Hb) as [Hbc|?]; [clear -HdL HdR Hb' Hbc; set_solver|].
          assert (b < length h); [|lia]. apply Hval. clear -Hb'. set_solver.
        * intros Ha'. apply Hafp. rewrite !elem_of_app in Ha' |- *.
          destruct Ha' as [?|[Ha'|?]]; auto.
          destruct (Hsub a Ha') as [?|?]; [auto|lia].
      + intros b Hb. rewrite elem_of_cons, !elem_of_app in Hb.
        rewrite elem_of_cons, !elem_of_app.
        destruct Hb as [?|[?|[Hb|?]]]; auto.
        destruct (Hsub b Hb) as [?|?]; auto. }
  destruct Hres as (m & fp1 & fp2 & kvs1 & kvs2 & Ht1 & Ht2 & Hins12 & Hsep & Hd12 & Hsub).
  rewrite Ha1. pose proof (upper_bound_le ks k).
  pose proof (forest_length _ _ _ _ _ _ _ _ _ Hf) as Hlencs.
  rewrite decide_True by lia.
  set (ks2 := insert_at (upper_bound ks k) sk ks).
  set (cs2 := insert_at (S (upper_bound ks k)) sn cs).
  assert (∀ b, b ∈ fp1 ++ fp2 → b ∉ fpL ++ fpR) as Hd3.
  { intros b Hb Hb'.
    destruct (Hsub b Hb) as [Hbc|?]; [clear -HdL HdR Hb' Hbc; set_solver|].
    assert (b < length h); [|lia]. apply Hval. clear -Hb'. set_solver. }
  pose proof (K2 _ sk sn m fp1 fp2 kvs1 kvs2 Hfr Ht1 Ht2 Hsep Hd12 Hd3) as HF2.
  fold ks2 cs2 in HF2. rewrite Hins12 in Hins.
  set (F := fpL ++ (fp1 ++ fp2) ++ fpR) in *.
  pose proof (forest_valid _ _ _ _ _ _ _ _ _ _ HF2) as HFval.
  rewrite Forall_forall in HFval.
  assert (∀ b, b ∈ F → b ∈ fpL ++ fpc ++ fpR ∨ length h ≤ b) as HFsub.
  { intros b Hb. unfold F in Hb. rewrite !elem_of_app in Hb.
    rewrite !elem_of_app.
    destruct Hb as [?|[Hb|?]]; auto.
    destruct (Hsub b) as [?|?]; auto. rewrite elem_of_app. done. }
  assert (a ∉ F) as HaF.
  { intros Ha'. destruct (HFsub a Ha'); [done|lia]. }
  assert (length ks2 = S (length ks)) as Hlk2 by apply length_insert_at.
  change (Nat.divmod (length ks2) 1 0 1).1 with (length ks2 / 2).
  case_decide as Hsplit; last first.
  { eexists _, _. split; [done|]. unfold insert_post. rewrite length_insert.
    split_and!; [done| |].
    - intros b ? Hb. rewrite list_lookup_insert_ne by (clear -Hb; set_solver).
      apply Hframe; [done|]. clear -Hb. set_solver.
    - exists (a :: F). split.
      + exists ks2, cs2, F. rewrite list_lookup_insert_eq by lia.
        rewrite Hins. split_and!; [done| |done..].
        eapply forest_rehome; [done|]. intros b ? Hb.
        apply list_lookup_insert_ne. intros ->. done.
      + intros b [->|Hb]%elem_of_cons; [left; by left|].
        destruct (HFsub b Hb); [left; by right|by right]. }
  set (mid := length ks2 / 2) in *.
  assert (mid < length ks2) as Hmid by (apply half_lt; lia).
  destruct (ks2 !! mid) as [m0|] eqn:Hm0; last first.
  { apply lookup_ge_None in Hm0. lia. }
  destruct (forest_cut _ _ _ _ _ _ _ _ _ _ _ HF2 Hm0)
    as (f & fpl & fpr & kvsl & kvsr & Hl & Hr & HFeq & Hkeq & Hdlr & Hsepm).
  eexists _, _. split; [done|]. unfold insert_post.
  rewrite length_app, length_insert.
  assert (∀ b, b < length h1 → b ∈ F →
            (<[a:=InternalNode (take mid ks2) (take (S mid) cs2)]> h1
             ++ [InternalNode (drop (S mid) ks2) (drop (S mid) cs2)]) !! b
            = h1 !! b) as Hsame.
  { intros b ? Hb. rewrite lookup_app_l by (by rewrite length_insert).
    apply list_lookup_insert_ne. intros ->. done. }
  split_and!; [lia| |].
  - intros b ? Hb. rewrite lookup_app_l by (rewrite length_insert; lia).
    rewrite list_lookup_insert_ne by (clear -Hb; set_solver).
    apply Hframe; [done|]. clear -Hb. set_solver.
  - exists f, (a :: fpl), (length h1 :: fpr), kvsl, kvsr.
    split_and!; [| |by rewrite Hins|done| |].
    + exists (take mid ks2), (take (S mid) cs2), fpl.
      rewrite lookup_app_l by (rewrite length_insert; lia).
      rewrite list_lookup_insert_eq by lia. split_and!; [done| | |done].
      * eapply forest_rehome; [done|]. intros b ? Hb. apply Hsame; [done|].
        rewrite HFeq. apply elem_of_app. by left.
      * intros Ha'. apply HaF. rewrite HFeq. apply elem_of_app. by left.
    + exists (drop (S mid) ks2), (drop (S mid) cs2), fpr.
      rewrite (list_lookup_middle _ []) by (by rewrite length_insert).
      split_and!; [done| | |done].
      * eapply forest_rehome; [done|]. intros b ? Hb. apply Hsame; [done|].
        rewrite HFeq. apply elem_of_app. by right.
      * intros Hb. assert (length h1 < length h1); [|lia]. apply HFval.
        rewrite HFeq. apply elem_of_app. by right.
    + intros b [->|Hb]%elem_of_cons [Hb'|Hb']%elem_of_cons.
      * lia.
      * apply HaF. rewrite HFeq. apply elem_of_app. by right.
      * subst b. assert (length h1 < length h1); [|lia]. apply HFval.
        rewrite HFeq. apply elem_of_app. by left.
      * by eapply Hdlr.
    + intros b Hb. rewrite elem_of_app, !elem_of_cons in Hb.
      rewrite elem_of_cons.
      assert (b ∈ F → (b = a ∨ b ∈ fpL ++ fpc ++ fpR) ∨ length h ≤ b) as HFb.
      { intros HbF. destruct (HFsub b HbF); auto. }
      rewrite HFeq, elem_of_app in HFb.
      destruct Hb as [[?|?]|[?|?]]; auto. right. lia.
Qed.

(** *** update and remove: the shape of the tree does not change *)

Lemma length_erase_at {A} i (l : list A) :
  i < length l → length (erase_at i l) = length l - 1.
Proof.
  intros. unfold erase_at. rewrite length_app, length_take, length_drop. lia.
Qed.

Lemma LeafNode_update_spec h a lo hi nxt ks vs k v :
  h !! a = Some (LeafNode ks vs nxt) → length vs = length ks →
  sorted ks → Forall (within lo hi) ks →
  ∃ h', LeafNode_update h a ks vs nxt k v
        = Ret (h', bool_decide (is_Some (get k (zip ks vs)))) ∧
        modify_post h 0 a lo hi a nxt [a] (upd k v (zip ks vs)) h'.
Proof.
  intros Ha Hlen Hs Hb. pose proof (lookup_lt_Some _ _ _ Ha) as Halt.
  unfold LeafNode_update, modify_post, upd.
  destruct (key_at ks (lower_bound ks k) k) eqn:Hat.
  - destruct (leaf_found_ins ks vs k v Hlen Hat) as [Hlt Hzip].
    destruct (leaf_found_get ks vs k Hlen Hat) as [v0 Hget].
    rewrite decide_True, Hget, bool_decide_eq_true_2 by done.
    eexists. split; [done|]. rewrite length_insert. split_and!; [done| |].
    + intros b Hb'. apply list_lookup_insert_ne. set_solver.
    + exists ks, (<[lower_bound ks k:=v]> vs).
      rewrite list_lookup_insert_eq, length_insert by done. done.
  - destruct (leaf_absent ks vs k Hlen Hat) as [Hget _].
    rewrite Hget, bool_decide_eq_false_2 by (by intros [??]).
    eexists. split; [done|]. split_and!; [done..|]. by exists ks, vs.
Qed.

Lemma LeafNode_remove_spec h a lo hi nxt ks vs k :
  h !! a = Some (LeafNode ks vs nxt) → length vs = length ks →
  sorted ks → Forall (within lo hi) ks →
  ∃ h', LeafNode_remove h a ks vs nxt k
        = Ret (h', bool_decide (is_Some (get k (zip ks vs)))) ∧
        modify_post h 0 a lo hi a nxt [a] (del k (zip ks vs)) h'.
Proof.
  intros Ha Hlen Hs Hb. pose proof (lookup_lt_Some _ _ _ Ha) as Halt.
  unfold LeafNode_remove, modify_post.
  destruct (key_at ks (lower_bound ks k) k) eqn:Hat.
  - destruct (leaf_found_del ks vs k Hlen Hat) as [Hlt Hzip].
    destruct (leaf_found_get ks vs k Hlen Hat) as [v0 Hget].
    rewrite decide_True, Hget, bool_decide_eq_true_2 by done.
    eexists. split; [done|]. rewrite length_insert. split_and!; [done| |].
    + intros b Hb'. apply list_lookup_insert_ne. set_solver.
    + set (ks1 := erase_at (lower_bound ks k) ks) in *.
      set (vs1 := erase_at (lower_bound ks k) vs) in *.
      assert (length vs1 = length ks1) as Hlen1.
      { unfold vs1, ks1. rewrite !length_erase_at by lia. lia. }
      assert (ks1 = (del k (zip ks vs)).*1) as Hks1.
      { rewrite <-Hzip. by rewrite fst_zip by lia. }
      exists ks1, vs1. rewrite list_lookup_insert_eq by done.
      split_and!; [done..| | |done|done|done].
      * rewrite Hks1. apply sorted_del. by rewrite fst_zip by lia.
      * rewrite Hks1. apply Forall_del. by rewrite fst_zip by lia.
  - destruct (leaf_absent ks vs k Hlen Hat) as [Hget ->].
    rewrite Hget, bool_decide_eq_false_2 by (by intros [??]).
    eexists. split; [done|]. split_and!; [done..|]. by exists ks, vs.
Qed.

Lemma Node_update_spec h n a lo hi first nxt fp kvs k v fuel :
  tree_at h n a lo hi first nxt fp kvs → within lo hi k → n < fuel →
  ∃ h', Node_update fuel h a k v
        = Ret (h', bool_decide (is_Some (get k kvs))) ∧
        modify_post h n a lo hi first nxt fp (upd k v kvs) h'.
Proof.
  revert a lo hi first nxt fp kvs fuel.
  induction n as [|n IH];
    intros a lo hi first nxt fp kvs [|fuel] Ht Hk Hfuel; try lia.
  { simpl in Ht. destruct Ht as (ks & vs & Ha & Hlen & Hs & Hb & -> & -> & ->).
    simpl. rewrite Ha. by apply LeafNode_update_spec. }
  pose proof (tree_at_NoDup _ _ _ _ _ _ _ _ _ Ht) as Hnd.
  simpl in Ht. destruct Ht as (ks & cs & fp' & Ha & Hf & Hafp & ->).
  destruct (forest_focus _ _ _ _ _ _ _ _ _ k (tree_at_bounds h n) Hf Hk)
    as (c & lo' & hi' & first' & nxt' & fpL & fpc & fpR & kvsL & kvsc & kvsR
        & Hc & Htc & Hk' & -> & -> & HL & HR & K1 & _).
  apply NoDup_cons in Hnd as [_ Hnd].
  apply NoDup_app in Hnd as (_ & HdL & Hnd). apply NoDup_app in Hnd as (_ & HdR & _).
  simpl. rewrite Ha. unfold find_child_index. rewrite Hc.
  destruct (IH c lo' hi' first' nxt' fpc kvsc fuel Htc Hk' ltac:(lia))
    as (h1 & -> & Hlen1 & Hframe & Htc').
  rewrite get_app_l, get_app_r, upd_app by done.
  exists h1. split; [done|]. split_and!; [done| |].
  - intros b Hb. apply Hframe. clear -Hb. set_solver.
  - exists ks, cs, (fpL ++ fpc ++ fpR). rewrite Hframe by (clear -Hafp; set_solver).
    split_and!; [done| |done..]. apply K1; [|done|].
    + intros c0 ?????? Ht0 Hd0. eapply tree_at_frame; [done|].
      intros b Hb. apply Hframe. by apply Hd0.
    + clear -HdL HdR. set_solver.
Qed.

Lemma Node_remove_spec h n a lo hi first nxt fp kvs k fuel :
  tree_at h n a lo hi first nxt fp kvs → within lo hi k → n < fuel →
  ∃ h', Node_remove fuel h a k
        = Ret (h', bool_decide (is_Some (get k kvs))) ∧
        modify_post h n a lo hi first nxt fp (del k kvs) h'.
Proof.
  revert a lo hi first nxt fp kvs fuel.
  induction n as [|n IH];
    intros a lo hi first nxt fp kvs [|fuel] Ht Hk Hfuel; try lia.
  { simpl in Ht. destruct Ht as (ks & vs & Ha & Hlen & Hs & Hb & -> & -> & ->).
    simpl. rewrite Ha. by apply LeafNode_remove_spec. }
  pose proof (tree_at_NoDup _ _ _ _ _ _ _ _ _ Ht) as Hnd.
  simpl in Ht. destruct Ht as (ks & cs & fp' & Ha & Hf & Hafp & ->).
  destruct (forest_focus _ _ _ _ _ _ _ _ _ k (tree_at_bounds h n) Hf Hk)
    as (c & lo' & hi' & first' & nxt' & fpL & fpc & fpR & kvsL & kvsc & kvsR
        & Hc & Htc & Hk' & -> & -> & HL & HR & K1 & _).
  apply NoDup_cons in Hnd as [_ Hnd].
  apply NoDup_app in Hnd as (_ & HdL & Hnd). apply NoDup_app in Hnd as (_ & HdR & _).
  simpl. rewrite Ha. unfold find_child_index. rewrite Hc.
  destruct (IH c lo' hi' first' nxt' fpc kvsc fuel Htc Hk' ltac:(lia))
    as (h1 & -> & Hlen1 & Hframe & Htc').
  rewrite get_app_l, get_app_r, del_app_l, del_app_r by done.
  exists h1. split; [done|]. split_and!; [done| |].
  - intros b Hb. apply Hframe. clear -Hb. set_solver.
  - exists ks, cs, (fpL ++ fpc ++ fpR). rewrite Hframe by (clear -Hafp; set_solver).
    split_and!; [done| |done..]. apply K1; [|done|].
    + intros c0 ?????? Ht0 Hd0. eapply tree_at_frame; [done|].
      intros b Hb. apply Hframe. by apply Hd0.
    + clear -HdL HdR. set_solver.
Qed.

(** *** Following the links between the leaves *)

Lemma follow_links_mono h fuel fuel' oa r :
  follow_links fuel h oa = Ret r → fuel ≤ fuel' →
  follow_links fuel' h oa = Ret r.
Proof.
  revert fuel' oa r. induction fuel as [|fuel IH]; intros fuel' [a|] r Hr Hle;
    try by destruct fuel'.
  destruct fuel' as [|fuel']; [lia|]. simpl in *.
  destruct (h !! a) as [[ks vs nxt|]|]; try done.
  case_decide; [|done].
  destruct (follow_links fuel h nxt) as [rest| |] eqn:Hrest; try done.
  by rewrite (IH fuel' nxt rest Hrest) by lia.
Qed.

Lemma follow_links_tree h n a lo hi first nxt fp kvs fuel rest :
  tree_at h n a lo hi first nxt fp kvs →
  follow_links fuel h nxt = Ret rest →
  follow_links (length fp + fuel) h (Some first) = Ret (kvs ++ rest).
Proof.
  revert a lo hi first nxt fp kvs fuel rest. induction n as [|n IH];
    intros a lo hi first nxt fp kvs fuel rest Ht Hrest; simpl in Ht.
  - destruct Ht as (ks & vs & Ha & Hlen & _ & _ & -> & -> & ->).
    simpl. by rewrite Ha, decide_True, Hrest.
  - destruct Ht as (ks & cs & fp' & _ & Hf & _ & ->).
    eapply follow_links_mono; [|simpl; apply Nat.le_succ_diag_r].
    clear -IH Hf Hrest. revert fuel rest Hrest.
    induction Hf as [|????????????? Hc Hf IHf Hd Hk]; intros fuel rest Hrest.
    + by eapply IH.
    + rewrite length_app, <-Nat.add_assoc, <-app_assoc. eapply IH; [done|].
      by apply IHf.
Qed.

Lemma forest_head T cs ks lo hi first nxt fp kvs :
  forest T cs ks lo hi first nxt fp kvs →
  ∃ c hi' nxt' fp' kvs', cs !! 0 = Some c ∧ T c lo hi' first nxt' fp' kvs'.
Proof. destruct 1; eauto 10. Qed.

Lemma leftmost_leaf_tree h n a lo hi first nxt fp kvs fuel :
  tree_at h n a lo hi first nxt fp kvs → n < fuel →
  leftmost_leaf fuel h a = Ret first.
Proof.
  revert a lo hi first nxt fp kvs fuel. induction n as [|n IH];
    intros a lo hi first nxt fp kvs [|fuel] Ht Hfuel; try lia; simpl in *.
  - destruct Ht as (ks & vs & -> & _ & _ & _ & -> & _). done.
  - destruct Ht as (ks & cs & fp' & -> & Hf & _).
    apply forest_head in Hf as (c & hi' & nxt' & fp0 & kvs0 & -> & Hc).
    eapply IH; [done|lia].
Qed.

(** *** The operations of [BPlusTree] on well-formed trees *)

Lemma within_top k : within None None k.
Proof. done. Qed.

Lemma wf_empty : wf (@empty Key Value) [].
Proof. exists 0, 0, [0]. exists [], []. split_and!; try done; constructor. Qed.

Lemma wf_sorted tr kvs : wf tr kvs → sorted kvs.*1.
Proof. intros (n & first & fp & Ht). by eapply tree_at_sorted. Qed.

Lemma find_wf tr kvs k : wf tr kvs → find tr k = Ret (get k kvs).
Proof.
  intros (n & first & fp & Ht). eapply Node_find_spec; [done..|].
  by eapply tree_at_fuel.
Qed.

Lemma traverse_wf tr kvs : wf tr kvs → traverse tr = Ret kvs.
Proof.
  intros (n & first & fp & Ht). unfold traverse.
  destruct (tree_at_fuel _ _ _ _ _ _ _ _ _ Ht) as [Hn Hfp].
  rewrite (leftmost_leaf_tree _ _ _ _ _ _ _ _ _ _ Ht Hn). simpl.
  eapply follow_links_mono; [|exact Hfp].
  rewrite <-(Nat.add_0_r (length fp)), <-(app_nil_r kvs).
  by eapply follow_links_tree.
Qed.

Lemma insert_wf Order tr kvs k v :
  wf tr kvs → ∃ tr', insert Order tr k v = Ret tr' ∧ wf tr' (ins k v kvs).
Proof.
  intros (n & first & fp & Ht). unfold insert.
  destruct (tree_at_fuel _ _ _ _ _ _ _ _ _ Ht) as [Hn _].
  destruct (Node_insert_spec Order _ _ _ _ _ _ _ _ _ k v _ Ht (within_top k) Hn)
    as (h' & res & -> & Hlen & _ & Hres). simpl.
  destruct res as [[sk sn]|].
  - destruct Hres as (m & fp1 & fp2 & kvs1 & kvs2 & Ht1 & Ht2 & -> & Hsep & Hd & _).
    eexists. split; [done|].
    exists (S n), first, (length h' :: fp1 ++ fp2). simpl.
    exists [sk], [root_ tr; sn], (fp1 ++ fp2).
    rewrite (list_lookup_middle _ []) by done.
    pose proof (tree_at_valid _ _ _ _ _ _ _ _ _ Ht1) as Hv1.
    pose proof (tree_at_valid _ _ _ _ _ _ _ _ _ Ht2) as Hv2.
    rewrite Forall_forall in Hv1, Hv2.
    split_and!; [done| | |done].
    + econstructor; [|constructor| |]; [| |done..].
      * eapply tree_at_rehome; [done|]. intros. by rewrite lookup_app_l.
      * eapply tree_at_rehome; [done|]. intros. by rewrite lookup_app_l.
    + intros [Hb|Hb]%elem_of_app; [apply Hv1 in Hb|apply Hv2 in Hb]; lia.
  - destruct Hres as (fp' & Ht' & _). eexists. split; [done|].
    by exists n, first, fp'.
Qed.

Lemma update_wf tr kvs k v :
  wf tr kvs →
  ∃ tr', update tr k v = Ret (tr', bool_decide (is_Some (get k kvs))) ∧
         wf tr' (upd k v kvs).
Proof.
  intros (n & first & fp & Ht). unfold update.
  destruct (tree_at_fuel _ _ _ _ _ _ _ _ _ Ht) as [Hn _].
  destruct (Node_update_spec _ _ _ _ _ _ _ _ _ k v _ Ht (within_top k) Hn)
    as (h' & -> & Hlen & _ & Ht'). simpl.
  eexists. split; [done|]. by exists n, first, fp.
Qed.

Lemma remove_wf tr kvs k :
  wf tr kvs →
  ∃ tr', remove tr k = Ret (tr', bool_decide (is_Some (get k kvs))) ∧
         wf tr' (del k kvs).
Proof.
  intros (n & first & fp & Ht). unfold remove.
  destruct (tree_at_fuel _ _ _ _ _ _ _ _ _ Ht) as [Hn _].
  destruct (Node_remove_spec _ _ _ _ _ _ _ _ _ k _ Ht (within_top k) Hn)
    as (h' & -> & Hlen & _ & Ht'). simpl.
  destruct n as [|n]; simpl in Ht'.
  - destruct Ht' as (ks & vs & Ha & ?). rewrite Ha. eexists. split; [done|].
    exists 0, first, fp. simpl. eauto.
  - destruct Ht' as (ks & cs & fp' & Ha & Hf & Hafp & ->). rewrite Ha.
    assert (wf (mk h' (root_ tr)) (del k kvs)) as Hwf.
    { exists (S n), first, (root_ tr :: fp'). simpl. eauto 10. }
    destruct ks as [|k0 ks]; [|by eexists].
    destruct (bool_decide (is_Some (get k kvs))); [|by eexists].
    inversion Hf; simplify_eq. simpl. eexists. split; [done|].
    by exists n, first, fp'.
Qed.

(** *** Sequences of operations *)

Lemma insert_all_wf Order tr kvs0 l :
  wf tr kvs0 →
  ∃ tr', insert_all Order tr l = Ret tr' ∧ wf tr' (ins_all kvs0 l).
Proof.
  unfold insert_all, ins_all. revert tr kvs0.
  induction l as [|[k v] l IH]; intros tr kvs0 Hwf; simpl; [by eexists|].
  destruct (insert_wf Order tr kvs0 k v Hwf) as (tr1 & -> & Hwf1).
  by apply IH.
Qed.

Lemma elem_of_keys_ins kvs k v x :
  x ∈ (ins k v kvs).*1 ↔ x = k ∨ x ∈ kvs.*1.
Proof.
  induction kvs as [|[k0 v0] kvs IH]; simpl; [set_solver|].
  repeat case_match; simpl; rewrite ?elem_of_cons, ?IH; subst; naive_solver.
Qed.

Lemma elem_of_keys_ins_all kvs0 l x :
  x ∈ (ins_all kvs0 l).*1 ↔ x ∈ l.*1 ∨ x ∈ kvs0.*1.
Proof.
  unfold ins_all. revert kvs0.
  induction l as [|[k v] l IH]; intros kvs0; simpl; [set_solver|].
  rewrite IH, elem_of_keys_ins, elem_of_cons. naive_solver.
Qed.

Lemma keys_ins_present kvs k v :
  is_Some (get k kvs) → (ins k v kvs).*1 = kvs.*1.
Proof.
  induction kvs as [|[k0 v0] kvs IH]; simpl; [by intros [??]|].
  destruct (key_lt k0 k); simpl; [by intros ?; f_equal; apply IH|].
  case_decide; [by subst|by intros [??]].
Qed.

Lemma sorted_NoDup ks : sorted ks → NoDup ks.
Proof.
  induction 1 as [|x ks Hs IH Hall]; constructor; [|done].
  intros Hx. rewrite Forall_forall in Hall. apply Hall in Hx.
  by rewrite key_lt_irrefl in Hx.
Qed.

Lemma run_op_wf Order tr kvs o :
  wf tr kvs → ∃ tr', run_op Order tr o = Ret tr' ∧ wf tr' (apply_op kvs o).
Proof.
  intros Hwf. destruct o as [k v|k v|k]; simpl.
  - by apply insert_wf.
  - destruct (update_wf tr kvs k v Hwf) as (tr' & -> & ?). by exists tr'.
  - destruct (remove_wf tr kvs k Hwf) as (tr' & -> & ?). by exists tr'.
Qed.

Lemma run_ops_wf Order tr kvs ops :
  wf tr kvs →
  ∃ tr', run_ops Order tr ops = Ret tr' ∧ wf tr' (foldl apply_op kvs ops).
Proof.
  unfold run_ops. revert tr kvs.
  induction ops as [|o ops IH]; intros tr kvs Hwf; simpl; [by eexists|].
  destruct (run_op_wf Order tr kvs o Hwf) as (tr1 & -> & Hwf1). by apply IH.
Qed.

Lemma reachable_wf Order tr : reachable Order tr → ∃ kvs, wf tr kvs.
Proof.
  intros [ops Hops].
  destruct (run_ops_wf Order empty [] ops wf_empty) as (tr' & Heq & Hwf).
  rewrite Hops in Heq. simplify_eq. eauto.
Qed.

Lemma sorted_apply_op kvs o : sorted kvs.*1 → sorted (apply_op kvs o).*1.
Proof.
  destruct o; simpl; [apply sorted_ins| |apply sorted_del].
  unfold upd. case_match; [apply sorted_ins|done].
Qed.

Lemma get_apply_op kvs o k :
  sorted kvs.*1 → op_key o ≠ k → get k (apply_op kvs o) = get k kvs.
Proof.
  intros Hs Hne. destruct o as [k' v|k' v|k']; simpl in *.
  - by rewrite get_ins, decide_False.
  - unfold upd. case_match; [|done]. by rewrite get_ins, decide_False.
  - by rewrite get_del, decide_False.
Qed.

Lemma get_apply_ops kvs ops k :
  sorted kvs.*1 → Forall (λ o, op_key o ≠ k) ops →
  get k (foldl apply_op kvs ops) = get k kvs.
Proof.
  intros Hs Hall. revert kvs Hs.
  induction Hall as [|o ops Ho _ IH]; intros kvs Hs; simpl; [done|].
  rewrite IH by by apply sorted_apply_op. by apply get_apply_op.
Qed.

Lemma get_apply_ops_written kvs ops k v :
  sorted kvs.*1 → get k kvs = Some v → Forall (λ o, o ≠ OpRemove k) ops →
  get k (foldl apply_op kvs ops) = Some (last_written k v ops).
Proof.
  intros Hs Hg Hall. revert kvs v Hs Hg.
  induction Hall as [|o ops Ho _ IH]; intros kvs v Hs Hg; simpl; [done|].
  apply IH; [by apply sorted_apply_op|].
  destruct o as [k' v'|k' v'|k']; simpl.
  - rewrite get_ins. destruct (decide (k' = k)) as [->|Hne].
    + by rewrite decide_True.
    + by rewrite decide_False by congruence.
  - unfold upd. destruct (decide (k' = k)) as [->|Hne].
    + by rewrite Hg, get_ins, decide_True.
    + case_match; [|done]. by rewrite get_ins, decide_False.
  - rewrite get_del by done. rewrite decide_False; [done|]. congruence.
Qed.

(** *** The binary searches

    The positions computed by [lower_bound] and [upper_bound] are the
    partition points of the sorted keys, which is what [std::lower_bound]
    and [std::upper_bound] return; the keys of a leaf and the separators of
    an internal node are sorted. *)
Lemma lower_bound_partition ks k :
  sorted ks →
  Forall (λ x, key_lt x k = true) (take (lower_bound ks k) ks) ∧
  Forall (λ x, key_lt x k = false) (drop (lower_bound ks k) ks).
Proof.
  induction 1 as [|x ks Hs IH Hall]; simpl; [done|].
  destruct (key_lt x k) eqn:Hxk; simpl.
  - destruct IH. split; [by constructor|done].
  - split; [done|]. constructor; [done|].
    eapply Forall_impl; [exact Hall|]. intros y Hxy. simpl in Hxy.
    destruct (key_lt y k) eqn:Hyk; [|done].
    by rewrite (key_lt_trans _ _ _ Hxy Hyk) in Hxk.
Qed.

Lemma upper_bound_partition ks k :
  StronglySorted (λ x y, key_lt y x = false) ks →
  Forall (λ x, key_lt k x = false) (take (upper_bound ks k) ks) ∧
  Forall (λ x, key_lt k x = true) (drop (upper_bound ks k) ks).
Proof.
  induction 1 as [|x ks Hs IH Hall]; simpl; [done|].
  destruct (key_lt k x) eqn:Hkx; simpl.
  - split; [done|]. constructor; [done|].
    eapply Forall_impl; [exact Hall|]. intros y Hyx. simpl in Hyx.
    by eapply key_lt_le_trans.
  - destruct IH. split; [by constructor|done].
Qed.

Lemma forest_separators T cs ks lo hi first nxt fp kvs :
  forest T cs ks lo hi first nxt fp kvs →
  StronglySorted (λ x y, key_lt y x = false) ks ∧ Forall (sep_ok lo hi) ks.
Proof.
  induction 1 as [|????????????? Hc Hf [IHs IHb] Hd [Hk1 Hk2]]; [by split; constructor|].
  split.
  - constructor; [done|]. eapply Forall_impl; [exact IHb|]. by intros y [??].
  - constructor; [done|]. eapply Forall_impl; [exact IHb|].
    intros y [Hy1 Hy2]. split; [|done]. destruct lo; simpl in *; [|done].
    by eapply key_le_trans.
Qed.

End bpt_lemmas.

(** ** The ordered index: the claims *)

Section bpt_claims.
Import BPlusTree.
Context {Key Value : Type} {Kops : KeyOps Key} {Kord : KeyOrd Key}.

(** C7: for every sequence of insertions of pairwise-distinct keys into an
    initially empty tree of order 4, every insertion returns, and the
    traversal that starts at the leftmost leaf and follows the [next] links
    yields exactly the inserted keys, in strictly ascending order. *)
Theorem C7_leaf_chain_strictly_ascending (kvs : list (Key * Value)) :
  NoDup kvs.*1 →
  ∃ tr out,
    insert_all 4 empty kvs = Ret tr ∧
    traverse tr = Ret out ∧
    StronglySorted (λ x y, key_lt x y = true) out.*1 ∧
    out.*1 ≡ₚ kvs.*1.
Proof.
  intros Hnd.
  destruct (insert_all_wf 4 empty [] kvs wf_empty) as (tr & Hins & Hwf).
  exists tr, (ins_all [] kvs).
  pose proof (wf_sorted _ _ Hwf) as Hs.
  split_and!; [done|by apply traverse_wf|done|].
  apply NoDup_Permutation; [by apply sorted_NoDup|done|].
  intros x. rewrite elem_of_keys_ins_all. set_solver.
Qed.

(** C9 (as amended): in any state of a tree, after [insert (k, v)] and any
    further operations that do not remove [k], [find k] returns the value
    last written to [k]: [v], unless one of the operations was an insert
    or update of [k], and then the value of the last of them.  The same
    holds after a subsequent [insert (k, v2)], which replaces the value in
    place: the keys found along the leaves are the same before and after
    it, and no key occurs twice. *)
Theorem C9_find_returns_last_written (Order : nat) (tr : @t Key Value)
    (k : Key) (v v2 : Value) (ops1 ops2 : list op) :
  reachable Order tr →
  Forall (λ o, o ≠ OpRemove k) ops1 →
  Forall (λ o, o ≠ OpRemove k) ops2 →
  ∃ tr1 tr1' tr2 tr2' out1 out2,
    insert Order tr k v = Ret tr1 ∧
    run_ops Order tr1 ops1 = Ret tr1' ∧
    find tr1' k = Ret (Some (last_written k v ops1)) ∧
    insert Order tr1' k v2 = Ret tr2 ∧
    run_ops Order tr2 ops2 = Ret tr2' ∧
    find tr2' k = Ret (Some (last_written k v2 ops2)) ∧
    traverse tr1' = Ret out1 ∧ traverse tr2 = Ret out2 ∧
    out2.*1 = out1.*1 ∧ NoDup out2.*1.
Proof.
  intros [kvs Hwf]%reachable_wf Hops1 Hops2.
  destruct (insert_wf Order tr kvs k v Hwf) as (tr1 & Hi1 & Hwf1).
  destruct (run_ops_wf Order tr1 _ ops1 Hwf1) as (tr1' & Hr1 & Hwf1').
  destruct (insert_wf Order tr1' _ k v2 Hwf1') as (tr2 & Hi2 & Hwf2).
  destruct (run_ops_wf Order tr2 _ ops2 Hwf2) as (tr2' & Hr2 & Hwf2').
  pose proof (wf_sorted _ _ Hwf1) as Hs1. pose proof (wf_sorted _ _ Hwf2) as Hs2.
  assert (get k (foldl apply_op (ins k v kvs) ops1) = Some (last_written k v ops1))
    as Hg1.
  { apply get_apply_ops_written; [done| |done]. by rewrite get_ins, decide_True. }
  eexists tr1, tr1', tr2, tr2', _, _.
  split_and!; [done|done| |done|done| |by apply traverse_wf|by apply traverse_wf| |].
  - by rewrite (find_wf _ _ k Hwf1'), Hg1.
  - rewrite (find_wf _ _ k Hwf2'). apply f_equal.
    apply get_apply_ops_written; [done| |done]. by rewrite get_ins, decide_True.
  - apply keys_ins_present. by rewrite Hg1.
  - by apply sorted_NoDup.
Qed.

End bpt_claims.


Section bpt_examples.
Import BPlusTree.

Lemma C7_witness :
  ∃ (tr : @t Z Z) out,
    insert_all 4 empty [(3, 30); (1, 10); (2, 20); (9, 90); (5, 50); (4, 40)]%Z
    = Ret tr ∧
    traverse tr = Ret out ∧
    StronglySorted (λ x y, key_lt x y = true) out.*1 ∧
    out.*1 ≡ₚ [3; 1; 2; 9; 5; 4]%Z.
Proof.
  apply (C7_leaf_chain_strictly_ascending
           [(3, 30); (1, 10); (2, 20); (9, 90); (5, 50); (4, 40)]%Z).
  apply (bool_decide_unpack _). vm_compute. exact I.
Defined.

Lemma C9_witness :
  ∃ (tr1 tr1' tr2 tr2' : @t Z Z) out1 out2,
    insert 4 empty 1%Z 10%Z = Ret tr1 ∧
    run_ops 4 tr1 [OpInsert 2 20; OpRemove 3; OpUpdate 1 99; OpUpdate 2 21]%Z = Ret tr1' ∧
    find tr1' 1%Z = Ret (Some 99%Z) ∧
    insert 4 tr1' 1%Z 11%Z = Ret tr2 ∧
    run_ops 4 tr2 [OpInsert 5 50]%Z = Ret tr2' ∧
    find tr2' 1%Z = Ret (Some 11%Z) ∧
    traverse tr1' = Ret out1 ∧ traverse tr2 = Ret out2 ∧
    out2.*1 = out1.*1 ∧ NoDup out2.*1.
Proof.
  change 99%Z with (last_written 1 10 [OpInsert 2 20; OpRemove 3; OpUpdate 1 99;
                                       OpUpdate 2 21])%Z.
  change 11%Z with (last_written 1 11 [OpInsert 5 50])%Z at 2.
  apply (C9_find_returns_last_written 4 empty 1%Z 10%Z 11%Z
           [OpInsert 2 20; OpRemove 3; OpUpdate 1 99; OpUpdate 2 21]%Z [OpInsert 5 50]%Z).
  - by exists [].
  - repeat constructor; discriminate.
  - repeat constructor; discriminate.
Defined.

(** C9 as stated fails: the key 1 is inserted with the value 10 and not
    removed, yet after an [update] of the key [find] returns 99. *)
Lemma C9_counterexample :
  ∃ tr1 tr1' : @t Z Z,
    insert 4 empty 1%Z 10%Z = Ret tr1 ∧
    run_ops 4 tr1 [OpUpdate 1 99]%Z = Ret tr1' ∧
    Forall (λ o, o ≠ OpRemove 1%Z) [OpUpdate 1 99 : @op Z Z]%Z ∧
    find tr1' 1%Z = Ret (Some 99%Z) ∧
    find tr1' 1%Z ≠ Ret (Some 10%Z).
Proof.
  eexists _, _. split_and!; [reflexivity|reflexivity| |reflexivity|by vm_compute].
  repeat constructor; discriminate.
Qed.

(** C8: starting from an empty tree of order 4, after inserting the keys
    1, 3, 5, 7, 9, 11, 13 in that order, [range_scan (4, 10, visit)] calls
    [visit] exactly three times: on 5, on 7 and on 9, in that order. *)
Theorem C8_range_scan_4_10 {Value} (f : Z → Value) :
  (tr ← insert_all 4 empty (with_values f [1; 3; 5; 7; 9; 11; 13]%Z);
   range_scan tr 4%Z 10%Z)
  = Ret [(5%Z, f 5%Z); (7%Z, f 7%Z); (9%Z, f 9%Z)].
Proof. reflexivity. Qed.

(** C10, at the input where it fails: after inserting 1 .. 5 and removing
    3, 4 and 5 the second leaf is empty; [find] still answers correctly,
    but a [range_scan] that starts in the first leaf reads [keys.front ()]
    of the empty leaf it links to. *)
Theorem C10_range_scan_reads_empty_leaf :
  let ops := [OpInsert 1 10; OpInsert 2 20; OpInsert 3 30; OpInsert 4 40;
              OpInsert 5 50; OpRemove 3; OpRemove 4; OpRemove 5]%Z in
  ∃ tr : @t Z Z,
    run_ops 4 empty ops = Ret tr ∧
    nodes tr = [LeafNode [1; 2]%Z [10; 20]%Z (Some 1); LeafNode [] [] None;
                InternalNode [3%Z] [0; 1]] ∧
    find tr 1%Z = Ret (Some 10%Z) ∧ find tr 3%Z = Ret None ∧
    range_scan tr 1%Z 10%Z = Undefined.
Proof. eexists. split_and!; reflexivity. Qed.

End bpt_examples.

(** Whatever the operations, [find] itself stays correct: it returns the
    value last written under a key that is still stored, and nothing for
    the others. *)
Lemma find_after_ops {Key Value} `{KeyOrd Key} (Order : nat)
    (ops : list (@op Key Value)) (k : Key) :
  ∃ tr, run_ops Order BPlusTree.empty ops = Ret tr ∧
        BPlusTree.find tr k = Ret (get k (foldl apply_op [] ops)).
Proof.
  destruct (run_ops_wf Order BPlusTree.empty [] ops wf_empty)
    as (tr & Hr & Hwf).
  exists tr. split; [done|]. by apply find_wf.
Qed.

(** ** Tables *)

Lemma ascii_compare_lt_trans (a b c : Ascii.ascii) :
  Ascii.compare a b = Lt → Ascii.compare b c = Lt → Ascii.compare a c = Lt.
Proof.
  unfold Ascii.compare. rewrite !N.compare_lt_iff. lia.
Qed.

Lemma ascii_compare_refl (a : Ascii.ascii) : Ascii.compare a a = Eq.
Proof. unfold Ascii.compare. apply N.compare_refl. Qed.

Lemma string_compare_refl (s : string) : String.compare s s = Eq.
Proof. induction s; simpl; [done|]. by rewrite ascii_compare_refl. Qed.

Lemma string_compare_lt_trans (s1 s2 s3 : string) :
  String.compare s1 s2 = Lt → String.compare s2 s3 = Lt →
  String.compare s1 s3 = Lt.
Proof.
  revert s2 s3. induction s1 as [|a s1 IH]; intros [|b s2] [|c s3]; simpl; try done.
  destruct (Ascii.compare a b) eqn:Hab; try done;
    destruct (Ascii.compare b c) eqn:Hbc; try done; intros H1 H2.
  - apply Ascii.compare_eq_iff in Hab, Hbc. subst.
    rewrite ascii_compare_refl. by eapply IH.
  - apply Ascii.compare_eq_iff in Hab. subst. by rewrite Hbc.
  - apply Ascii.compare_eq_iff in Hbc. subst. by rewrite Hab.
  - by rewrite (ascii_compare_lt_trans _ _ _ Hab Hbc).
Qed.

Global Instance string_KeyOrd : KeyOrd string.
Proof.
  split; simpl; unfold String.ltb.
  - intros a. by rewrite string_compare_refl.
  - intros a b c Hab Hbc.
    destruct (String.compare a b) eqn:H1; try done.
    destruct (String.compare b c) eqn:H2; try done.
    by rewrite (string_compare_lt_trans _ _ _ H1 H2).
  - intros a b Hab Hba. apply String.compare_eq_iff.
    rewrite String.compare_antisym in Hba.
    destruct (String.compare a b); simpl in *; done.
Qed.

Section db_lemmas.
Import db.
Implicit Types (t : Table) (row : Row) (v : DBValue) (col : ColumnDef).
Implicit Types (f : DBValue → option nat).

Lemma key_ok_Int v : key_ok Int v → ∃ z, v = DBInt z.
Proof. destruct v; simpl; try done. eauto. Qed.

Lemma key_ok_Text v : key_ok Text v → ∃ s, v = DBText s.
Proof. destruct v; simpl; try done. eauto. Qed.

Lemma key_ok_type ty v : key_ok ty v → value_type v = ty ∧ is_null v = false.
Proof. by destruct ty, v. Qed.

Lemma view_find_int t pk col f z :
  index_view t pk col f → type col = Int →
  index_find (int_index_ t) z = Ret (f (DBInt z)).
Proof.
  intros (_ & _ & _ & Hix) Hty. rewrite Hty in Hix.
  destruct Hix as (ix & kvs & -> & Hwf & ->). by apply find_wf.
Qed.

Lemma view_find_text t pk col f z :
  index_view t pk col f → type col = Text →
  index_find (text_index_ t) z = Ret (f (DBText z)).
Proof.
  intros (_ & _ & _ & Hix) Hty. rewrite Hty in Hix.
  destruct Hix as (ix & kvs & -> & Hwf & ->). by apply find_wf.
Qed.

(** [update_index] adds or replaces the entry of one key. *)
Lemma update_index_spec t pk col f v i :
  index_view t pk col f → key_ok (type col) v →
  ∃ t' f',
    update_index t v i = Ret (t', Returned ()) ∧
    index_view t' pk col f' ∧
    rows_ t' = rows_ t ∧ columns_ t' = columns_ t ∧
    f' v = Some i ∧ (∀ x, key_ok (type col) x → x ≠ v → f' x = f x).
Proof.
  intros (Hpk & Hcol & Hprim & Hix) Hv. unfold update_index.
  rewrite Hpk, Hcol. destruct (type col) eqn:Hty; try done.
  - destruct Hix as (ix & kvs & Hi & Hwf & Hf).
    apply key_ok_Int in Hv as [z ->]. rewrite Hi. simpl.
    destruct (insert_wf 4 ix kvs z i Hwf) as (ix' & -> & Hwf'). simpl.
    exists (set_int_index t ix'),
      (λ x, match x with DBInt z' => get z' (ins z i kvs) | _ => f x end).
    split_and!; try done.
    + split_and!; simpl; try done. rewrite Hty. by exists ix', (ins z i kvs).
    + by rewrite get_ins, decide_True.
    + intros x [z' ->]%key_ok_Int Hne.
      rewrite get_ins, decide_False by congruence. done.
  - destruct Hix as (ix & kvs & Hi & Hwf & Hf).
    apply key_ok_Text in Hv as [z ->]. rewrite Hi.
    simpl.
    destruct (insert_wf 4 ix kvs z i Hwf) as (ix' & -> & Hwf'). simpl.
    exists (set_text_index t ix'),
      (λ x, match x with DBText z' => get z' (ins z i kvs) | _ => f x end).
    split_and!; try done.
    + split_and!; simpl; try done. rewrite Hty. by exists ix', (ins z i kvs).
    + by rewrite get_ins, decide_True.
    + intros x [z' ->]%key_ok_Text Hne.
      rewrite get_ins, decide_False by congruence. done.
Qed.

(** The checks of [insert_row]: they end the call with [false] or with an
    exception, or they pass, and then the key of the row is new to the
    index. *)
Lemma insert_row_checks_spec t pk col f i columns row :
  index_view t pk col f →
  (∀ o, columns !! o = columns_ t !! (i + o)) →
  length row = length columns →
  ∃ r, insert_row_checks t i columns row = Ret r ∧
       r ≠ Some (Returned true) ∧
       (r = None → i ≤ pk →
        pk < i + length columns →
        ∃ v, row !! (pk - i) = Some v ∧ key_ok (type col) v ∧ f v = None).
Proof.
  intros Hview. pose proof Hview as (Hpk & Hcol & Hprim & Hix).
  revert i row. induction columns as [|c columns IH];
    intros i [|val row] Hcols Hlen; simplify_eq/=.
  { eexists. split_and!; [done..|]. lia. }
  destruct (IH (S i) row) as (r & Hr & Hr1 & Hr2); [|done|].
  { intros o. specialize (Hcols (S o)). simpl in Hcols. rewrite Hcols.
    f_equal. lia. }
  assert (∀ v, i ≤ pk → pk < i + S (length columns) →
             (i = pk → val = v ∧ key_ok (type col) v ∧ f v = None) →
             r = None →
             ∃ v, (val :: row) !! (pk - i) = Some v ∧ key_ok (type col) v ∧ f v = None)
    as Hfin.
  { intros v Hle Hlt Hi ->. destruct (decide (i = pk)) as [->|Hne].
    - rewrite Nat.sub_diag. destruct Hi as (-> & ? & ?); eauto.
    - destruct Hr2 as (v' & Hv' & ?); [done|lia|lia|].
      exists v'. replace (pk - i) with (S (pk - S i)) by lia. done. }
  destruct (not_null c && is_null val); [by eexists|].
  destruct (negb (is_null val) && _) eqn:Hty; [by eexists|]. simpl.
  unfold has_index. rewrite Hpk.
  destruct (decide (i = pk)) as [->|Hne]; last first.
  { rewrite (bool_decide_eq_false_2 (Some pk = Some i)) by congruence.
    rewrite !andb_false_r. exists r. split_and!; [done..|].
    intros -> ??. apply (Hfin val); [done..|lia|done]. }
  specialize (Hcols 0). rewrite Nat.add_0_r, Hcol in Hcols. simplify_eq/=.
  rewrite Hprim, !bool_decide_eq_true_2 by eauto. simpl.
  destruct (type col) eqn:Htc; try done; simpl.
  - destruct val as [|z| |]; simpl in *; try done; try (by eexists).
    rewrite (view_find_int _ _ _ _ z Hview Htc). simpl.
    destruct (f (DBInt z)) eqn:Hfz; [by eexists|].
    exists r. split_and!; [done..|]. intros -> ??.
    apply (Hfin (DBInt z)); [done..| |done]. by intros _.
  - destruct val as [| | |z]; simpl in *; try done; try (by eexists).
    rewrite (view_find_text _ _ _ _ z Hview Htc). simpl.
    destruct (f (DBText z)) eqn:Hfz; [by eexists|].
    exists r. split_and!; [done..|]. intros -> ??.
    apply (Hfin (DBText z)); [done..| |done]. by intros _.
Qed.

Lemma index_view_set_rows t pk col f rows :
  index_view t pk col f → index_view (set_rows t rows) pk col f.
Proof. by intros (? & ? & ? & ?). Qed.

Lemma row_indexed_other strict t t' pk col f f' v i row :
  columns_ t' = columns_ t →
  (∀ x, key_ok (type col) x → x ≠ v → f' x = f x) →
  (f v = None ∨ (strict = true ∧ ∀ j, f v = Some j → j ≠ i)) →
  row_indexed strict t pk col f i row →
  row_indexed strict t' pk col f' i row.
Proof.
  intros Hcols Hf' Hv (Hlen & x & Hx & Hok & Hfx).
  split; [congruence|]. exists x. split_and!; [done..|].
  rewrite Hf'; [done..|]. intros ->.
  destruct Hv as [Hv|[-> Hv]]; [|naive_solver].
  rewrite Hv in Hfx. destruct strict; [done|by destruct Hfx].
Qed.

(** [insert_row] either appends the row and records its key, or leaves the
    table as it is. *)
Lemma insert_row_inv strict t pk col row :
  table_inv strict t pk col →
  ∃ t' c, insert_row t row = Ret (t', c) ∧
          table_inv strict t' pk col ∧
          (c = Returned true ∧ rows_ t' = rows_ t ++ [row] ∨
           c ≠ Returned true ∧ t' = t).
Proof.
  intros Hinv. pose proof Hinv as (f & Hview & Hrows & Hnd).
  pose proof Hview as (Hpk & Hcol & Hprim & Hix).
  unfold insert_row. case_bool_decide as Hlen; simpl; [|eauto 10].
  destruct (insert_row_checks_spec t pk col f 0 (columns_ t) row Hview)
    as (r & -> & Hr1 & Hr2); [done..|]. simpl.
  destruct r as [how|]; [eexists _, _; split_and!; [done..|]; right; split; congruence|].
  destruct Hr2 as (v & Hv & Hok & Hfv); [done|lia|by eapply lookup_lt_Some|].
  rewrite Nat.sub_0_r in Hv. rewrite Hpk, Hv.
  destruct (update_index_spec (set_rows t (rows_ t ++ [row])) pk col f v
              (length (rows_ t))) as (t2 & f' & -> & Hview2 & Hr2 & Hc2 & Hf'v & Hf');
    [by apply index_view_set_rows|done|]. simpl in *.
  eexists _, _. split_and!; [done| |by left].
  exists f'. rewrite Hr2. split_and!; [done| |].
  - intros i r [Hi|[Hi Hr]]%lookup_app_Some.
    + eapply row_indexed_other; [done..|by left|by apply Hrows].
    + apply list_lookup_singleton_Some in Hr as [Hi0 <-].
      split; [by rewrite Hc2|]. exists v. split_and!; [done..|].
      replace i with (length (rows_ t)) by lia. rewrite Hf'v. by destruct strict.
  - unfold pk_values. rewrite Hr2, fmap_app. apply NoDup_app. split_and!; [done| |].
    + intros x (r & Hxr & Hr)%list_elem_of_fmap Hx2. simpl in Hx2.
      apply list_elem_of_singleton in Hx2. subst x.
      apply list_elem_of_lookup in Hr as [i Hi].
      destruct (Hrows i r Hi) as (_ & x & Hx & _ & Hfx).
      rewrite Hv in Hx2. simplify_eq. rewrite Hfv in Hfx.
      destruct strict; [done|by destruct Hfx].
    + apply NoDup_singleton.
Qed.

Lemma assign_list_length t (l : list (nat * DBValue)) row :
  length (foldl (λ (r : Row) '(c, x), assign_field t r c x) row l) = length row.
Proof.
  revert row. induction l as [|[j' v'] l IH]; intros row; simpl; [done|].
  rewrite IH. unfold assign_field. case_match; [done|apply length_insert].
Qed.

Lemma assign_list_other t (l : list (nat * DBValue)) row j :
  j ∉ l.*1 →
  foldl (λ (r : Row) '(c, x), assign_field t r c x) row l !! j = row !! j.
Proof.
  revert row. induction l as [|[j' v'] l IH]; intros row Hj; simpl; [done|].
  rewrite fmap_cons, not_elem_of_cons in Hj. destruct Hj as [Hne Hj].
  rewrite IH by done. unfold assign_field. case_match; [done|].
  simpl in *. by apply list_lookup_insert_ne.
Qed.

Lemma assign_list_at t (l : list (nat * DBValue)) row j v col :
  NoDup l.*1 → (j, v) ∈ l → columns_ t !! j = Some col →
  value_type v = type col → j < length row →
  foldl (λ (r : Row) '(c, x), assign_field t r c x) row l !! j = Some v.
Proof.
  intros Hnd Hin Hcol Hty. revert row.
  induction l as [|[j' v'] l IH]; intros row Hlt; simpl; [by apply elem_of_nil in Hin|].
  rewrite fmap_cons in Hnd. apply NoDup_cons in Hnd as [Hnotin Hnd].
  apply elem_of_cons in Hin as [Heq|Hin].
  - simplify_eq. rewrite assign_list_other by done.
    unfold assign_field. rewrite Hcol. simpl.
    rewrite (bool_decide_eq_true_2 (Some _ = Some _)) by congruence.
    rewrite andb_false_r. by apply list_lookup_insert_eq.
  - apply IH; [done..|]. unfold assign_field. case_match; [done|].
    by rewrite length_insert.
Qed.

Lemma assign_fields_length t m row :
  length (assign_fields t m row) = length row.
Proof. apply assign_list_length. Qed.

Lemma assign_fields_other t (m : gmap nat DBValue) row j :
  m !! j = None → assign_fields t m row !! j = row !! j.
Proof.
  intros Hj. apply assign_list_other.
  intros [[j' v] [-> Hin]]%list_elem_of_fmap.
  apply elem_of_map_to_list in Hin. simpl in *. congruence.
Qed.

Lemma assign_fields_at t (m : gmap nat DBValue) row j v col :
  m !! j = Some v → columns_ t !! j = Some col →
  value_type v = type col → j < length row →
  assign_fields t m row !! j = Some v.
Proof.
  intros Hj ???. eapply assign_list_at; [|by apply elem_of_map_to_list|done..].
  apply NoDup_fst_map_to_list.
Qed.

(** The uniqueness check of [update]. *)
Lemma duplicate_key_spec t pk col f v i :
  index_view t pk col f →
  (key_ok (type col) v ∧
   duplicate_key t pk v i =
     Ret (Returned (if f v is Some e then negb (bool_decide (e = i)) else false))) ∨
  (¬ key_ok (type col) v ∧ duplicate_key t pk v i = Ret (Thrown bad_variant_access)).
Proof.
  intros Hview. pose proof Hview as (Hpk & Hcol & Hprim & Hix).
  unfold duplicate_key. rewrite Hcol.
  destruct (type col) eqn:Hty; try done; simpl.
  - destruct v as [|z| |]; simpl; try (right; split; [by intros []|done]).
    left. split; [done|]. by rewrite (view_find_int _ _ _ _ z Hview Hty).
  - destruct v as [| | |z]; simpl; try (right; split; [by intros []|done]).
    left. split; [done|]. by rewrite (view_find_text _ _ _ _ z Hview Hty).
Qed.

Lemma strict_NoDup t pk col f :
  (∀ i row, rows_ t !! i = Some row → row_indexed true t pk col f i row) →
  NoDup (pk_values t pk).
Proof.
  intros Hrows. apply NoDup_alt. intros a b x Ha Hb. unfold pk_values in *.
  rewrite list_lookup_fmap in Ha, Hb.
  destruct (rows_ t !! a) as [ra|] eqn:Hra; [|done].
  destruct (rows_ t !! b) as [rb|] eqn:Hrb; [|done]. simplify_eq/=.
  destruct (Hrows _ _ Hra) as (_ & va & Hva & _ & Hfa).
  destruct (Hrows _ _ Hrb) as (_ & vb & Hvb & _ & Hfb).
  rewrite Ha in Hva. simplify_eq. congruence.
Qed.

(** One iteration of the loop of [update] keeps a strict index strict. *)
Lemma update_row_inv t pk col (m : gmap nat DBValue) conds i :
  table_inv true t pk col → i < length (rows_ t) →
  ∃ t' c, update_row t m conds i = Ret (t', c) ∧
          table_inv true t' pk col ∧
          length (rows_ t') = length (rows_ t).
Proof.
  intros Hinv Hi. pose proof Hinv as (f & Hview & Hrows & Hnd).
  pose proof Hview as (Hpk & Hcol & Hprim & Hix).
  unfold update_row.
  destruct (rows_ t !! i) as [row|] eqn:Hrow; last first.
  { apply lookup_ge_None in Hrow. lia. }
  destruct (row_matches t row conds); [|by eauto 10].
  rewrite Hpk.
  destruct (Hrows i row Hrow) as (Hlen & v & Hv & Hok & Hfv).
  pose proof (lookup_lt_Some _ _ _ Hcol) as Hpklt.
  set (row' := assign_fields t m row).
  assert (length row' = length (columns_ t)) as Hlen'.
  { unfold row'. by rewrite assign_fields_length. }
  destruct (m !! pk) as [new|] eqn:Hm; simpl.
  - destruct (duplicate_key_spec t pk col f new i Hview) as [[Hnew ->]|[Hnew ->]];
      simpl; [|by eauto 10].
    assert (row' !! pk = Some new) as Hnew'.
    { eapply assign_fields_at; [done..|by apply key_ok_type|lia]. }
    destruct (f new) as [e|] eqn:Hfnew; simpl;
      [case_bool_decide as He; simpl; [subst e|by eauto 10]|].
    all: rewrite Hnew'.
    all: destruct (update_index_spec (set_rows t (<[i:=row']> (rows_ t))) pk col f new i)
        as (t2 & f' & -> & Hview2 & Hr2 & Hc2 & Hf'new & Hf');
        [by apply index_view_set_rows|done|]; simpl in *.
    all: eexists _, _; split_and!; [done| |by rewrite Hr2, length_insert].
    all: assert (∀ j r, rows_ t2 !! j = Some r → row_indexed true t2 pk col f' j r)
        as Hrows2;
      [|exists f'; split_and!; [done..|]; by eapply strict_NoDup].
    all: intros j r Hj; rewrite Hr2 in Hj.
    all: destruct (decide (j = i)) as [->|Hne];
      [rewrite list_lookup_insert_eq in Hj by done; simplify_eq;
       split; [congruence|]; by exists new|].
    all: rewrite list_lookup_insert_ne in Hj by done.
    all: eapply row_indexed_other; [done..| |by apply Hrows]; rewrite Hfnew.
    + right. split; [done|]. intros ??. congruence.
    + by left.
  - eexists _, _. split_and!; [done| |by simpl; rewrite length_insert].
    assert (row' !! pk = Some v) as Hv'.
    { unfold row'. by rewrite assign_fields_other. }
    assert (∀ j r, <[i:=row']> (rows_ t) !! j = Some r →
                   row_indexed true t pk col f j r) as Hrows2.
    { intros j r Hj. destruct (decide (j = i)) as [->|Hne].
      - rewrite list_lookup_insert_eq in Hj by done. simplify_eq.
        split; [done|]. by exists v.
      - rewrite list_lookup_insert_ne in Hj by done. by apply Hrows. }
    exists f. split_and!; [by apply index_view_set_rows|done|].
    by eapply (strict_NoDup (set_rows t _)).
Qed.

Lemma update_loop_inv n t pk col (m : gmap nat DBValue) conds i count :
  table_inv true t pk col → i + n = length (rows_ t) →
  ∃ t' c, update_loop n t m conds i count = Ret (t', c) ∧
          table_inv true t' pk col.
Proof.
  revert t i count. induction n as [|n IH]; intros t i count Hinv Hlen; simpl.
  { by eauto. }
  destruct (update_row_inv t pk col m conds i Hinv) as (t1 & c & -> & Hinv1 & Hlen1);
    [lia|]. simpl.
  destruct c as [counted|e]; [|by eauto]. apply IH; [done|lia].
Qed.

Lemma update_inv t pk col updates conds :
  table_inv true t pk col →
  ∃ t' c, update t updates conds = Ret (t', c) ∧ table_inv true t' pk col.
Proof. intros Hinv. by apply update_loop_inv. Qed.

(** [remove] leaves the index alone: every remaining row still has an
    entry, though no longer at its position. *)
Lemma table_inv_weaken t pk col : table_inv true t pk col → table_inv false t pk col.
Proof.
  intros (f & Hview & Hrows & Hnd). exists f. split_and!; [done| |done].
  intros i row Hrow. destruct (Hrows i row Hrow) as (? & v & ? & ? & Hf).
  split; [done|]. exists v. by rewrite Hf.
Qed.

Lemma remove_inv t pk col conds :
  table_inv false t pk col → table_inv false (remove t conds).1 pk col.
Proof.
  intros (f & Hview & Hrows & Hnd). exists f. simpl.
  split_and!; [by apply index_view_set_rows| |].
  - intros i row Hrow.
    assert (row ∈ rows_ t) as [j Hj]%list_elem_of_lookup.
    { apply list_elem_of_lookup_2 in Hrow. simpl in Hrow.
      by apply list_elem_of_filter in Hrow as [_ ?]. }
    destruct (Hrows j row Hj) as (? & v & ? & ? & ?). split; [done|]. by exists v.
  - unfold pk_values in *. simpl.
    refine (sublist_NoDup _ _ Hnd _). apply fmap_sublist, sublist_filter.
Qed.

(** A new table with an indexed primary key. *)
Lemma first_primary_key_spec i columns pk :
  first_primary_key i columns = Some pk →
  i ≤ pk ∧ ∃ col, columns !! (pk - i) = Some col ∧ primary_key col = true.
Proof.
  revert i. induction columns as [|c columns IH]; intros i; simpl; [done|].
  destruct (primary_key c) eqn:Hc.
  - intros [= ->]. split; [done|]. rewrite Nat.sub_diag. eauto.
  - intros [Hle (col & Hcol & ?)]%IH. split; [lia|]. exists col.
    replace (pk - i) with (S (pk - S i)) by lia. done.
Qed.

Lemma indexed_pk_spec columns pk col :
  indexed_pk columns = Some (pk, col) →
  first_primary_key 0 columns = Some pk ∧ columns !! pk = Some col ∧
  primary_key col = true ∧ (type col = Int ∨ type col = Text).
Proof.
  unfold indexed_pk. intros H.
  destruct (first_primary_key 0 columns) as [pk'|] eqn:Hpk; simpl in H; [|done].
  destruct (columns !! pk') as [col'|] eqn:Hcol; simpl in H; [|done].
  case_bool_decide; simplify_eq.
  apply first_primary_key_spec in Hpk as [_ (c & Hc & ?)].
  rewrite Nat.sub_0_r in Hc. by simplify_eq.
Qed.

Lemma new_Table_inv n columns pk col :
  indexed_pk columns = Some (pk, col) →
  table_inv true (new_Table n columns) pk col.
Proof.
  intros (Hpk & Hcol & Hprim & Hty)%indexed_pk_spec.
  exists (λ _, None). unfold new_Table. rewrite Hpk. simpl. rewrite Hcol. simpl.
  split_and!; [|done|constructor].
  split_and!; simpl; [done..|].
  destruct Hty as [-> | ->]; simpl; exists BPlusTree.empty, [];
    split_and!; try done; apply wf_empty.
Qed.

Lemma run_table_op_strict t pk col o :
  table_inv true t pk col → is_remove o = false →
  ∃ t', run_table_op t o = Ret t' ∧ table_inv true t' pk col.
Proof.
  intros Hinv Ho. destruct o as [row|updates conds|conds]; simpl in *; [| |done].
  - destruct (insert_row_inv true t pk col row Hinv) as (t' & c & -> & ? & _).
    by exists t'.
  - destruct (update_inv t pk col updates conds Hinv) as (t' & c & -> & ?).
    by exists t'.
Qed.

Lemma run_table_op_lax t pk col o :
  table_inv false t pk col → is_update o = false →
  ∃ t', run_table_op t o = Ret t' ∧ table_inv false t' pk col.
Proof.
  intros Hinv Ho. destruct o as [row|updates conds|conds]; simpl in *; [|done|].
  - destruct (insert_row_inv false t pk col row Hinv) as (t' & c & -> & ? & _).
    by exists t'.
  - eexists. split; [done|]. by apply remove_inv.
Qed.

Lemma run_table_ops_cons t o ops :
  run_table_ops t (o :: ops) = (t' ← run_table_op t o; run_table_ops t' ops).
Proof.
  unfold run_table_ops. simpl. destruct (run_table_op t o) as [t'| |]; simpl; [done| |].
  - by induction ops.
  - by induction ops.
Qed.

Lemma run_table_ops_strict t pk col ops :
  table_inv true t pk col → forallb (λ o, negb (is_remove o)) ops = true →
  ∃ t', run_table_ops t ops = Ret t' ∧ table_inv true t' pk col.
Proof.
  revert t. induction ops as [|o ops IH]; intros t Hinv Hops; [by exists t|].
  simpl in Hops. apply andb_true_iff in Hops as [Ho Hops].
  apply negb_true_iff in Ho.
  destruct (run_table_op_strict t pk col o Hinv Ho) as (t1 & Hr & Hinv1).
  rewrite run_table_ops_cons, Hr. simpl. by apply IH.
Qed.

Lemma run_table_ops_lax t pk col ops :
  table_inv false t pk col → forallb (λ o, negb (is_update o)) ops = true →
  ∃ t', run_table_ops t ops = Ret t' ∧ table_inv false t' pk col.
Proof.
  revert t. induction ops as [|o ops IH]; intros t Hinv Hops; [by exists t|].
  simpl in Hops. apply andb_true_iff in Hops as [Ho Hops].
  apply negb_true_iff in Ho.
  destruct (run_table_op_lax t pk col o Hinv Ho) as (t1 & Hr & Hinv1).
  rewrite run_table_ops_cons, Hr. simpl. by apply IH.
Qed.

Lemma run_table_ops_inv t pk col ops :
  table_inv true t pk col → no_update_after_remove ops = true →
  ∃ t', run_table_ops t ops = Ret t' ∧ table_inv false t' pk col.
Proof.
  revert t. induction ops as [|o ops IH]; intros t Hinv Hops.
  { exists t. split; [done|]. by apply table_inv_weaken. }
  destruct (is_remove o) eqn:Ho.
  - destruct o; try done. simpl in Hops.
    apply (run_table_ops_lax t pk col (TRemove conditions :: ops)).
    + by apply table_inv_weaken.
    + done.
  - destruct (run_table_op_strict t pk col o Hinv Ho) as (t1 & Hr & Hinv1).
    rewrite run_table_ops_cons, Hr. simpl. apply IH; [done|]. by destruct o.
Qed.

(** A [select] on the key goes through the index. *)
Lemma select_by_key t pk col f v :
  index_view t pk col f → key_ok (type col) v →
  select t [mkCondition (name col) "=" v] = Ret (row_at t (f v)).
Proof.
  intros Hview Hv. pose proof Hview as (Hpk & Hcol & Hprim & Hix).
  unfold select. rewrite Hpk, Hcol. simpl.
  rewrite !bool_decide_eq_true_2 by done. simpl.
  destruct (type col) eqn:Hty; try done.
  - apply key_ok_Int in Hv as [z ->].
    by rewrite (view_find_int _ _ _ _ z Hview Hty).
  - apply key_ok_Text in Hv as [z ->].
    by rewrite (view_find_text _ _ _ _ z Hview Hty).
Qed.

Lemma column_index_from_spec i columns n j :
  column_index_from i columns n = Some j →
  i ≤ j ∧ ∃ c, columns !! (j - i) = Some c ∧ name c = n.
Proof.
  revert i. induction columns as [|c columns IH]; intros i; simpl; [done|].
  case_bool_decide as Hn.
  - intros [= ->]. split; [done|]. rewrite Nat.sub_diag. eauto.
  - intros [Hle (c' & Hc' & ?)]%IH. split; [lia|]. exists c'.
    replace (j - i) with (S (j - S i)) by lia. done.
Qed.

Lemma resolve_updates_Some t (updates : gmap string DBValue) j v :
  resolve_updates t updates !! j = Some v →
  ∃ n, updates !! n = Some v ∧ column_index t n = Some j.
Proof.
  unfold resolve_updates. revert j v.
  apply (map_fold_weak_ind (λ (acc : gmap nat DBValue) (m : gmap string DBValue),
    ∀ j v, acc !! j = Some v → ∃ n, m !! n = Some v ∧ column_index t n = Some j)).
  { intros j v. by rewrite lookup_empty. }
  intros n x m acc Hn IH j v.
  destruct (column_index t n) as [idx|] eqn:Hidx.
  - destruct (decide (idx = j)) as [->|Hne].
    + rewrite lookup_insert_eq. intros [= ->]. exists n. by rewrite lookup_insert_eq.
    + rewrite lookup_insert_ne by done. intros (n' & Hn' & ?)%IH.
      exists n'. rewrite lookup_insert_ne by congruence. done.
  - intros (n' & Hn' & ?)%IH. exists n'. rewrite lookup_insert_ne by congruence. done.
Qed.

End db_lemmas.

(** ** Tables: no operation goes wrong *)

Section db_safety.
Import db.
Implicit Types (t : Table) (row : Row) (v : DBValue) (col : ColumnDef).

Lemma index_ok_find_int t pk col z :
  index_ok t → primary_key_index_ t = Some pk → columns_ t !! pk = Some col →
  type col = Int → ∃ r, index_find (int_index_ t) z = Ret r.
Proof.
  unfold index_ok. intros Hok Hpk Hcol Hty. rewrite Hpk in Hok.
  destruct Hok as (col' & Hcol' & _ & Hint & _). simplify_eq.
  destruct (Hint Hty) as (ix & kvs & -> & Hwf). eexists. by apply find_wf.
Qed.

Lemma index_ok_find_text t pk col z :
  index_ok t → primary_key_index_ t = Some pk → columns_ t !! pk = Some col →
  type col = Text → ∃ r, index_find (text_index_ t) z = Ret r.
Proof.
  unfold index_ok. intros Hok Hpk Hcol Hty. rewrite Hpk in Hok.
  destruct Hok as (col' & Hcol' & _ & _ & Htext). simplify_eq.
  destruct (Htext Hty) as (ix & kvs & -> & Hwf). eexists. by apply find_wf.
Qed.

Lemma index_ok_set_rows t rows : index_ok t → index_ok (set_rows t rows).
Proof. done. Qed.

(** The checks of [insert_row] end the call, or they pass, and then the
    row is one the columns admit. *)
Lemma insert_row_checks_ok t i columns row :
  index_ok t → (∀ o, columns !! o = columns_ t !! (i + o)) →
  length row = length columns →
  ∃ r, insert_row_checks t i columns row = Ret r ∧
       r ≠ Some (Returned true) ∧
       (r = None → row_admitted columns row).
Proof.
  intros Hok. revert i row. induction columns as [|c columns IH];
    intros i [|val row] Hcols Hlen; simplify_eq/=.
  { eexists. split_and!; [done..|]. by constructor. }
  destruct (IH (S i) row) as (r & Hr & Hr1 & Hr2); [|done|].
  { intros o. specialize (Hcols (S o)). simpl in Hcols. rewrite Hcols.
    f_equal. lia. }
  destruct (not_null c && is_null val) eqn:Hnn; [by eexists|].
  destruct (negb (is_null val) && _) eqn:Hty; [by eexists|]. simpl.
  assert (value_admitted c val) as Hadm.
  { split.
    - intros Hc. rewrite Hc in Hnn. by destruct (is_null val).
    - unfold value_fits. destruct (is_null val); [by left|right]. simpl in Hty.
      apply negb_false_iff in Hty. by apply bool_decide_eq_true in Hty. }
  assert (∃ r', (r' = r ∨ ∃ c', r' = Some c' ∧ c' ≠ Returned true) ∧
    (if primary_key c && has_index t && bool_decide (primary_key_index_ t = Some i)
     then
       if bool_decide (type c = Int) then
         match get_DBInt val with
         | None => Ret (Some (Thrown bad_variant_access))
         | Some key =>
             found ← index_find (int_index_ t) key;
             if found is Some _ then Ret (Some (Returned false))
             else insert_row_checks t (S i) columns row
         end
       else if bool_decide (type c = Text) then
         match get_DBText val with
         | None => Ret (Some (Thrown bad_variant_access))
         | Some key =>
             found ← index_find (text_index_ t) key;
             if found is Some _ then Ret (Some (Returned false))
             else insert_row_checks t (S i) columns row
         end
       else insert_row_checks t (S i) columns row
     else insert_row_checks t (S i) columns row) = Ret r') as (r' & Hr' & ->).
  { assert (∀ c' : call bool, c' ≠ Returned true →
      ∃ r', (r' = r ∨ ∃ c', r' = Some c' ∧ c' ≠ Returned true) ∧
            Ret (Some c') = Ret r') as Hstop by eauto 10.
    clear Hty Hnn. rewrite Hr. destruct (primary_key c && _ && _) eqn:Hpk; [|by eauto].
    apply andb_true_iff in Hpk as [_ Hpk%bool_decide_eq_true].
    specialize (Hcols 0). rewrite Nat.add_0_r in Hcols. simpl in Hcols.
    case_bool_decide as Hint.
    { destruct (get_DBInt val) as [z|]; [|by apply Hstop].
      destruct (index_ok_find_int t i c z) as [found ->]; [done..|]. simpl.
      destruct found; [by apply Hstop|by eauto]. }
    case_bool_decide as Htext; [|by eauto].
    destruct (get_DBText val) as [z|]; [|by apply Hstop].
    destruct (index_ok_find_text t i c z) as [found ->]; [done..|]. simpl.
    destruct found; [by apply Hstop|by eauto]. }
  exists r'. split; [done|]. destruct Hr' as [->|(c' & -> & Hc')].
  - split; [done|]. intros ->. constructor; [done|]. by apply Hr2.
  - split; [congruence|done].
Qed.

Lemma update_index_ok t key i :
  index_ok t →
  ∃ t' c, update_index t key i = Ret (t', c) ∧ index_ok t' ∧
          rows_ t' = rows_ t ∧ columns_ t' = columns_ t ∧
          primary_key_index_ t' = primary_key_index_ t.
Proof.
  intros Hok. unfold update_index. pose proof Hok as Hok'. unfold index_ok in Hok'.
  destruct (primary_key_index_ t) as [pk|] eqn:Hpk; [|by eauto 10].
  destruct Hok' as (col & Hcol & Hprim & Hint & Htext). rewrite Hcol.
  destruct (type col) eqn:Hty; try by eauto 10.
  - destruct (Hint eq_refl) as (ix & kvs & Hix & Hwf). rewrite Hix.
    destruct (get_DBInt key) as [z|]; [|by eauto 10].
    destruct (insert_wf 4 ix kvs z i Hwf) as (ix' & -> & Hwf'). simpl.
    eexists _, _. split_and!; try done.
    unfold index_ok. simpl. rewrite Hpk. exists col. split_and!; [done..| |].
    + intros _. by exists ix', (ins z i kvs).
    + by rewrite Hty.
  - destruct (int_index_ t); (destruct (Htext eq_refl) as (ix & kvs & Hix & Hwf);
      rewrite Hix; destruct (get_DBText key) as [z|]; [|by eauto 10];
      destruct (insert_wf 4 ix kvs z i Hwf) as (ix' & -> & Hwf'); simpl;
      eexists _, _; split_and!; try done;
      unfold index_ok; simpl; rewrite Hpk; exists col; split_and!; [done..| |];
      [by rewrite Hty|intros _; by exists ix', (ins z i kvs)]).
Qed.

Lemma row_admitted_fits columns row : row_admitted columns row → row_fits columns row.
Proof. intros H. eapply Forall2_impl; [exact H|]. by intros ?? [_ ?]. Qed.

Lemma insert_row_ok t row :
  table_ok t →
  ∃ t' c, insert_row t row = Ret (t', c) ∧ table_ok t' ∧
          columns_ t' = columns_ t ∧
          primary_key_index_ t' = primary_key_index_ t ∧
          (rows_ t' = rows_ t ∨ rows_ t' = rows_ t ++ [row] ∧ row_admitted (columns_ t) row).
Proof.
  intros Ht. pose proof Ht as [Hok Hrows]. unfold insert_row.
  assert (∀ c : call bool, ∃ t' c',
    Ret (t, c) = Ret (t', c') ∧ table_ok t' ∧ columns_ t' = columns_ t ∧
    primary_key_index_ t' = primary_key_index_ t ∧
    (rows_ t' = rows_ t ∨ rows_ t' = rows_ t ++ [row] ∧ row_admitted (columns_ t) row))
    as Hsame.
  { intros c. eexists _, _. split_and!; [done..|by left]. }
  case_bool_decide as Hlen; simpl; [|by apply Hsame].
  destruct (insert_row_checks_ok t 0 (columns_ t) row Hok) as (r & -> & Hr1 & Hr2);
    [done..|]. simpl.
  destruct r as [how|]; [by apply Hsame|]. specialize (Hr2 eq_refl).
  assert (Forall (row_fits (columns_ t)) (rows_ t ++ [row])) as Hrows'.
  { apply Forall_app. split; [done|]. constructor; [|done]. by apply row_admitted_fits. }
  destruct (primary_key_index_ t) as [pk|] eqn:Hpk; simpl; rewrite ?Hpk; last first.
  { eexists _, _. split_and!; [done| |done..|by right]. split; [|done].
    unfold index_ok. simpl. by rewrite Hpk. }
  assert (is_Some (row !! pk)) as [key ->].
  { apply lookup_lt_is_Some. rewrite Hlen. unfold index_ok in Hok. rewrite Hpk in Hok.
    destruct Hok as (col & Hcol & _). by eapply lookup_lt_Some. }
  destruct (update_index_ok (set_rows t (rows_ t ++ [row])) key (length (rows_ t)))
    as (t2 & c & -> & Hok2 & Hr & Hc & Hp); [done|]. simpl in *.
  exists t2. destruct c; eexists; (split_and!; [done| |done|by rewrite Hp|by right; rewrite Hr]).
  all: split; [done|]; by rewrite Hc, Hr.
Qed.

Lemma assign_field_fits t row j v :
  row_fits (columns_ t) row → row_fits (columns_ t) (assign_field t row j v).
Proof.
  intros Hrow. unfold assign_field.
  destruct (negb (is_null v) && _) eqn:Hskip; [done|].
  apply Forall2_same_length_lookup. apply Forall2_same_length_lookup in Hrow as [Hlen Hrow].
  split; [by rewrite length_insert|]. intros i col x Hcol Hx.
  destruct (decide (i = j)) as [->|Hne]; [|rewrite list_lookup_insert_ne in Hx by done; eauto].
  apply list_lookup_insert_Some in Hx as [(_ & <- & _)|[? _]]; [|done].
  rewrite Hcol in Hskip. simpl in Hskip. unfold value_fits.
  destruct (is_null v); [by left|right]. simpl in Hskip.
  apply negb_false_iff, bool_decide_eq_true in Hskip. congruence.
Qed.

Lemma assign_fields_fits t (m : gmap nat DBValue) row :
  row_fits (columns_ t) row → row_fits (columns_ t) (assign_fields t m row).
Proof.
  unfold assign_fields. generalize (map_to_list m). intros l. revert row.
  induction l as [|[j v] l IH]; intros row Hrow; simpl; [done|].
  by apply IH, assign_field_fits.
Qed.

Lemma duplicate_key_ok t pk v i :
  index_ok t → primary_key_index_ t = Some pk →
  ∃ c, duplicate_key t pk v i = Ret c.
Proof.
  intros Hok Hpk. unfold duplicate_key. pose proof Hok as Hok'.
  unfold index_ok in Hok'. rewrite Hpk in Hok'.
  destruct Hok' as (col & Hcol & _). rewrite Hcol.
  case_bool_decide as Hint.
  { destruct (get_DBInt v) as [z|]; [|by eauto].
    destruct (index_ok_find_int t pk col z) as [found ->]; [done..|]. by eexists. }
  case_bool_decide as Htext; [|by eauto].
  destruct (get_DBText v) as [z|]; [|by eauto].
  destruct (index_ok_find_text t pk col z) as [found ->]; [done..|]. by eexists.
Qed.

Lemma table_ok_set_row t i row :
  table_ok t → row_fits (columns_ t) row →
  table_ok (set_rows t (<[i:=row]> (rows_ t))).
Proof.
  intros [Hok Hrows] Hrow. split; [done|]. simpl.
  destruct (decide (i < length (rows_ t))).
  - by apply Forall_insert.
  - by rewrite list_insert_ge by lia.
Qed.

Lemma update_row_ok t (m : gmap nat DBValue) conds i :
  table_ok t → i < length (rows_ t) →
  ∃ t' c, update_row t m conds i = Ret (t', c) ∧ table_ok t' ∧
          columns_ t' = columns_ t ∧
          primary_key_index_ t' = primary_key_index_ t ∧
          length (rows_ t') = length (rows_ t).
Proof.
  intros Ht Hi. pose proof Ht as [Hok Hrows]. unfold update_row.
  destruct (rows_ t !! i) as [row|] eqn:Hrow; last first.
  { apply lookup_ge_None in Hrow. lia. }
  assert (row_fits (columns_ t) row) as Hfits.
  { rewrite Forall_forall in Hrows. apply Hrows. by eapply list_elem_of_lookup_2. }
  destruct (row_matches t row conds); [|by eauto 10].
  pose proof (assign_fields_fits t m row Hfits) as Hfits'.
  pose proof (table_ok_set_row t i _ Ht Hfits') as Ht1.
  destruct (primary_key_index_ t) as [pk|] eqn:Hpk; last first.
  { simpl. eexists _, _. split_and!; [done..|]. simpl. by rewrite length_insert. }
  destruct (m !! pk) as [new|] eqn:Hm; last first.
  { simpl. eexists _, _. split_and!; [done..|]. simpl. by rewrite length_insert. }
  destruct (duplicate_key_ok t pk new i Hok Hpk) as [skip ->]. simpl.
  destruct skip as [[]|e]; [by eauto 10| |by eauto 10].
  assert (is_Some (assign_fields t m row !! pk)) as [key ->].
  { apply lookup_lt_is_Some. apply Forall2_length in Hfits'. rewrite <-Hfits'.
    unfold index_ok in Hok. rewrite Hpk in Hok.
    destruct Hok as (col & Hcol & _). by eapply lookup_lt_Some. }
  destruct Ht1 as [Hok1 Hrows1].
  destruct (update_index_ok _ key i Hok1) as (t2 & c & -> & Hok2 & Hr & Hc & Hp).
  simpl in *.
  exists t2. destruct c; eexists;
    (split_and!; [done| |done|by rewrite Hp|by rewrite Hr, length_insert]).
  all: split; [done|]; by rewrite Hc, Hr.
Qed.

Lemma update_loop_ok n t (m : gmap nat DBValue) conds i count :
  table_ok t → i + n = length (rows_ t) →
  ∃ t' c, update_loop n t m conds i count = Ret (t', c) ∧ table_ok t' ∧
          columns_ t' = columns_ t ∧
          primary_key_index_ t' = primary_key_index_ t ∧
          length (rows_ t') = length (rows_ t).
Proof.
  revert t i count. induction n as [|n IH]; intros t i count Ht Hlen; simpl.
  { by eauto 10. }
  destruct (update_row_ok t m conds i Ht) as (t1 & c & -> & Ht1 & Hc1 & Hp1 & Hl1);
    [lia|]. simpl.
  destruct c as [counted|e]; [|by eauto 10].
  destruct (IH t1 (S i) (if counted then S count else count) Ht1)
    as (t2 & c2 & -> & Ht2 & Hc2 & Hp2 & Hl2); [lia|].
  eexists _, _. split_and!; [done..|congruence|congruence|congruence].
Qed.

Lemma update_ok t updates conds :
  table_ok t →
  ∃ t' c, update t updates conds = Ret (t', c) ∧ table_ok t' ∧
          columns_ t' = columns_ t ∧
          primary_key_index_ t' = primary_key_index_ t ∧
          length (rows_ t') = length (rows_ t).
Proof. intros Ht. by apply update_loop_ok. Qed.

Lemma remove_ok t conds : table_ok t → table_ok (remove t conds).1.
Proof.
  intros [Hok Hrows]. split; [done|]. simpl.
  rewrite Forall_forall in *. intros row [_ ?]%list_elem_of_filter. by apply Hrows.
Qed.

Lemma new_Table_ok n columns : table_ok (new_Table n columns).
Proof.
  split; [|by constructor]. unfold index_ok, new_Table. simpl.
  destruct (first_primary_key 0 columns) as [pk|] eqn:Hpk; [|done].
  apply first_primary_key_spec in Hpk as [_ (col & Hcol & Hprim)].
  rewrite Nat.sub_0_r in Hcol. exists col. simpl. rewrite Hcol. simpl.
  split_and!; [done..| |]; intros ->.
  - rewrite bool_decide_eq_true_2 by done. eexists _, []. split; [done|]. apply wf_empty.
  - rewrite (bool_decide_eq_true_2 (Some Text = Some Text)) by done.
    eexists _, []. split; [done|]. apply wf_empty.
Qed.

Lemma run_table_op_ok t o :
  table_ok t →
  ∃ t', run_table_op t o = Ret t' ∧ table_ok t' ∧ columns_ t' = columns_ t ∧
        primary_key_index_ t' = primary_key_index_ t.
Proof.
  intros Ht. destruct o as [row|updates conds|conds]; simpl.
  - destruct (insert_row_ok t row Ht) as (t' & c & -> & ? & ? & ? & _). by exists t'.
  - destruct (update_ok t updates conds Ht) as (t' & c & -> & ? & ? & ? & _). by exists t'.
  - eexists. split; [done|]. split; [by apply remove_ok|done].
Qed.

Lemma run_table_ops_ok t ops :
  table_ok t →
  ∃ t', run_table_ops t ops = Ret t' ∧ table_ok t' ∧ columns_ t' = columns_ t ∧
        primary_key_index_ t' = primary_key_index_ t.
Proof.
  revert t. induction ops as [|o ops IH]; intros t Ht; [by exists t|].
  destruct (run_table_op_ok t o Ht) as (t1 & Hr & Ht1 & Hc1 & Hp1).
  rewrite run_table_ops_cons, Hr. simpl.
  destruct (IH t1 Ht1) as (t2 & -> & ? & ? & ?). exists t2.
  split_and!; [done..|congruence|congruence].
Qed.

End db_safety.

(** ** Tables: updates that do not assign the key *)

Section db_key_lemmas.
Import db.
Implicit Types (t : Table) (row : Row) (v : DBValue) (col : ColumnDef).

Lemma resolve_updates_not_key t pk (updates : gmap string DBValue) :
  ¬ map_Exists (λ n _, column_index_from 0 (columns_ t) n = Some pk) updates →
  resolve_updates t updates !! pk = None.
Proof.
  intros Hno. destruct (resolve_updates t updates !! pk) as [v|] eqn:Hv; [|done].
  apply resolve_updates_Some in Hv as (n & Hn & Hidx).
  destruct Hno. by exists n, v.
Qed.

Lemma pk_values_set_row t pk i row row' :
  rows_ t !! i = Some row → row' !! pk = row !! pk →
  pk_values (set_rows t (<[i := row']> (rows_ t))) pk = pk_values t pk.
Proof.
  intros Hrow Hpk. unfold pk_values. simpl. rewrite list_fmap_insert, Hpk.
  apply list_insert_id. by rewrite list_lookup_fmap, Hrow.
Qed.

(** An [update] that does not assign the key leaves the index alone, so it
    is harmless also when the index is stale. *)
Lemma update_row_lax t pk col (m : gmap nat DBValue) conds i :
  table_inv false t pk col → m !! pk = None → i < length (rows_ t) →
  ∃ t' c, update_row t m conds i = Ret (t', c) ∧ table_inv false t' pk col ∧
          length (rows_ t') = length (rows_ t).
Proof.
  intros Hinv Hm Hi. pose proof Hinv as (f & Hview & Hrows & Hnd).
  pose proof Hview as (Hpk & Hcol & Hprim & Hix).
  unfold update_row.
  destruct (rows_ t !! i) as [row|] eqn:Hrow; last first.
  { apply lookup_ge_None in Hrow. lia. }
  destruct (row_matches t row conds); [|by eauto 10].
  rewrite Hpk, Hm. simpl.
  destruct (Hrows i row Hrow) as (Hlen & v & Hv & Hok & Hfv).
  assert (assign_fields t m row !! pk = row !! pk) as Hv'.
  { by rewrite assign_fields_other. }
  eexists _, _. split_and!; [done| |by simpl; rewrite length_insert].
  exists f. split_and!; [by apply index_view_set_rows| |].
  - simpl. intros j r Hj. destruct (decide (j = i)) as [->|Hne].
    + rewrite list_lookup_insert_eq in Hj by done. simplify_eq.
      split; [by rewrite assign_fields_length|]. exists v. by rewrite Hv'.
    + rewrite list_lookup_insert_ne in Hj by done. by apply Hrows.
  - by rewrite (pk_values_set_row t pk i row).
Qed.

Lemma update_loop_lax n t pk col (m : gmap nat DBValue) conds i count :
  table_inv false t pk col → m !! pk = None → i + n = length (rows_ t) →
  ∃ t' c, update_loop n t m conds i count = Ret (t', c) ∧ table_inv false t' pk col.
Proof.
  revert t i count. induction n as [|n IH]; intros t i count Hinv Hm Hlen; simpl.
  { by eauto. }
  destruct (update_row_lax t pk col m conds i Hinv Hm) as (t1 & c & -> & Hinv1 & Hlen1);
    [lia|]. simpl.
  destruct c as [counted|e]; [|by eauto]. apply IH; [done..|lia].
Qed.

Lemma run_table_op_lax_key t pk col o :
  table_inv false t pk col → assigns_key (columns_ t) pk o = false →
  ∃ t', run_table_op t o = Ret t' ∧ table_inv false t' pk col.
Proof.
  intros Hinv Ho. destruct o as [row|updates conds|conds]; simpl in *.
  - destruct (insert_row_inv false t pk col row Hinv) as (t' & c & -> & ? & _).
    by exists t'.
  - apply bool_decide_eq_false in Ho.
    destruct (update_loop_lax (length (rows_ t)) t pk col
                (resolve_updates t updates) conds 0 0 Hinv)
      as (t' & c & Hr & Hinv'); [by apply resolve_updates_not_key|done|].
    unfold update. rewrite Hr. by exists t'.
  - eexists. split; [done|]. by apply remove_inv.
Qed.

Lemma run_table_ops_lax_key t pk col ops :
  table_inv false t pk col → table_ok t →
  forallb (λ o, negb (assigns_key (columns_ t) pk o)) ops = true →
  ∃ t', run_table_ops t ops = Ret t' ∧ table_inv false t' pk col.
Proof.
  revert t. induction ops as [|o ops IH]; intros t Hinv Hok Hops; [by exists t|].
  simpl in Hops. apply andb_true_iff in Hops as [Ho Hops].
  apply negb_true_iff in Ho.
  destruct (run_table_op_lax_key t pk col o Hinv Ho) as (t1 & Hr & Hinv1).
  destruct (run_table_op_ok t o Hok) as (t1' & Hr' & Hok1 & Hcols & _).
  rewrite Hr in Hr'. injection Hr' as <-.
  rewrite run_table_ops_cons, Hr. simpl. apply IH; [done..|]. by rewrite Hcols.
Qed.

Lemma run_table_ops_key_inv t pk col ops :
  table_inv true t pk col → table_ok t →
  no_key_update_after_remove (columns_ t) pk ops = true →
  ∃ t', run_table_ops t ops = Ret t' ∧ table_inv false t' pk col.
Proof.
  revert t. induction ops as [|o ops IH]; intros t Hinv Hok Hops.
  { exists t. split; [done|]. by apply table_inv_weaken. }
  destruct (is_remove o) eqn:Ho.
  - destruct o; try done. simpl in Hops.
    apply (run_table_ops_lax_key t pk col (TRemove conditions :: ops)).
    + by apply table_inv_weaken.
    + done.
    + done.
  - destruct (run_table_op_strict t pk col o Hinv Ho) as (t1 & Hr & Hinv1).
    destruct (run_table_op_ok t o Hok) as (t1' & Hr' & Hok1 & Hcols & _).
    rewrite Hr in Hr'. injection Hr' as <-.
    rewrite run_table_ops_cons, Hr. simpl. apply IH; [done..|].
    rewrite Hcols. by destruct o.
Qed.

End db_key_lemmas.

(** ** Tables: the claims *)

Section db_claims.
Import db.

(** C2 (as amended): for every table with a primary-key index, after any
    sequence of [insert_row], [update] and [remove] in which no [update]
    that assigns the primary-key column comes after a [remove], every
    operation returns or throws without undefined behaviour and no two rows
    of the table hold equal values in the primary-key column. *)
Theorem C2_pk_unique_no_key_update_after_remove (n : string)
    (columns : list ColumnDef) (pk : nat) (col : ColumnDef) (ops : list table_op) :
  indexed_pk columns = Some (pk, col) →
  no_key_update_after_remove columns pk ops = true →
  ∃ t, run_table_ops (new_Table n columns) ops = Ret t ∧ pk_unique t.
Proof.
  intros Hpk Hops.
  destruct (run_table_ops_key_inv _ pk col ops (new_Table_inv n columns pk col Hpk)
              (new_Table_ok n columns) Hops)
    as (t & Hrun & f & (Hpk' & _) & _ & Hnd).
  exists t. split; [done|]. intros pk' Hpk''. congruence.
Qed.

Lemma C2_witness :
  ∃ t, run_table_ops users
         [TInsert ada; TInsert linus; TUpdate {["id" := DBInt 5]} [id_is 1];
          TInsert ada; TRemove [id_is 2]; TInsert guido;
          TUpdate {["name" := DBText "Grace"]} [id_is 3]] = Ret t ∧
       pk_unique t.
Proof.
  apply (C2_pk_unique_no_key_update_after_remove "users" users_columns 0
           (mkColumnDef "id" Int true false)); reflexivity.
Defined.

(** C2 as stated fails: once a [remove] has shifted the rows under the
    index, an [update] gives a second row the key 2. *)
Lemma C2_counterexample :
  ∃ t, run_table_ops users
         [TInsert ada; TInsert linus; TInsert guido; TRemove [id_is 1];
          TUpdate {["id" := DBInt 2]} [id_is 3]] = Ret t ∧
       rows_ t = [[DBInt 2; DBText "Linus"]; [DBInt 2; DBText "Guido"]] ∧
       ¬ pk_unique t.
Proof.
  eexists. split; [vm_compute; reflexivity|]. split; [reflexivity|].
  intros Hu. specialize (Hu 0 eq_refl). vm_compute in Hu.
  apply NoDup_cons in Hu as [Hu _]. apply Hu. by left.
Qed.

(** C3 (as amended): in a table with a primary-key index built by
    [insert_row] and [update], when a [remove] deletes the row that holds the
    key [k] at position [p], a following [select] on [k] returns the row
    that is then at position [p] -- a row of the table that does not hold
    [k] -- and the empty row set only if [p] is no longer a position. *)
Theorem C3_select_after_remove (n : string) (columns : list ColumnDef)
    (pk : nat) (col : ColumnDef) (ops : list table_op) (t : Table)
    (p : nat) (row : Row) (k : DBValue) (conditions : list Condition) :
  indexed_pk columns = Some (pk, col) →
  forallb (λ o, negb (is_remove o)) ops = true →
  run_table_ops (new_Table n columns) ops = Ret t →
  rows_ t !! p = Some row → row !! pk = Some k →
  row_matches t row conditions = true →
  let t' := (remove t conditions).1 in
  select t' [mkCondition (name col) "=" k]
  = Ret (match rows_ t' !! p with Some r => [r] | None => [] end) ∧
  (∀ r, rows_ t' !! p = Some r → r ∈ rows_ t ∧ r !! pk ≠ Some k).
Proof.
  intros Hpk Hops Hrun Hrow Hk Hmatch t'.
  destruct (run_table_ops_strict _ pk col ops (new_Table_inv n columns pk col Hpk) Hops)
    as (t0 & Hrun0 & Hinv). rewrite Hrun in Hrun0. simplify_eq.
  destruct Hinv as (f & Hview & Hrows & Hnd).
  destruct (Hrows p row Hrow) as (_ & v & Hv & Hok & Hfv).
  assert (v = k) as -> by congruence.
  split.
  - rewrite (select_by_key t' pk col f k); [|by apply index_view_set_rows|done].
    by rewrite Hfv.
  - intros r Hr. apply list_elem_of_lookup_2 in Hr. simpl in Hr.
    apply list_elem_of_filter in Hr as [Hnm Hin]. split; [done|].
    intros Hrk. apply list_elem_of_lookup in Hin as [q Hq].
    assert (q = p) as ->.
    { eapply NoDup_alt; [exact Hnd| |]; unfold pk_values;
        rewrite list_lookup_fmap; [rewrite Hq|rewrite Hrow]; simpl; [done|].
      by rewrite Hk, Hrk. }
    congruence.
Qed.

Lemma C3_witness :
  let t := mkTable "users" users_columns [ada; linus; guido] (Some 0)
             (Some (BPlusTree.mk
                      [BPlusTree.LeafNode [1; 2; 3]%Z [0; 1; 2] None] 0)) None in
  let t' := (remove t [id_is 1]).1 in
  select t' [mkCondition "id" "=" (DBInt 1)]
  = Ret (match rows_ t' !! 0 with Some r => [r] | None => [] end) ∧
  (∀ r, rows_ t' !! 0 = Some r → r ∈ rows_ t ∧ r !! 0 ≠ Some (DBInt 1)).
Proof.
  apply (C3_select_after_remove "users" users_columns 0
           (mkColumnDef "id" Int true false)
           [TInsert ada; TInsert linus; TInsert guido] _ 0 ada (DBInt 1) [id_is 1]);
    reflexivity.
Defined.

(** C3 as stated fails: after the row with key 1 is deleted, the entry of
    the index for 1 still points at position 0, which is in range, and the
    [select] on 1 returns the row of key 2. *)
Lemma C3_counterexample :
  ∃ t, run_table_ops users [TInsert ada; TInsert linus; TRemove [id_is 1]] = Ret t ∧
       rows_ t = [linus] ∧
       select t [id_is 1] = Ret [linus] ∧
       select t [id_is 1] ≠ Ret [].
Proof.
  eexists. split; [vm_compute; reflexivity|]. split_and!; [reflexivity..|].
  vm_compute. discriminate.
Qed.

(** C5, at the input where it fails: a row with Null in the nullable
    primary-key column of an indexed table ends [insert_row] with a
    [std::bad_variant_access] instead of a return value; the table is not
    changed. *)
Theorem C5_insert_row_null_key_throws :
  insert_row users [DBNull; DBText "Ada"] = Ret (users, Thrown bad_variant_access).
Proof. reflexivity. Qed.

(** C6, at the input where it fails: an assignment of a Text value to the
    Int primary-key column is not skipped; the call ends with a
    [std::bad_variant_access], while the same kind of assignment to another
    column is skipped and the row is counted. *)
Theorem C6_update_key_type_mismatch_throws :
  ∃ t, run_table_ops users [TInsert ada] = Ret t ∧
       update t {["id" := DBText "x"]} [] = Ret (t, Thrown bad_variant_access) ∧
       ∃ t', update t {["name" := DBInt 7]} [] = Ret (t', Returned 1) ∧
             rows_ t' = rows_ t.
Proof.
  eexists. split; [vm_compute; reflexivity|]. split; [reflexivity|].
  eexists. split; [vm_compute; reflexivity|]. reflexivity.
Qed.

End db_claims.

(** ** Transactions: the claims *)

Section txn_claims.
Import txn.

(** [abort_transaction] has no access to the tables: whatever the
    transaction captured, the tables stay as they are. *)
Lemma abort_keeps_tables {Value Column Index : Type}
    (tm : @TransactionManager Value) (d : @Database Value Column Index) (id : N) :
  (Database_abort_transaction tm d id).1.2 = d.
Proof. unfold Database_abort_transaction. by destruct (abort_transaction tm id). Qed.

(** C1, at the input where it fails: a transaction begins, inserts the row
    [100] into the empty table -- which captures the empty row sequence --
    and is aborted; the table still holds the row. *)
Theorem C1_abort_does_not_restore :
  let '(tm1, d1, id) := Database_begin_transaction new_TransactionManager bank in
  ∃ tm2 d2 tm3 d3 t2 t3,
    txn_insert tm1 d1 "accounts" [100%Z] id = Ret (tm2, d2, Returned ()) ∧
    get_table d2 "accounts" = Some t2 ∧ rows_ t2 = [[100%Z]] ∧
    (tx ← transactions_ tm2 !! id; table_states_ tx !! "accounts") = Some [] ∧
    Database_abort_transaction tm2 d2 id = (tm3, d3, Returned ()) ∧
    transactions_ tm3 !! id = None ∧
    get_table d3 "accounts" = Some t3 ∧ rows_ t3 = [[100%Z]].
Proof.
  vm_compute. eexists _, _, _, _, _, _. split_and!; reflexivity.
Qed.

(** A second capture for the same table replaces the first. *)
Lemma add_table_state_twice {Value : Type} (tx : @Transaction Value)
    (table_name : string) (first second : list (list Value)) :
  get_table_state
    (add_table_state (add_table_state tx table_name first) table_name second)
    table_name
  = Returned second.
Proof.
  unfold get_table_state, add_table_state. simpl. by rewrite lookup_insert_eq.
Qed.

(** C4, at the input where it fails: after two insertions into the empty
    table in one transaction, the state stored for the table is the one
    before the second insertion, not the one before the first. *)
Theorem C4_second_capture_overwrites :
  let '(tm1, d1, id) := Database_begin_transaction new_TransactionManager bank in
  ∃ tm2 d2 tm3 d3,
    txn_insert tm1 d1 "accounts" [100%Z] id = Ret (tm2, d2, Returned ()) ∧
    (tx ← transactions_ tm2 !! id; table_states_ tx !! "accounts") = Some [] ∧
    txn_insert tm2 d2 "accounts" [200%Z] id = Ret (tm3, d3, Returned ()) ∧
    (tx ← transactions_ tm3 !! id; table_states_ tx !! "accounts") = Some [[100%Z]].
Proof.
  vm_compute. eexists _, _, _, _. split_and!; reflexivity.
Qed.

End txn_claims.

(** ** Range scans *)

Section bpt_scan.
Import BPlusTree.
Context {Key Value : Type} {Kops : KeyOps Key} {Kord : KeyOrd Key}.
Local Abbreviation store := (list (@Node Key Value)) (only parsing).
Implicit Types (h : store) (a b c : addr) (k : Key) (v : Value).
Implicit Types (ks : list Key) (vs : list Value) (cs fp : list addr).
Implicit Types (kvs : list (Key * Value)) (lo hi : option Key).

Local Abbreviation scanned start stop kvs :=
  (filter (λ kv : Key * Value, in_range start stop kv = true) kvs).

Lemma filter_none {A} (P : A → Prop) `{!∀ x, Decision (P x)} (l : list A) :
  Forall (λ x, ¬ P x) l → filter P l = [].
Proof.
  induction 1 as [|x l Hx _ IH]; [done|]. by rewrite filter_cons_False.
Qed.

Lemma visit_upto_sorted ks vs start stop :
  sorted ks → length vs = length ks →
  Forall (λ x, key_lt x start = false) ks →
  visit_upto ks vs stop = Ret (scanned start stop (zip ks vs)).
Proof.
  intros Hs. revert vs. induction Hs as [|x ks Hs IH Hall];
    intros [|v vs] Hlen Hge; simplify_eq/=; [done|].
  apply Forall_cons in Hge as [Hx Hge].
  assert (in_range start stop (x, v) = negb (key_lt stop x)) as Hin.
  { unfold in_range, key_le. simpl. by rewrite Hx. }
  unfold key_le. destruct (key_lt stop x) eqn:Hsx; simpl in *.
  - rewrite filter_cons_False by (by rewrite Hin).
    symmetry. f_equal. apply filter_none, Forall_forall.
    intros [y w] Hy%elem_of_zip_l. unfold in_range, key_le. simpl.
    rewrite Forall_forall in Hall. apply Hall in Hy.
    rewrite (key_lt_trans _ _ _ Hsx Hy). by rewrite andb_false_r.
  - rewrite filter_cons_True by done. by rewrite IH.
Qed.

Lemma leaf_scan ks vs start stop :
  sorted ks → length vs = length ks →
  visit_upto (drop (lower_bound ks start) ks) (drop (lower_bound ks start) vs) stop
  = Ret (scanned start stop (zip ks vs)).
Proof.
  intros Hs. revert vs. induction Hs as [|x ks Hs IH Hall];
    intros [|v vs] Hlen; simplify_eq/=; [done|].
  destruct (key_lt x start) eqn:Hx; simpl.
  - rewrite IH by done. rewrite filter_cons_False; [done|].
    unfold in_range, key_le. simpl. by rewrite Hx.
  - apply (visit_upto_sorted (x :: ks) (v :: vs)); [by constructor|by simpl; f_equal|].
    constructor; [done|]. eapply Forall_impl; [exact Hall|].
    intros y Hxy. simpl in Hxy. destruct (key_lt y start) eqn:Hy; [|done].
    by rewrite (key_lt_trans _ _ _ Hxy Hy) in Hx.
Qed.

Lemma LeafNode_range_scan_S fuel h a start stop :
  LeafNode_range_scan (S fuel) h a start stop =
  match h !! a with
  | Some (LeafNode ks vs nxt) =>
      here ← visit_upto (drop (lower_bound ks start) ks)
                        (drop (lower_bound ks start) vs) stop;
      rest ← scan_next fuel h nxt start stop;
      Ret (here ++ rest)
  | _ => Undefined
  end.
Proof.
  simpl. destruct (h !! a) as [[ks vs nxt|]|]; [|done..].
  destruct (visit_upto _ _ _) as [here| |]; simpl; [|done..].
  destruct nxt as [b|]; simpl; [|by rewrite app_nil_r].
  destruct (h !! b) as [[[|front ks'] vs' nxt'|]|]; simpl; try done.
  destruct (key_ge stop front); simpl; [done|by rewrite app_nil_r].
Qed.

Lemma LeafNode_range_scan_mono h fuel fuel' a start stop r :
  LeafNode_range_scan fuel h a start stop = Ret r → fuel ≤ fuel' →
  LeafNode_range_scan fuel' h a start stop = Ret r.
Proof.
  revert fuel' a r. induction fuel as [|fuel IH]; intros [|fuel'] a r Hr Hle;
    try done; try lia.
  simpl in *. destruct (h !! a) as [[ks vs nxt|]|]; [|done..].
  destruct (visit_upto _ _ _) as [here| |]; simpl in *; [|done..].
  destruct nxt as [b|]; [|done].
  destruct (h !! b) as [[[|front ks'] vs' nxt'|]|]; simpl; try done.
  destruct (key_ge stop front); [|done].
  destruct (LeafNode_range_scan fuel h b start stop) as [rest| |] eqn:Hrest;
    simpl in *; [|done..].
  by rewrite (IH fuel' b rest Hrest) by lia.
Qed.

Lemma scan_next_mono h fuel fuel' nxt start stop r :
  scan_next fuel h nxt start stop = Ret r → fuel ≤ fuel' →
  scan_next fuel' h nxt start stop = Ret r.
Proof.
  intros Hr Hle. destruct nxt as [b|]; simpl in *; [|done].
  destruct (h !! b) as [[[|front ks'] vs' nxt'|]|]; simpl; try done.
  destruct (key_ge stop front); [|done]. by eapply LeafNode_range_scan_mono.
Qed.

(** The leftmost leaf of a subtree holds its first entries. *)
Lemma forest_first_leaf (T : tree_pred) (P : addr → list (Key * Value) → Prop)
    cs ks lo hi first nxt fp kvs :
  (∀ c lo hi first nxt fp kvs, T c lo hi first nxt fp kvs → P first kvs) →
  (∀ first kvs kvs', P first kvs → P first (kvs ++ kvs')) →
  forest T cs ks lo hi first nxt fp kvs → P first kvs.
Proof.
  intros HT Happ. destruct 1; [by eapply HT|]. apply Happ. by eapply HT.
Qed.


Lemma tree_at_first_leaf h n a lo hi first nxt fp kvs :
  tree_at h n a lo hi first nxt fp kvs → first_leaf h first kvs.
Proof.
  revert a lo hi first nxt fp kvs. induction n as [|n IH]; simpl.
  - intros ??????? (ks & vs & Ha & Hlen & _ & _ & -> & _ & ->).
    exists ks, vs, nxt, []. by rewrite app_nil_r.
  - intros ??????? (ks & cs & fp' & _ & Hf & _).
    eapply (forest_first_leaf _ (first_leaf h)); [apply IH| |done].
    intros f kvs1 kvs2 (ks' & vs' & nx & kvs' & ? & ? & ->).
    exists ks', vs', nx, (kvs' ++ kvs2). by rewrite app_assoc.
Qed.

Lemma forest_tree_first_leaf h n cs ks lo hi first nxt fp kvs :
  forest (tree_at h n) cs ks lo hi first nxt fp kvs → first_leaf h first kvs.
Proof.
  apply (forest_first_leaf _ (first_leaf h)).
  - intros. by eapply tree_at_first_leaf.
  - intros f kvs1 kvs2 (ks' & vs' & nx & kvs' & ? & ? & ->).
    exists ks', vs', nx, (kvs' ++ kvs2). by rewrite app_assoc.
Qed.

Lemma scanned_above start stop kvs :
  Forall (λ kv, key_lt stop kv.1 = true) kvs → scanned start stop kvs = [].
Proof.
  intros Hall. apply filter_none. eapply Forall_impl; [exact Hall|].
  intros [x w] Hx. unfold in_range, key_le. simpl in *.
  by rewrite Hx, andb_false_r.
Qed.

Lemma scanned_below start stop kvs :
  Forall (λ kv, key_lt kv.1 start = true) kvs → scanned start stop kvs = [].
Proof.
  intros Hall. apply filter_none. eapply Forall_impl; [exact Hall|].
  intros [x w] Hx. unfold in_range, key_le. simpl in *. by rewrite Hx.
Qed.

(** When the scan stops before a leaf, nothing from that leaf on was to be
    visited. *)
Lemma scan_next_at h first kvs fuel start stop rest :
  first_leaf h first kvs → sorted kvs.*1 →
  (∀ ks vs nx, h !! first = Some (LeafNode ks vs nx) → ks ≠ []) →
  LeafNode_range_scan fuel h first start stop = Ret (scanned start stop kvs ++ rest) →
  (∀ k, k ∈ kvs.*1 → key_lt stop k = true → rest = []) →
  scan_next fuel h (Some first) start stop = Ret (scanned start stop kvs ++ rest).
Proof.
  intros (ks & vs & nx & kvs' & Ha & Hlen & ->) Hs Hne Hscan Hstop.
  simpl. rewrite Ha. specialize (Hne _ _ _ Ha).
  destruct ks as [|front ks]; [done|]. destruct vs as [|w vs]; [done|].
  unfold key_ge. destruct (key_lt stop front) eqn:Hf; simpl; [|done].
  rewrite (Hstop front); [|by left|done]. rewrite app_nil_r. f_equal.
  symmetry. apply scanned_above. simpl in *. constructor; [done|].
  apply StronglySorted_inv in Hs as [_ Hall]. rewrite Forall_fmap in Hall.
  eapply Forall_impl; [exact Hall|]. intros [y ?] Hy. simpl in *.
  by eapply key_lt_trans.
Qed.


Lemma forest_cons_two_nodes h n c lo hi first nxt fp1 kvs1
    cs ks lo2 hi2 first2 nxt2 fp2 kvs2 :
  tree_at h n c lo hi first nxt fp1 kvs1 →
  forest (tree_at h n) cs ks lo2 hi2 first2 nxt2 fp2 kvs2 →
  (∀ b, b ∈ fp1 → b ∉ fp2) → 1 < length h.
Proof.
  intros Hc Hf Hd.
  pose proof (tree_at_height _ _ _ _ _ _ _ _ _ Hc) as H1.
  assert (1 ≤ length fp2) as H2.
  { eapply forest_height; [|done]. intros ??????? Ht.
    apply tree_at_height in Ht. lia. }
  assert (length (fp1 ++ fp2) ≤ length h) as Hle.
  { apply footprint_length.
    - apply NoDup_app. split_and!; [by eapply tree_at_NoDup|done|].
      eapply forest_NoDup; [|done]. intros. by eapply tree_at_NoDup.
    - apply Forall_app. split; [by eapply tree_at_valid|by eapply forest_valid]. }
  rewrite length_app in Hle. lia.
Qed.

Lemma forest_tree_sorted h n cs ks lo hi first nxt fp kvs :
  forest (tree_at h n) cs ks lo hi first nxt fp kvs → sorted kvs.*1.
Proof.
  apply forest_sorted. intros. split; [by eapply tree_at_bounds|by eapply tree_at_sorted].
Qed.

(** The scan over the leaves of a forest, from its first leaf on. *)
Lemma range_scan_forest h n cs ks lo hi first nxt fp kvs fuel start stop rest :
  (∀ a lo hi first nxt fp kvs fuel rest,
     tree_at h n a lo hi first nxt fp kvs →
     scan_next fuel h nxt start stop = Ret rest →
     (∀ k, k ∈ kvs.*1 → key_lt stop k = true → rest = []) →
     LeafNode_range_scan (length fp + fuel) h first start stop
     = Ret (scanned start stop kvs ++ rest)) →
  leaves_nonempty h →
  forest (tree_at h n) cs ks lo hi first nxt fp kvs →
  scan_next fuel h nxt start stop = Ret rest →
  (∀ k, k ∈ kvs.*1 → key_lt stop k = true → rest = []) →
  LeafNode_range_scan (length fp + fuel) h first start stop
  = Ret (scanned start stop kvs ++ rest).
Proof.
  intros IH Hne Hf. revert fuel rest.
  induction Hf as
    [c lo hi first nxt fp kvs Hc
    |c cs k0 ks lo hi first mid nxt fp1 fp2 kvs1 kvs2 Hc Hf IHf Hdisj Hk0];
    intros fuel rest Hrest Hstop.
  { by eapply IH. }
  pose proof (forest_cons_two_nodes _ _ _ _ _ _ _ _ _ _ _ _ _ _ _ _ _ Hc Hf Hdisj) as Hlen.
  pose proof (forest_tree_sorted _ _ _ _ _ _ _ _ _ _ Hf) as Hs2.
  assert (sorted (kvs1 ++ kvs2).*1) as Hs.
  { eapply forest_tree_sorted. econstructor; done. }
  rewrite length_app, <-Nat.add_assoc, filter_app, <-app_assoc.
  eapply IH; [done| |].
  - eapply scan_next_at; [by eapply forest_tree_first_leaf|done| | |].
    + intros ks' vs' nx Hmid. by eapply Hne.
    + apply IHf; [done|]. intros k Hk. apply Hstop. rewrite fmap_app.
      apply elem_of_app. by right.
    + intros k Hk. apply Hstop. rewrite fmap_app. apply elem_of_app. by right.
  - intros k Hk Hsk. rewrite (Hstop k); [|rewrite fmap_app; apply elem_of_app; by left|done].
    rewrite app_nil_r. apply scanned_above.
    rewrite fmap_app in Hs. apply Forall_forall. intros [y w] Hy. simpl.
    eapply key_lt_trans; [exact Hsk|].
    eapply (StronglySorted_app_1_elem_of _ _ _ k y Hs); [done|].
    by apply (list_elem_of_fmap_2 fst) in Hy.
Qed.

Lemma range_scan_subtree h n a lo hi first nxt fp kvs fuel start stop rest :
  leaves_nonempty h →
  tree_at h n a lo hi first nxt fp kvs →
  scan_next fuel h nxt start stop = Ret rest →
  (∀ k, k ∈ kvs.*1 → key_lt stop k = true → rest = []) →
  LeafNode_range_scan (length fp + fuel) h first start stop
  = Ret (scanned start stop kvs ++ rest).
Proof.
  intros Hne. revert a lo hi first nxt fp kvs fuel rest.
  induction n as [|n IH]; intros a lo hi first nxt fp kvs fuel rest Ht Hrest Hstop;
    simpl in Ht.
  - destruct Ht as (ks & vs & Ha & Hlen & Hs & _ & -> & -> & ->).
    change (length [a] + fuel) with (S fuel).
    rewrite LeafNode_range_scan_S, Ha, leaf_scan by done. simpl.
    by rewrite Hrest.
  - destruct Ht as (ks & cs & fp' & _ & Hf & _ & ->).
    eapply LeafNode_range_scan_mono; [|simpl; apply Nat.le_succ_diag_r].
    eapply range_scan_forest; [|done..]. intros. by eapply IH.
Qed.

(** Descending to the child that covers [start]: the entries to its left
    are below [start], and the scan that leaves the child goes on through
    the children to its right. *)
Lemma forest_focus_scan h n cs ks lo hi first nxt fp kvs fuel start stop rest :
  leaves_nonempty h →
  forest (tree_at h n) cs ks lo hi first nxt fp kvs → within lo hi start →
  scan_next fuel h nxt start stop = Ret rest →
  (∀ k, k ∈ kvs.*1 → key_lt stop k = true → rest = []) →
  ∃ c lo' hi' first' nxt' fpc kvsL kvsc kvsR fuel',
    cs !! upper_bound ks start = Some c ∧
    tree_at h n c lo' hi' first' nxt' fpc kvsc ∧ within lo' hi' start ∧
    kvs = kvsL ++ kvsc ++ kvsR ∧
    Forall (λ kv, key_lt kv.1 start = true) kvsL ∧
    scan_next fuel' h nxt' start stop = Ret (scanned start stop kvsR ++ rest) ∧
    length fpc + fuel' ≤ length fp + fuel ∧
    (∀ k, k ∈ kvsc.*1 → key_lt stop k = true → scanned start stop kvsR ++ rest = []).
Proof.
  intros Hne Hf. revert fuel rest.
  induction Hf as
    [c lo hi first nxt fp kvs Hc
    |c cs k0 ks lo hi first mid nxt fp1 fp2 kvs1 kvs2 Hc Hf IHf Hdisj Hk0];
    intros fuel rest Hk Hrest Hstop.
  { exists c, lo, hi, first, nxt, fp, [], kvs, [], fuel. simpl.
    rewrite app_nil_r. split_and!; try done. }
  pose proof (forest_cons_two_nodes _ _ _ _ _ _ _ _ _ _ _ _ _ _ _ _ _ Hc Hf Hdisj) as Hlen.
  assert (sorted (kvs1 ++ kvs2).*1) as Hs.
  { eapply forest_tree_sorted. econstructor; done. }
  simpl. destruct (key_lt start k0) eqn:Hsk0.
  - exists c, lo, (Some k0), first, (Some mid), fp1, [], kvs1, kvs2, (length fp2 + fuel).
    simpl. split_and!; [done|done|by destruct Hk|done|done| | |].
    + eapply scan_next_at; [by eapply forest_tree_first_leaf
                           |by eapply forest_tree_sorted| | |].
      * intros ks' vs' nx Hmid. by eapply Hne.
      * eapply range_scan_forest; [|done..|].
        -- intros. by eapply range_scan_subtree.
        -- intros k Hin. apply Hstop. rewrite fmap_app. apply elem_of_app. by right.
      * intros k Hin. apply Hstop. rewrite fmap_app. apply elem_of_app. by right.
    + rewrite length_app. lia.
    + intros k Hin Hlt.
      rewrite (Hstop k); [|rewrite fmap_app; apply elem_of_app; by left|done].
      rewrite app_nil_r. apply scanned_above.
      rewrite fmap_app in Hs. apply Forall_forall. intros [y w] Hy. simpl.
      eapply key_lt_trans; [exact Hlt|].
      eapply (StronglySorted_app_1_elem_of _ _ _ k y Hs); [done|].
      by apply (list_elem_of_fmap_2 fst) in Hy.
  - destruct (IHf fuel rest) as (c' & lo' & hi' & first' & nxt' & fpc & kvsL & kvsc
      & kvsR & fuel' & Hlook & Hc' & Hk' & -> & HL & Hnext & Hfuel & Hstop');
      [by split; [|destruct Hk]|done| |].
    { intros k Hin. apply Hstop. rewrite fmap_app. apply elem_of_app. by right. }
    exists c', lo', hi', first', nxt', fpc, (kvs1 ++ kvsL), kvsc, kvsR, fuel'.
    rewrite <-!app_assoc. split_and!; [done..| |done| |done].
    + apply Forall_app. split; [|done]. eapply below_of_within; [|done].
      by eapply tree_at_bounds.
    + rewrite length_app. lia.
Qed.

Lemma Node_range_scan_spec h n a lo hi first nxt fp kvs start stop fuel fuel0 rest :
  leaves_nonempty h →
  tree_at h n a lo hi first nxt fp kvs → within lo hi start → n < fuel →
  scan_next fuel0 h nxt start stop = Ret rest →
  length fp + fuel0 ≤ length h →
  (∀ k, k ∈ kvs.*1 → key_lt stop k = true → rest = []) →
  Node_range_scan fuel h a start stop = Ret (scanned start stop kvs ++ rest).
Proof.
  intros Hne. revert a lo hi first nxt fp kvs fuel fuel0 rest.
  induction n as [|n IH];
    intros a lo hi first nxt fp kvs [|fuel] fuel0 rest Ht Hk Hfuel Hrest Hlen Hstop;
    try lia; simpl.
  - pose proof Ht as (ks & vs & Ha & _ & _ & _ & -> & -> & _). rewrite Ha.
    eapply LeafNode_range_scan_mono; [|exact Hlen].
    by eapply range_scan_subtree.
  - destruct Ht as (ks & cs & fp' & -> & Hf & _ & ->).
    destruct (forest_focus_scan _ _ _ _ _ _ _ _ _ _ _ _ _ _ Hne Hf Hk Hrest Hstop)
      as (c & lo' & hi' & first' & nxt' & fpc & kvsL & kvsc & kvsR & fuel'
          & Hc & Htc & Hk' & -> & HL & Hnext & Hfuel' & Hstop').
    unfold find_child_index. rewrite Hc.
    rewrite !filter_app, (scanned_below _ _ kvsL) by done. simpl.
    rewrite <-app_assoc. eapply IH; [done..|lia|done| |done].
    simpl in Hlen. lia.
Qed.

End bpt_scan.

(** ** The occupancy of nodes *)

Section bpt_fill.
Import BPlusTree.
Context {Key Value : Type} {Kops : KeyOps Key}.
Local Abbreviation store := (list (@Node Key Value)) (only parsing).
Implicit Types (h : store) (a c : addr) (k : Key) (v : Value).
Implicit Types (ks : list Key) (vs : list Value) (cs fp : list addr).
Variable Order : nat.
Lemma node_ok_mono fill fill' (nd : @Node Key Value) :
  fill' ≤ fill → node_ok Order fill nd → node_ok Order fill' nd.
Proof. intros Hle. destruct nd; simpl; [|done]. lia. Qed.

Lemma store_ok_step fill h a x ys :
  store_ok Order fill h → a < length h →
  node_ok Order (fill_of fill (<[a:=x]> h ++ ys)) x →
  Forall (node_ok Order (fill_of fill (<[a:=x]> h ++ ys))) ys →
  store_ok Order fill (<[a:=x]> h ++ ys).
Proof.
  unfold store_ok. intros Hh Ha Hx Hys.
  apply Forall_app. split; [|done].
  destruct (decide (length h = 1)) as [H1|H1].
  - destruct h as [|nd [|??]]; simplify_eq/=.
    destruct a as [|a]; [|lia]. simpl. by constructor.
  - apply Forall_insert; [|done]. eapply Forall_impl; [exact Hh|].
    intros nd. apply node_ok_mono. unfold fill_of.
    rewrite (decide_False (P := length h = 1)) by done. case_decide; lia.
Qed.

Lemma store_ok_set fill h a x :
  store_ok Order fill h → a < length h →
  node_ok Order (fill_of fill h) x →
  store_ok Order fill (<[a:=x]> h).
Proof.
  intros Hh Ha Hx. rewrite <-(app_nil_r (<[a:=x]> h)).
  apply store_ok_step; try done.
  unfold fill_of in *. by rewrite app_nil_r, length_insert.
Qed.

Lemma fill_of_grown fill h : 1 < length h → fill_of fill h = fill.
Proof. intros. unfold fill_of. case_decide; [lia|done]. Qed.

Lemma Node_update_ok fill fuel h a k v h' b :
  store_ok Order fill h →
  Node_update fuel h a k v = Ret (h', b) → store_ok Order fill h'.
Proof.
  revert h a h' b. induction fuel as [|fuel IH]; intros h a h' b Hh; simpl; [done|].
  destruct (h !! a) as [[ks vs nxt|ks cs]|] eqn:Ha; [| |done].
  - assert (node_ok Order (fill_of fill h) (LeafNode ks vs nxt)) as (Hlen & Hlo & Hhi).
    { unfold store_ok in Hh. rewrite Forall_forall in Hh. apply Hh.
      by eapply list_elem_of_lookup_2. }
    unfold LeafNode_update. case_match; [|by intros [= <- <-]].
    case_decide; [|done]. intros [= <- <-].
    apply store_ok_set; [done|by eapply lookup_lt_Some|].
    simpl. by rewrite length_insert.
  - destruct (cs !! _) as [c|]; [|done]. by apply IH.
Qed.

Lemma Node_remove_ok fuel h a k h' b :
  store_ok Order 0 h →
  Node_remove fuel h a k = Ret (h', b) → store_ok Order 0 h'.
Proof.
  revert h a h' b. induction fuel as [|fuel IH]; intros h a h' b Hh; simpl; [done|].
  destruct (h !! a) as [[ks vs nxt|ks cs]|] eqn:Ha; [| |done].
  - assert (node_ok Order (fill_of 0 h) (LeafNode ks vs nxt)) as (Hlen & Hlo & Hhi).
    { unfold store_ok in Hh. rewrite Forall_forall in Hh. apply Hh.
      by eapply list_elem_of_lookup_2. }
    unfold LeafNode_remove. case_match; [|by intros [= <- <-]].
    case_decide; [|done]. intros [= <- <-].
    apply store_ok_set; [done|by eapply lookup_lt_Some|].
    assert (fill_of 0 h = 0) as -> by (unfold fill_of; by case_decide).
    simpl. rewrite !length_erase_at by lia. lia.
  - destruct (cs !! _) as [c|]; [|done]. by apply IH.
Qed.

Lemma store_ok_weaken fill h : store_ok Order fill h → store_ok Order 0 h.
Proof.
  unfold store_ok. intros Hh. eapply Forall_impl; [exact Hh|].
  intros nd. apply node_ok_mono. unfold fill_of. case_decide; lia.
Qed.

Lemma run_ops_snoc (tr : @t Key Value) ops o :
  run_ops Order tr (ops ++ [o]) = (tr' ← run_ops Order tr ops; run_op Order tr' o).
Proof. unfold run_ops. by rewrite foldl_app. Qed.

Hypothesis Order_pos : 1 ≤ Order.

Lemma half_bounds fill n :
  fill ≤ (Order + 1) / 2 → n = S Order →
  fill ≤ n / 2 ∧ n / 2 ≤ Order ∧ fill ≤ n - n / 2 ∧ n - n / 2 ≤ Order ∧ n / 2 < n.
Proof.
  intros Hfill ->. replace (S Order) with (Order + 1) by lia.
  pose proof (Nat.div_mod_eq (Order + 1) 2) as Hdm.
  pose proof (Nat.mod_upper_bound (Order + 1) 2).
  assert (1 ≤ (Order + 1) / 2) by (apply Nat.div_le_lower_bound; lia).
  lia.
Qed.

Lemma LeafNode_insert_ok fill h a ks vs nxt k v h' res :
  fill ≤ (Order + 1) / 2 →
  store_ok Order fill h → h !! a = Some (LeafNode ks vs nxt) →
  LeafNode_insert Order h a ks vs nxt k v = Ret (h', res) →
  store_ok Order fill h' ∧ (is_Some res → 1 < length h').
Proof.
  intros Hfill Hh Ha. pose proof (lookup_lt_Some _ _ _ Ha) as Hlt.
  assert (node_ok Order (fill_of fill h) (LeafNode ks vs nxt)) as (Hlen & Hlo & Hhi).
  { unfold store_ok in Hh. rewrite Forall_forall in Hh. apply Hh.
    by eapply list_elem_of_lookup_2. }
  unfold LeafNode_insert. case_match.
  { case_decide; [|done]. intros [= <- <-]. split; [|by intros [??]].
    apply store_ok_set; [done..|]. simpl. by rewrite length_insert. }
  case_decide; [|done]. case_decide as Hsplit.
  - destruct (head _) as [front|]; [|done]. intros [= <- <-].
    rewrite length_insert_at in *.
    destruct (half_bounds fill (S (length ks))) as (? & ? & ? & ? & ?); [done|lia|].
    set (mid := S (length ks) / 2) in *.
    set (h' := _ ++ _).
    assert (1 < length h') as Hgrow.
    { unfold h'. rewrite length_app, length_insert. simpl. lia. }
    split; [|done].
    apply store_ok_step; [done..| |constructor; [|done]];
      fold h'; rewrite fill_of_grown by done; unfold node_ok;
      rewrite ?length_take, ?length_drop, !length_insert_at;
      change (Nat.divmod (S (length ks)) 1 0 1).1 with mid; lia.
  - intros [= <- <-]. split; [|by intros [??]].
    apply store_ok_set; [done..|]. simpl.
    rewrite !length_insert_at in *. lia.
Qed.

Lemma Node_insert_ok fill fuel h a k v h' res :
  fill ≤ (Order + 1) / 2 → store_ok Order fill h →
  Node_insert Order fuel h a k v = Ret (h', res) →
  store_ok Order fill h' ∧ (is_Some res → 1 < length h').
Proof.
  intros Hfill. revert h a h' res.
  induction fuel as [|fuel IH]; intros h a h' res Hh; simpl; [done|].
  destruct (h !! a) as [[ks vs nxt|ks cs]|] eqn:Ha; [| |done].
  { by eapply LeafNode_insert_ok. }
  destruct (cs !! _) as [c|]; [|done].
  destruct (Node_insert Order fuel h c k v) as [[h1 res1]| |] eqn:Hrec;
    simpl; [|done..].
  destruct (IH _ _ _ _ Hh Hrec) as [Hh1 Hgrow].
  destruct res1 as [[sk sn]|]; [|intros [= <- <-]; by split].
  destruct (h1 !! a) as [[|ks1 cs1]|] eqn:Ha1; try done.
  pose proof (lookup_lt_Some _ _ _ Ha1) as Hlt.
  assert (node_ok Order (fill_of fill h1) (@InternalNode Key Value ks1 cs1))
    as (Hlen & Hhi).
  { unfold store_ok in Hh1. rewrite Forall_forall in Hh1. apply Hh1.
    by eapply list_elem_of_lookup_2. }
  case_decide as Hidx; [|done]. rewrite length_insert_at. case_decide as Hsplit.
  - destruct (half_bounds fill (S (length ks1))) as (? & ? & ? & ? & ?); [done|lia|].
    change (Nat.divmod (S (length ks1)) 1 0 1).1 with (S (length ks1) / 2).
    set (mid := S (length ks1) / 2) in *.
    destruct (insert_at _ _ _ !! mid) as [middle_key|] eqn:Hmid; [|done].
    intros [= <- <-]. set (h2 := _ ++ _).
    assert (1 < length h2) as Hgrow'.
    { unfold h2. rewrite length_app, length_insert. simpl. lia. }
    split; [|done].
    apply store_ok_step; [done..| |constructor; [|done]];
      fold h2; unfold node_ok;
      rewrite ?length_take, ?length_drop, !length_insert_at; lia.
  - intros [= <- <-]. split; [|by intros [??]].
    apply store_ok_set; [done..|]. unfold node_ok.
    rewrite !length_insert_at in *. lia.
Qed.

Lemma insert_ok fill (tr tr' : @t Key Value) k v :
  fill ≤ (Order + 1) / 2 → store_ok Order fill (nodes tr) →
  insert Order tr k v = Ret tr' → store_ok Order fill (nodes tr').
Proof.
  intros Hfill Hh. unfold insert.
  destruct (Node_insert _ _ _ _ _ _) as [[h res]| |] eqn:Hrec; simpl; [|done..].
  destruct (Node_insert_ok _ _ _ _ _ _ _ _ Hfill Hh Hrec) as [Hh' Hgrow].
  destruct res as [[sk sn]|]; intros [= <-]; simpl; [|done].
  unfold store_ok in *. specialize (Hgrow (ltac:(eauto))).
  rewrite fill_of_grown in Hh' by done.
  rewrite fill_of_grown by (rewrite length_app; simpl; lia).
  apply Forall_app. split; [done|]. constructor; [|done]. simpl. lia.
Qed.

Lemma run_op_ok fill (tr tr' : @t Key Value) o :
  fill ≤ (Order + 1) / 2 → (is_remove_op o = true → fill = 0) →
  store_ok Order fill (nodes tr) →
  run_op Order tr o = Ret tr' → store_ok Order fill (nodes tr').
Proof.
  intros Hfill Ho Hh. destruct o as [k v|k v|k]; simpl.
  - by apply insert_ok.
  - unfold update.
    destruct (Node_update _ _ _ _ _) as [[h b]| |] eqn:Hrec; simpl; [|done..].
    intros [= <-]. simpl. by eapply Node_update_ok.
  - rewrite Ho in * by done. unfold remove.
    destruct (Node_remove _ _ _ _) as [[h b]| |] eqn:Hrec; simpl; [|done..].
    apply Node_remove_ok in Hrec; [|done].
    intros Hr. assert (nodes tr' = h) as ->; [|done].
    repeat case_match; simplify_eq/=; done.
Qed.

Lemma run_ops_ok fill (tr tr' : @t Key Value) ops :
  fill ≤ (Order + 1) / 2 → (existsb is_remove_op ops = true → fill = 0) →
  store_ok Order fill (nodes tr) →
  run_ops Order tr ops = Ret tr' → store_ok Order fill (nodes tr').
Proof.
  intros Hfill. revert tr'. induction ops as [|o ops IH] using rev_ind;
    intros tr' Hops Hh.
  { by intros [= <-]. }
  rewrite run_ops_snoc. rewrite existsb_app in Hops. simpl in Hops.
  destruct (run_ops Order tr ops) as [tr1| |]; simpl; [|done..].
  apply run_op_ok; [done| |].
  - intros Ho. apply Hops. rewrite Ho. by rewrite orb_true_r.
  - apply IH; [|done..]. intros Hex. apply Hops. by rewrite Hex.
Qed.

Lemma store_ok_empty fill : store_ok Order fill (nodes (@empty Key Value)).
Proof. repeat constructor; simpl; lia. Qed.

Lemma store_ok_nonempty h : store_ok Order ((Order + 1) / 2) h → leaves_nonempty h.
Proof.
  intros Hh a ks vs nx Ha Hlen.
  unfold store_ok in Hh. rewrite Forall_forall in Hh.
  apply list_elem_of_lookup_2, Hh in Ha as (_ & Hlo & _).
  rewrite fill_of_grown in Hlo by done.
  assert (1 ≤ (Order + 1) / 2) by (apply Nat.div_le_lower_bound; lia).
  destruct ks; simpl in *; [lia|done].
Qed.

End bpt_fill.

(** ** The sequence of entries under the operations *)

Section bpt_more.
Import BPlusTree.
Context {Key Value : Type} {Kops : KeyOps Key} {Kord : KeyOrd Key}.
Implicit Types (k : Key) (v : Value) (kvs : list (Key * Value)).

Lemma get_Some_elem_of kvs k v :
  sorted kvs.*1 → get k kvs = Some v ↔ (k, v) ∈ kvs.
Proof.
  intros Hs. split.
  - clear Hs. induction kvs as [|[k0 v0] kvs IH]; simpl; [done|].
    destruct (key_lt k0 k); [by right; apply IH|].
    case_decide; [|done]. intros [= ->]. subst. by left.
  - induction kvs as [|[k0 v0] kvs IH]; simpl in *; [by intros ?%elem_of_nil|].
    apply StronglySorted_inv in Hs as [Hs Hall]. rewrite Forall_forall in Hall.
    intros [[= -> ->]|Hin]%elem_of_cons.
    + by rewrite key_lt_irrefl, decide_True.
    + rewrite Hall; [by apply IH|]. by apply (list_elem_of_fmap_2 fst) in Hin.
Qed.

Lemma get_upd kvs k v k' :
  sorted kvs.*1 →
  get k' (upd k v kvs) =
    if decide (k' = k) then (if get k kvs is Some _ then Some v else None)
    else get k' kvs.
Proof.
  intros Hs. unfold upd. destruct (get k kvs) as [w|] eqn:Hg.
  - rewrite get_ins by done. by case_decide.
  - case_decide; [by subst|done].
Qed.

Lemma keys_upd kvs k v : (upd k v kvs).*1 = kvs.*1.
Proof.
  unfold upd. destruct (get k kvs) eqn:Hg; [|done].
  apply keys_ins_present. by rewrite Hg.
Qed.

Lemma run_ops_reachable Order (ops : list (@op Key Value)) tr :
  run_ops Order empty ops = Ret tr → reachable Order tr.
Proof. intros. by exists ops. Qed.

End bpt_more.

(** ** Properties of the tree *)

Section bpt_extras.
Import BPlusTree.
Context {Key Value : Type} {Kops : KeyOps Key} {Kord : KeyOrd Key}.

(** As long as nothing was removed, [range_scan (start, stop, func)] calls
    [func] on exactly the entries whose keys lie in [[start, stop]], in
    ascending order: on the entries of the leaf chain that are in the
    range. *)
Theorem range_scan_visits_the_range (Order : nat) (ops : list (@op Key Value))
    (start stop : Key) :
  1 ≤ Order → existsb is_remove_op ops = false →
  ∃ tr out,
    run_ops Order empty ops = Ret tr ∧
    traverse tr = Ret out ∧
    range_scan tr start stop
    = Ret (filter (λ kv, in_range start stop kv = true) out).
Proof.
  intros HOrder Hops.
  destruct (run_ops_wf Order empty [] ops wf_empty) as (tr & Hr & Hwf).
  exists tr, (foldl apply_op [] ops). split_and!; [done|by apply traverse_wf|].
  assert (leaves_nonempty (nodes tr)) as Hne.
  { apply (store_ok_nonempty Order HOrder).
    apply (run_ops_ok Order HOrder _ empty tr ops); [lia| |by apply store_ok_empty|done].
    by rewrite Hops. }
  destruct Hwf as (n & first & fp & Ht).
  destruct (tree_at_fuel _ _ _ _ _ _ _ _ _ Ht) as [Hn Hfp].
  unfold range_scan.
  rewrite <-(app_nil_r (filter _ _)).
  eapply (Node_range_scan_spec _ _ _ _ _ _ _ _ _ _ _ _ 0); [done..| |done].
  lia.
Qed.

(** No node ever holds more than [Order] keys, the keys and values of a
    leaf and the keys and children of an internal node stay in step, and
    until the first removal every leaf but a lone root is at least half
    full. *)
Theorem nodes_within_capacity (Order : nat) (ops : list (@op Key Value)) :
  1 ≤ Order →
  ∃ tr,
    run_ops Order empty ops = Ret tr ∧
    Forall (node_ok Order (min_fill Order (existsb is_remove_op ops) (nodes tr)))
           (nodes tr).
Proof.
  intros HOrder.
  destruct (run_ops_wf Order empty [] ops wf_empty) as (tr & Hr & Hwf).
  exists tr. split; [done|].
  set (fill := if existsb is_remove_op ops then 0 else (Order + 1) / 2).
  assert (store_ok Order fill (nodes tr)) as Hok.
  { apply (run_ops_ok Order HOrder _ empty tr ops); [| |by apply store_ok_empty|done].
    - unfold fill. destruct (existsb _ _); lia.
    - unfold fill. by intros ->. }
  unfold store_ok, fill in Hok. unfold min_fill.
  destruct (existsb _ _); [|done].
  eapply Forall_impl; [exact Hok|]. intros nd. apply node_ok_mono.
  unfold fill_of. by case_decide.
Qed.

(** Whatever the operations were -- removals included -- [find] returns,
    and it finds exactly the entries that the chain of leaves holds, whose
    keys are strictly ascending. *)
Theorem find_agrees_with_leaf_chain (Order : nat) (ops : list (@op Key Value)) :
  ∃ tr out,
    run_ops Order empty ops = Ret tr ∧
    traverse tr = Ret out ∧
    StronglySorted (λ x y, key_lt x y = true) out.*1 ∧
    ∀ k, ∃ r, find tr k = Ret r ∧ ∀ v, r = Some v ↔ (k, v) ∈ out.
Proof.
  destruct (run_ops_wf Order empty [] ops wf_empty) as (tr & Hr & Hwf).
  pose proof (wf_sorted _ _ Hwf) as Hs.
  exists tr, (foldl apply_op [] ops).
  split_and!; [done|by apply traverse_wf|done|].
  intros k. exists (get k (foldl apply_op [] ops)).
  split; [by apply find_wf|]. intros v. by apply get_Some_elem_of.
Qed.

(** [remove] reports whether the key was stored, and afterwards [find]
    does not find it, whatever is done to other keys in between. *)
Theorem remove_then_find (Order : nat) (tr : @t Key Value) (k : Key)
    (ops : list (@op Key Value)) :
  reachable Order tr → Forall (λ o, op_key o ≠ k) ops →
  ∃ r tr1 tr2,
    find tr k = Ret r ∧
    remove tr k = Ret (tr1, bool_decide (is_Some r)) ∧
    run_ops Order tr1 ops = Ret tr2 ∧
    find tr2 k = Ret None.
Proof.
  intros [kvs Hwf]%reachable_wf Hops.
  destruct (remove_wf tr kvs k Hwf) as (tr1 & Hrm & Hwf1).
  destruct (run_ops_wf Order tr1 _ ops Hwf1) as (tr2 & Hr2 & Hwf2).
  pose proof (wf_sorted _ _ Hwf) as Hs. pose proof (wf_sorted _ _ Hwf1) as Hs1.
  exists (get k kvs), tr1, tr2. split_and!; [by apply find_wf|done..|].
  rewrite (find_wf _ _ k Hwf2), get_apply_ops by done.
  by rewrite get_del, decide_True.
Qed.

(** [update] writes the value only if the key is stored, and says so; it
    never adds a key, and the other entries stay as they are. *)
Theorem update_only_overwrites (Order : nat) (tr : @t Key Value) (k : Key) (v : Value) :
  reachable Order tr →
  ∃ r tr1 out out1,
    find tr k = Ret r ∧
    update tr k v = Ret (tr1, bool_decide (is_Some r)) ∧
    find tr1 k = Ret (if r is Some _ then Some v else None) ∧
    (∀ k', k' ≠ k → find tr1 k' = find tr k') ∧
    traverse tr = Ret out ∧ traverse tr1 = Ret out1 ∧ out1.*1 = out.*1.
Proof.
  intros [kvs Hwf]%reachable_wf.
  destruct (update_wf tr kvs k v Hwf) as (tr1 & Hup & Hwf1).
  pose proof (wf_sorted _ _ Hwf) as Hs.
  exists (get k kvs), tr1, kvs, (upd k v kvs).
  split_and!; [by apply find_wf|done| | |by apply traverse_wf..|apply keys_upd].
  - rewrite (find_wf _ _ k Hwf1), get_upd by done. by rewrite decide_True.
  - intros k' Hk'. rewrite (find_wf _ _ k' Hwf1), (find_wf _ _ k' Hwf), get_upd by done.
    by rewrite decide_False.
Qed.

(** An operation on one key does not change what [find] returns for
    another key. *)
Theorem other_keys_untouched (Order : nat) (tr : @t Key Value) (o : @op Key Value)
    (k : Key) :
  reachable Order tr → op_key o ≠ k →
  ∃ tr' r, run_op Order tr o = Ret tr' ∧ find tr k = Ret r ∧ find tr' k = Ret r.
Proof.
  intros [kvs Hwf]%reachable_wf Hk.
  destruct (run_op_wf Order tr kvs o Hwf) as (tr' & Hr & Hwf').
  exists tr', (get k kvs). split_and!; [done|by apply find_wf|].
  rewrite (find_wf _ _ k Hwf'). f_equal. apply get_apply_op; [|done].
  by eapply wf_sorted.
Qed.

End bpt_extras.

Section bpt_extras_examples.
Import BPlusTree.

Lemma range_scan_visits_the_range_witness :
  ∃ (tr : @t Z Z) out,
    run_ops 2 empty [OpInsert 5 50; OpInsert 1 10; OpInsert 3 30; OpUpdate 3 31;
                     OpInsert 9 90; OpInsert 7 70]%Z = Ret tr ∧
    traverse tr = Ret out ∧
    range_scan tr 2%Z 7%Z = Ret (filter (λ kv, in_range 2%Z 7%Z kv = true) out).
Proof.
  apply (range_scan_visits_the_range 2
           [OpInsert 5 50; OpInsert 1 10; OpInsert 3 30; OpUpdate 3 31;
            OpInsert 9 90; OpInsert 7 70]%Z 2%Z 7%Z); [lia|reflexivity].
Defined.

Lemma nodes_within_capacity_witness :
  ∃ tr : @t Z Z,
    run_ops 2 empty [OpInsert 5 50; OpInsert 1 10; OpInsert 3 30; OpInsert 9 90]%Z
    = Ret tr ∧
    Forall (node_ok 2 (min_fill 2 false (nodes tr))) (nodes tr).
Proof.
  apply (nodes_within_capacity 2
           [OpInsert 5 50; OpInsert 1 10; OpInsert 3 30; OpInsert 9 90]%Z). lia.
Defined.

Lemma find_agrees_with_leaf_chain_witness :
  ∃ (tr : @t Z Z) out,
    run_ops 4 empty [OpInsert 5 50; OpInsert 1 10; OpRemove 5; OpInsert 3 30]%Z
    = Ret tr ∧
    traverse tr = Ret out ∧
    StronglySorted (λ x y, key_lt x y = true) out.*1 ∧
    ∀ k, ∃ r, find tr k = Ret r ∧ ∀ v, r = Some v ↔ (k, v) ∈ out.
Proof.
  apply (find_agrees_with_leaf_chain 4
           [OpInsert 5 50; OpInsert 1 10; OpRemove 5; OpInsert 3 30]%Z).
Defined.

Lemma remove_then_find_witness :
  ∃ r (tr1 tr2 : @t Z Z),
    find (mk [LeafNode [1; 2]%Z [10; 20]%Z None] 0) 2%Z = Ret r ∧
    remove (mk [LeafNode [1; 2]%Z [10; 20]%Z None] 0) 2%Z
    = Ret (tr1, bool_decide (is_Some r)) ∧
    run_ops 4 tr1 [OpInsert 3 30; OpUpdate 1 11]%Z = Ret tr2 ∧
    find tr2 2%Z = Ret None.
Proof.
  apply (remove_then_find 4 (mk [LeafNode [1; 2]%Z [10; 20]%Z None] 0) 2%Z
           [OpInsert 3 30; OpUpdate 1 11]%Z).
  - by exists [OpInsert 1 10; OpInsert 2 20]%Z.
  - repeat constructor; simpl; lia.
Defined.

Lemma update_only_overwrites_witness :
  ∃ r (tr1 : @t Z Z) out out1,
    find (mk [LeafNode [1; 2]%Z [10; 20]%Z None] 0) 2%Z = Ret r ∧
    update (mk [LeafNode [1; 2]%Z [10; 20]%Z None] 0) 2%Z 21%Z
    = Ret (tr1, bool_decide (is_Some r)) ∧
    find tr1 2%Z = Ret (if r is Some _ then Some 21%Z else None) ∧
    (∀ k', k' ≠ 2%Z → find tr1 k' = find (mk [LeafNode [1; 2]%Z [10; 20]%Z None] 0) k') ∧
    traverse (mk [LeafNode [1; 2]%Z [10; 20]%Z None] 0) = Ret out ∧
    traverse tr1 = Ret out1 ∧ out1.*1 = out.*1.
Proof.
  apply (update_only_overwrites 4 (mk [LeafNode [1; 2]%Z [10; 20]%Z None] 0) 2%Z 21%Z).
  by exists [OpInsert 1 10; OpInsert 2 20]%Z.
Defined.

Lemma other_keys_untouched_witness :
  ∃ (tr' : @t Z Z) r,
    run_op 4 (mk [LeafNode [1; 2]%Z [10; 20]%Z None] 0) (OpRemove 1%Z) = Ret tr' ∧
    find (mk [LeafNode [1; 2]%Z [10; 20]%Z None] 0) 2%Z = Ret r ∧
    find tr' 2%Z = Ret r.
Proof.
  apply (other_keys_untouched 4 (mk [LeafNode [1; 2]%Z [10; 20]%Z None] 0)
           (OpRemove 1%Z) 2%Z).
  - by exists [OpInsert 1 10; OpInsert 2 20]%Z.
  - simpl. lia.
Defined.

End bpt_extras_examples.

(** ** Tables: when the index is exact *)

Section db_exact.
Import db.
Implicit Types (t : Table) (row : Row) (v : DBValue) (col : ColumnDef).
Implicit Types (f : DBValue → option nat).

Lemma table_exact_strict t pk col : table_exact t pk col → table_inv true t pk col.
Proof.
  intros (f & Hview & Hrows & _). exists f. split_and!; [done..|].
  by eapply strict_NoDup.
Qed.

Lemma new_Table_exact n columns pk col :
  indexed_pk columns = Some (pk, col) → table_exact (new_Table n columns) pk col.
Proof.
  intros (Hpk & Hcol & Hprim & Hty)%indexed_pk_spec.
  exists (λ _, None). unfold new_Table. rewrite Hpk. simpl. rewrite Hcol. simpl.
  split_and!; [|done..].
  split_and!; simpl; [done..|].
  destruct Hty as [-> | ->]; simpl; exists BPlusTree.empty, [];
    split_and!; try done; apply wf_empty.
Qed.

Lemma resolve_updates_key t pk col (updates : gmap string DBValue) :
  columns_ t !! pk = Some col → updates !! name col = None →
  resolve_updates t updates !! pk = None.
Proof.
  intros Hcol Hup. destruct (resolve_updates t updates !! pk) as [v|] eqn:Hv; [|done].
  apply resolve_updates_Some in Hv as (n & Hn & Hidx).
  apply column_index_from_spec in Hidx as [_ (c & Hc & <-)].
  rewrite Nat.sub_0_r in Hc. congruence.
Qed.

Lemma key_ok_eq_dec ty v v' : key_ok ty v → key_ok ty v' → v = v' ∨ v ≠ v'.
Proof.
  destruct ty, v, v'; simpl; try done; intros _ _.
  - destruct (decide (i = i0)) as [->|]; [by left|right; congruence].
  - destruct (decide (s = s0)) as [->|]; [by left|right; congruence].
Qed.

Lemma insert_row_exact t pk col row :
  table_exact t pk col →
  ∃ t' c, insert_row t row = Ret (t', c) ∧ table_exact t' pk col.
Proof.
  intros Hex. pose proof Hex as (f & Hview & Hrows & Hback).
  pose proof Hview as (Hpk & Hcol & Hprim & Hix).
  unfold insert_row. case_bool_decide as Hlen; simpl; [|by eauto].
  destruct (insert_row_checks_spec t pk col f 0 (columns_ t) row Hview)
    as (r & -> & Hr1 & Hr2); [done..|]. simpl.
  destruct r as [how|]; [by eauto|].
  destruct Hr2 as (v & Hv & Hok & Hfv); [done|lia|by eapply lookup_lt_Some|].
  rewrite Nat.sub_0_r in Hv. rewrite Hpk, Hv.
  destruct (update_index_spec (set_rows t (rows_ t ++ [row])) pk col f v
              (length (rows_ t))) as (t2 & f' & -> & Hview2 & Hr2 & Hc2 & Hf'v & Hf');
    [by apply index_view_set_rows|done|]. simpl in *.
  eexists _, _. split; [done|].
  exists f'. rewrite Hr2. split_and!; [done| |].
  - intros i r [Hi|[Hi Hr]]%lookup_app_Some.
    + eapply row_indexed_other; [done..|by left|by apply Hrows].
    + apply list_lookup_singleton_Some in Hr as [Hi0 <-].
      split; [by rewrite Hc2|]. exists v. split_and!; [done..|].
      replace i with (length (rows_ t)) by lia. done.
  - intros x i Hx Hfx. destruct (key_ok_eq_dec _ x v Hx Hok) as [->|Hne].
    + rewrite Hf'v in Hfx. simplify_eq. exists row. split; [|done].
      by rewrite lookup_app_r, Nat.sub_diag.
    + rewrite Hf' in Hfx by done. destruct (Hback x i Hx Hfx) as (r & Hr & ?).
      exists r. split; [|done]. by apply lookup_app_l_Some.
Qed.

Lemma update_row_exact t pk col (m : gmap nat DBValue) conds i :
  table_exact t pk col → m !! pk = None → i < length (rows_ t) →
  ∃ t' c, update_row t m conds i = Ret (t', c) ∧ table_exact t' pk col ∧
          length (rows_ t') = length (rows_ t).
Proof.
  intros Hex Hm Hi. pose proof Hex as (f & Hview & Hrows & Hback).
  pose proof Hview as (Hpk & Hcol & Hprim & Hix).
  unfold update_row.
  destruct (rows_ t !! i) as [row|] eqn:Hrow; last first.
  { apply lookup_ge_None in Hrow. lia. }
  destruct (row_matches t row conds); [|by eauto 10].
  rewrite Hpk, Hm. simpl.
  destruct (Hrows i row Hrow) as (Hlen & v & Hv & Hok & Hfv).
  assert (assign_fields t m row !! pk = Some v) as Hv'.
  { by rewrite assign_fields_other. }
  eexists _, _. split_and!; [done| |by simpl; rewrite length_insert].
  exists f. split_and!; [by apply index_view_set_rows| |]; simpl.
  - intros j r Hj. destruct (decide (j = i)) as [->|Hne].
    + rewrite list_lookup_insert_eq in Hj by done. simplify_eq.
      split; [by rewrite assign_fields_length|]. by exists v.
    + rewrite list_lookup_insert_ne in Hj by done. by apply Hrows.
  - intros x j Hx Hfx. destruct (Hback x j Hx Hfx) as (r & Hr & Hrx).
    destruct (decide (j = i)) as [->|Hne].
    + eexists. rewrite list_lookup_insert_eq by done. split; [done|].
      simplify_eq. congruence.
    + exists r. by rewrite list_lookup_insert_ne.
Qed.

Lemma update_loop_exact n t pk col (m : gmap nat DBValue) conds i count :
  table_exact t pk col → m !! pk = None → i + n = length (rows_ t) →
  ∃ t' c, update_loop n t m conds i count = Ret (t', c) ∧ table_exact t' pk col.
Proof.
  revert t i count. induction n as [|n IH]; intros t i count Hex Hm Hlen; simpl.
  { by eauto. }
  destruct (update_row_exact t pk col m conds i Hex Hm) as (t1 & c & -> & Hex1 & Hlen1);
    [lia|]. simpl.
  destruct c as [counted|e]; [|by eauto]. apply IH; [done..|lia].
Qed.

Lemma run_table_op_exact t pk col o :
  table_exact t pk col → keeps_key (name col) o = true →
  ∃ t', run_table_op t o = Ret t' ∧ table_exact t' pk col.
Proof.
  intros Hex Ho. destruct o as [row|updates conds|conds]; simpl in *; [| |done].
  - destruct (insert_row_exact t pk col row Hex) as (t' & c & -> & Hex').
    by exists t'.
  - apply bool_decide_eq_true in Ho. pose proof Hex as (f & (_ & Hcol & _) & _).
    destruct (update_loop_exact (length (rows_ t)) t pk col
                (resolve_updates t updates) conds 0 0 Hex)
      as (t' & c & Hr & Hex'); [by eapply resolve_updates_key|done|].
    unfold update. rewrite Hr. by exists t'.
Qed.

Lemma run_table_ops_exact t pk col ops :
  table_exact t pk col → forallb (keeps_key (name col)) ops = true →
  ∃ t', run_table_ops t ops = Ret t' ∧ table_exact t' pk col.
Proof.
  revert t. induction ops as [|o ops IH]; intros t Hex Hops; [by exists t|].
  simpl in Hops. apply andb_true_iff in Hops as [Ho Hops].
  destruct (run_table_op_exact t pk col o Hex Ho) as (t1 & Hr & Hex1).
  rewrite run_table_ops_cons, Hr. simpl. by apply IH.
Qed.

End db_exact.

(** ** Tables: selecting by key, and what [insert_row] accepts *)

Section db_select.
Import db.
Implicit Types (t : Table) (row : Row) (v : DBValue) (col : ColumnDef).
Implicit Types (f : DBValue → option nat).

Lemma filter_unique {A} (P : A → Prop) `{!∀ x, Decision (P x)} (l : list A) i x :
  l !! i = Some x → P x → (∀ j y, l !! j = Some y → P y → j = i) →
  filter P l = [x].
Proof.
  intros Hi Hx Huniq. rewrite <-(take_drop_middle l i x Hi), filter_app, filter_cons_True by done.
  rewrite !filter_none; [done| |].
  - apply Forall_forall. intros y [j Hj]%list_elem_of_lookup Hy.
    rewrite lookup_drop in Hj. apply Huniq in Hj; [lia|done].
  - apply Forall_forall. intros y [j Hj]%list_elem_of_lookup Hy.
    pose proof (lookup_lt_Some _ _ _ Hj) as Hlt. rewrite length_take in Hlt.
    rewrite lookup_take_lt in Hj by lia. apply Huniq in Hj; [lia|done].
Qed.

Lemma values_equal_key ty x v :
  key_ok ty v → values_equal x v = true ↔ x = v.
Proof.
  destruct ty, v, x; simpl; try done; intros _; rewrite bool_decide_eq_true;
    naive_solver.
Qed.

(** On a table with an exact index whose key column is the first column of
    its name, the lookup that [select] does in the index finds what the
    scan of the rows finds. *)
Lemma select_exact t pk col conds :
  table_exact t pk col → column_index t (name col) = Some pk →
  select t conds = Ret (full_scan t conds).
Proof.
  intros (f & Hview & Hrows & Hback) Hname.
  pose proof Hview as (Hpk & Hcol & Hprim & Hix).
  unfold select. rewrite Hpk. destruct conds as [|c [|c2 conds]]; [done| |done].
  rewrite Hcol. destruct (bool_decide _ && bool_decide _) eqn:Hc; [|done].
  apply andb_true_iff in Hc as [Hn%bool_decide_eq_true Hop%bool_decide_eq_true].
  assert (∀ v, value c = v → key_ok (type col) v →
            row_at t (f v) = full_scan t [c]) as Hscan.
  { intros v Hval Hok. unfold full_scan.
    assert (∀ row, row ∈ rows_ t →
              row_matches t row [c] = true ↔ row !! pk = Some v) as Hmatch.
    { intros row [j Hj]%list_elem_of_lookup.
      destruct (Hrows j row Hj) as (_ & x & Hx & _ & _).
      unfold row_matches, evaluate. simpl. unfold column_index in Hname.
      rewrite Hn, Hname, Hx, Hop, Hval. simpl. rewrite andb_true_r.
      rewrite values_equal_key by done. naive_solver. }
    destruct (f v) as [i|] eqn:Hfv; simpl.
    - destruct (Hback v i Hok Hfv) as (r & Hr & Hrv). rewrite Hr.
      symmetry. apply (filter_unique _ _ i); [done| |].
      + apply Hmatch; [by eapply list_elem_of_lookup_2|done].
      + intros j y Hj Hy. apply Hmatch in Hy; [|by eapply list_elem_of_lookup_2].
        destruct (Hrows j y Hj) as (_ & x & Hx & _ & Hfx). simplify_eq/=; congruence.
    - symmetry. apply filter_none, Forall_forall. intros y Hy Hm.
      apply Hmatch in Hm; [|done]. apply list_elem_of_lookup in Hy as [j Hj].
      destruct (Hrows j y Hj) as (_ & x & Hx & _ & Hfx). simplify_eq/=; congruence. }
  destruct (type col) eqn:Hty; try done; destruct (value c) as [|z|x|s] eqn:Hval;
    try done.
  - rewrite (view_find_int _ _ _ _ z Hview Hty). simpl. f_equal. by apply Hscan.
  - rewrite (view_find_text _ _ _ _ s Hview Hty). simpl. f_equal. by apply Hscan.
Qed.



(** The checks reject a row whose key the index has an entry for. *)
Lemma insert_row_checks_dup t pk col f i columns row k :
  index_view t pk col f →
  (∀ o, columns !! o = columns_ t !! (i + o)) →
  length row = length columns →
  i ≤ pk → pk < i + length columns →
  row !! (pk - i) = Some k → key_ok (type col) k → is_Some (f k) →
  insert_row_checks t i columns row = Ret (Some (Returned false)).
Proof.
  intros Hview. pose proof Hview as (Hpk & Hcol & Hprim & Hix).
  revert i row. induction columns as [|c columns IH];
    intros i [|val row] Hcols Hlen Hle Hlt Hk Hok Hfk; simplify_eq/=.
  destruct (not_null c && is_null val); [done|].
  destruct (negb (is_null val) && _); [done|]. simpl.
  unfold has_index. rewrite Hpk.
  destruct (decide (i = pk)) as [->|Hne].
  - specialize (Hcols 0). rewrite Nat.add_0_r, Hcol in Hcols. simplify_eq/=.
    rewrite Nat.sub_diag in Hk. simplify_eq/=.
    rewrite Hprim, !bool_decide_eq_true_2 by eauto. simpl.
    destruct Hfk as [j Hfk].
    destruct (type col) eqn:Hty; try done; simpl.
    + apply key_ok_Int in Hok as [z ->]. simpl.
      by rewrite (view_find_int _ _ _ _ z Hview Hty), Hfk.
    + apply key_ok_Text in Hok as [z ->]. simpl.
      by rewrite (view_find_text _ _ _ _ z Hview Hty), Hfk.
  - rewrite (bool_decide_eq_false_2 (Some pk = Some i)) by congruence.
    rewrite !andb_false_r. apply IH; [|done|lia|lia| |done|done].
    + intros o. specialize (Hcols (S o)). simpl in Hcols. rewrite Hcols. f_equal. lia.
    + by replace (pk - i) with (S (pk - S i)) in Hk by lia.
Qed.




(** On a table whose index has an entry for the key of every row,
    [insert_row] rejects a row with the key of a row of the table. *)
Lemma insert_row_dup t pk col row r :
  table_inv false t pk col → r ∈ rows_ t → row !! pk = r !! pk →
  insert_row t row = Ret (t, Returned false).
Proof.
  intros (f & Hview & Hrows & _) [j Hj]%list_elem_of_lookup Hkey.
  pose proof Hview as (Hpk & Hcol & Hprim & Hix).
  destruct (Hrows j r Hj) as (_ & k & Hk & Hok & Hfk).
  unfold insert_row. case_bool_decide as Hlen; simpl; [|done].
  rewrite (insert_row_checks_dup t pk col f 0 (columns_ t) row k); try done.
  - lia.
  - by eapply lookup_lt_Some.
  - rewrite Nat.sub_0_r. congruence.
Qed.

End db_select.

(** ** Tables: [remove], [update], comparisons, tables without an index *)

Section db_more.
Import db.
Implicit Types (t : Table) (row : Row) (v : DBValue) (col : ColumnDef).

(** *** remove *)
Lemma length_filter_complement {A} (P : A → Prop) `{!∀ x, Decision (P x)} (l : list A) :
  length l - length (filter (λ x, ¬ P x) l) = length (filter P l).
Proof.
  pose proof (filter_app_complement P l) as Hp. apply Permutation_length in Hp.
  rewrite length_app in Hp. lia.
Qed.

Lemma filter_filter_none {A} (P : A → Prop) `{!∀ x, Decision (P x)} (l : list A) :
  filter P (filter (λ x, ¬ P x) l) = [].
Proof.
  apply filter_none, Forall_forall. by intros x [? _]%list_elem_of_filter.
Qed.

Lemma filter_comm {A} (P Q : A → Prop) `{!∀ x, Decision (P x)} `{!∀ x, Decision (Q x)}
    (l : list A) :
  filter P (filter Q l) = filter Q (filter P l).
Proof.
  induction l as [|x l IH]; [done|].
  destruct (decide (P x)), (decide (Q x));
    repeat (first [rewrite filter_cons_True by done|rewrite filter_cons_False by done]);
    by rewrite ?IH.
Qed.

(** *** update, when the key column is not assigned *)
Lemma update_loop_plain n t (m : gmap nat DBValue) conds i count :
  (∀ pk, primary_key_index_ t = Some pk → m !! pk = None) →
  i + n = length (rows_ t) →
  update_loop n t m conds i count =
  Ret (set_rows t (take i (rows_ t) ++
         ((λ row, if row_matches t row conds then assign_fields t m row else row)
            <$> drop i (rows_ t))),
       Returned (count + length (filter (λ row, row_matches t row conds = true)
                                        (drop i (rows_ t))))).
Proof.
  intros Hm. revert t Hm i count. induction n as [|n IH]; intros t Hm i count Hlen; simpl.
  { rewrite drop_ge, take_ge by lia. simpl. rewrite app_nil_r, Nat.add_0_r.
    by destruct t. }
  assert (is_Some (rows_ t !! i)) as [row Hrow] by (apply lookup_lt_is_Some; lia).
  unfold update_row. rewrite Hrow.
  rewrite (drop_S _ _ _ Hrow). simpl.
  destruct (row_matches t row conds) eqn:Hmatch.
  - assert (∀ pk, primary_key_index_ (set_rows t (<[i:=assign_fields t m row]> (rows_ t)))
                  = Some pk → m !! pk = None) as Hm1 by done.
    destruct (primary_key_index_ t) as [pk|] eqn:Hpk; [rewrite (Hm pk eq_refl)|]; simpl.
    all: rewrite IH; [|done|by simpl; rewrite length_insert; lia]; simpl.
    all: rewrite filter_cons_True by done; simpl.
    all: rewrite drop_insert_lt, take_insert_lt by lia.
    all: rewrite (take_S_r _ _ _ Hrow).
    all: rewrite insert_app_r_alt by (rewrite length_take; lia).
    all: rewrite length_take, Nat.min_l, Nat.sub_diag by lia.
    all: rewrite <-app_assoc, Nat.add_succ_r; done.
  - simpl. rewrite IH by (done || lia). rewrite filter_cons_False by congruence.
    f_equal. f_equal. f_equal.
    rewrite (take_S_r _ _ _ Hrow), <-app_assoc. done.
Qed.

Lemma resolve_updates_singleton t n v :
  resolve_updates t {[n := v]} =
  match column_index t n with Some j => {[j := v]} | None => ∅ end.
Proof.
  unfold resolve_updates. rewrite map_fold_singleton.
  by destruct (column_index t n).
Qed.

Lemma assign_fields_singleton t j v row :
  assign_fields t {[j := v]} row = assign_field t row j v.
Proof. unfold assign_fields. by rewrite map_to_list_singleton. Qed.

(** *** The comparisons of values that are not floating-point numbers *)
Lemma values_less_irrefl x : value_type x ≠ Float → values_less x x = false.
Proof.
  destruct x; simpl; try done; intros _.
  - apply Z.ltb_irrefl.
  - exact (@key_lt_irrefl string _ _ s).
Qed.

Lemma values_less_asym x v :
  value_type x ≠ Float → value_type v ≠ Float →
  values_less x v = true → values_less v x = false.
Proof.
  destruct x, v; simpl; try done; intros _ _.
  - rewrite Z.ltb_lt, Z.ltb_ge. lia.
  - exact (@key_lt_asym string _ _ s s0).
Qed.

Lemma values_less_total x v :
  value_type x ≠ Float → value_type v ≠ Float →
  values_less x v = false → values_less v x = false → x = v.
Proof.
  destruct x, v; simpl; try done; intros _ _.
  - rewrite !Z.ltb_ge. intros. f_equal. lia.
  - intros H1 H2. f_equal. exact (@key_lt_total string _ _ s s0 H1 H2).
Qed.

Lemma values_equal_eq x v :
  value_type x ≠ Float → values_equal x v = true ↔ x = v.
Proof.
  destruct x, v; simpl; try done; intros _; rewrite ?bool_decide_eq_true;
    naive_solver.
Qed.


Lemma insert_row_checks_no_index t i columns row :
  no_index t → (∀ o, columns !! o = columns_ t !! (i + o)) →
  length row = length columns →
  ∃ r, insert_row_checks t i columns row = Ret r ∧
       (r = None ∨ r = Some (Returned false)) ∧
       (r = None ↔ row_admitted columns row).
Proof.
  intros Hno. revert i row. induction columns as [|c columns IH];
    intros i [|val row] Hcols Hlen; simplify_eq/=.
  { exists None. split_and!; [done|by left|]. split; [by constructor|done]. }
  destruct (IH (S i) row) as (r & Hr & Hr1 & Hr2); [|done|].
  { intros o. specialize (Hcols (S o)). simpl in Hcols. rewrite Hcols. f_equal. lia. }
  assert (¬ value_admitted c val →
    ∃ r, Ret (Some (Returned false)) = Ret r ∧
         (r = None ∨ r = Some (Returned false)) ∧
         (r = None ↔ row_admitted (c :: columns) (val :: row))) as Hrej.
  { intros Hnot. eexists. split_and!; [done|by right|]. split; [done|].
    intros Hadm. by apply Forall2_cons_1 in Hadm as [? _]. }
  destruct (not_null c && is_null val) eqn:Hnn.
  { apply Hrej. intros [Hn _]. apply andb_true_iff in Hnn as [Hc Hv].
    rewrite Hn in Hv; done. }
  destruct (negb (is_null val) && _) eqn:Hty.
  { apply Hrej. intros [_ [Hn|Hv]]; apply andb_true_iff in Hty as [H1 H2].
    - by rewrite Hn in H1.
    - by rewrite bool_decide_eq_true_2 in H2. }
  simpl.
  assert (value_admitted c val) as Hadm.
  { split.
    - intros Hc. rewrite Hc in Hnn. by destruct (is_null val).
    - unfold value_fits. destruct (is_null val); [by left|right]. simpl in Hty.
      apply negb_false_iff in Hty. by apply bool_decide_eq_true in Hty. }
  assert ((if primary_key c && has_index t && bool_decide (primary_key_index_ t = Some i)
     then
       if bool_decide (type c = Int) then
         match get_DBInt val with
         | None => Ret (Some (Thrown bad_variant_access))
         | Some key =>
             found ← index_find (int_index_ t) key;
             if found is Some _ then Ret (Some (Returned false))
             else insert_row_checks t (S i) columns row
         end
       else if bool_decide (type c = Text) then
         match get_DBText val with
         | None => Ret (Some (Thrown bad_variant_access))
         | Some key =>
             found ← index_find (text_index_ t) key;
             if found is Some _ then Ret (Some (Returned false))
             else insert_row_checks t (S i) columns row
         end
       else insert_row_checks t (S i) columns row
     else insert_row_checks t (S i) columns row) = Ret r) as ->.
  { clear Hty Hnn. destruct (primary_key c && _ && _) eqn:Hpk; [|done].
    apply andb_true_iff in Hpk as [_ Hpk%bool_decide_eq_true].
    specialize (Hcols 0). rewrite Nat.add_0_r in Hcols. simpl in Hcols.
    unfold no_index in Hno. rewrite Hpk in Hno.
    destruct Hno as (col & Hcol & Hni & Hnt). rewrite Hcol in Hcols. simplify_eq.
    rewrite (bool_decide_eq_false_2 (type col = Int)),
      (bool_decide_eq_false_2 (type col = Text)) by done. done. }
  exists r. split_and!; [done..|]. rewrite Hr2. split.
  - by constructor.
  - by intros [_ ?]%Forall2_cons_1.
Qed.

Lemma update_index_no_index t key i :
  no_index t → update_index t key i = Ret (t, Returned ()).
Proof.
  intros Hno. unfold update_index, no_index in *.
  destruct (primary_key_index_ t) as [pk|]; [|done].
  destruct Hno as (col & -> & Hni & Hnt). by destruct (type col).
Qed.

Lemma insert_row_no_index t row :
  no_index t →
  ∃ t' c, insert_row t row = Ret (t', c) ∧
          (c = Returned true ↔ row_admitted (columns_ t) row) ∧
          (c = Returned true → rows_ t' = rows_ t ++ [row]) ∧
          (c ≠ Returned true → t' = t).
Proof.
  intros Hno. unfold insert_row. case_bool_decide as Hlen; simpl.
  2:{ eexists _, _. split_and!; [done| |done..]. split; [done|].
      intros Hadm. apply Forall2_length in Hadm. congruence. }
  destruct (insert_row_checks_no_index t 0 (columns_ t) row Hno)
    as (r & -> & Hr1 & Hr2); [done..|]. simpl.
  destruct Hr1 as [-> | ->].
  - assert (∃ t' : Table,
      match primary_key_index_ t with
      | Some pk =>
          match row !! pk with
          | Some key =>
              '(t2, c) ← update_index (set_rows t (rows_ t ++ [row])) key (length (rows_ t));
              match c with
              | Returned _ => Ret (t2, Returned true)
              | Thrown e => Ret (t2, Thrown e)
              end
          | None => Undefined
          end
      | None => Ret (set_rows t (rows_ t ++ [row]), Returned true)
      end = Ret (t', Returned true) ∧ rows_ t' = rows_ t ++ [row]) as (t' & -> & Hrows).
    { destruct (primary_key_index_ t) as [pk|] eqn:Hpk; [|by eexists].
      assert (is_Some (row !! pk)) as [key ->].
      { apply lookup_lt_is_Some. rewrite Hlen. unfold no_index in Hno.
        rewrite Hpk in Hno. destruct Hno as (col & Hcol & _).
        by eapply lookup_lt_Some. }
      rewrite update_index_no_index by done. simpl. by eexists. }
    eexists _, _. split_and!; [done| |done..]. split; [|done]. intros _. by apply Hr2.
  - eexists _, _. split_and!; [done| |done..]. split; [done|].
    intros Hadm%Hr2. done.
Qed.

Lemma indexed_pk_None_no_index n columns :
  indexed_pk columns = None → no_index (new_Table n columns).
Proof.
  unfold indexed_pk, no_index, new_Table. simpl.
  destruct (first_primary_key 0 columns) as [pk|] eqn:Hpk; simpl; [|done].
  apply first_primary_key_spec in Hpk as [_ (col & Hcol & _)].
  rewrite Nat.sub_0_r in Hcol. rewrite Hcol. simpl.
  case_bool_decide as Hty; [done|]. intros _. exists col. naive_solver.
Qed.

End db_more.

(** ** Properties of tables *)

Section db_extras.
Import db.

(** Whatever the columns and whatever the operations, the calls of
    [insert_row], [update] and [remove] return or throw: none reads past
    the end of a row or of the columns, or uses an index that was not
    created.  The columns stay as they were, and every row keeps one value
    per column, each of them Null or of the type of its column. *)
Theorem table_operations_are_safe (n : string) (columns : list ColumnDef)
    (ops : list table_op) :
  ∃ t, run_table_ops (new_Table n columns) ops = Ret t ∧
       columns_ t = columns ∧
       Forall (row_fits columns) (rows_ t).
Proof.
  destruct (run_table_ops_ok (new_Table n columns) ops (new_Table_ok n columns))
    as (t & Hr & [_ Hrows] & Hc & _).
  simpl in Hc. exists t. split_and!; [done..|]. by rewrite <-Hc.
Qed.

(** When no column before the key column has its name, after insertions,
    and updates that leave the key column alone, the lookup that [select]
    does in the index for a condition [key = k] returns what the scan of
    all rows returns; [select] is the filter of the rows by the
    conditions. *)
Theorem select_by_key_agrees_with_scan (n : string) (columns : list ColumnDef)
    (pk : nat) (col : ColumnDef) (ops : list table_op) :
  indexed_pk columns = Some (pk, col) →
  column_index_from 0 columns (name col) = Some pk →
  forallb (keeps_key (name col)) ops = true →
  ∃ t, run_table_ops (new_Table n columns) ops = Ret t ∧
       ∀ conditions,
         select t conditions
         = Ret (filter (λ row, row_matches t row conditions = true) (rows_ t)).
Proof.
  intros Hpk Hname Hops.
  destruct (run_table_ops_exact _ pk col ops (new_Table_exact n columns pk col Hpk) Hops)
    as (t & Hr & Hex).
  destruct (run_table_ops_ok (new_Table n columns) ops (new_Table_ok n columns))
    as (t' & Hr' & _ & Hc & _).
  simpl in Hc. rewrite Hr in Hr'. injection Hr' as <-. exists t. split; [done|].
  intros conditions. apply (select_exact t pk col); [done|].
  unfold column_index. by rewrite Hc.
Qed.


(** As long as no row was removed, a row that [insert_row] has accepted
    is what a [select] by its key returns. *)
Theorem insert_row_then_select (n : string) (columns : list ColumnDef)
    (pk : nat) (col : ColumnDef) (ops : list table_op) :
  indexed_pk columns = Some (pk, col) →
  forallb (λ o, negb (is_remove o)) ops = true →
  ∃ t, run_table_ops (new_Table n columns) ops = Ret t ∧
       ∀ row t',
         insert_row t row = Ret (t', Returned true) →
         ∃ k, row !! pk = Some k ∧
              select t' [mkCondition (name col) "=" k] = Ret [row].
Proof.
  intros Hpk Hops.
  destruct (run_table_ops_strict _ pk col ops (new_Table_inv n columns pk col Hpk) Hops)
    as (t & Hr & Hinv).
  exists t. split; [done|]. intros row t' Hins.
  destruct (insert_row_inv true t pk col row Hinv) as (t'' & c & Hins' & Hinv' & Hrows).
  rewrite Hins in Hins'. simplify_eq.
  destruct Hrows as [[_ Hrows]|[? _]]; [|done].
  destruct Hinv' as (f & Hview & Hall & _).
  destruct (Hall (length (rows_ t)) row) as (_ & k & Hk & Hok & Hfk).
  { by rewrite Hrows, lookup_app_r, Nat.sub_diag. }
  exists k. split; [done|]. rewrite (select_by_key t'' pk col f k) by done.
  rewrite Hfk. simpl. by rewrite Hrows, lookup_app_r, Nat.sub_diag.
Qed.

(** As long as no update came after a removal, [insert_row] rejects every
    row whose key is the key of a row of the table, and leaves the table
    as it is. *)
Theorem insert_row_rejects_duplicate_key (n : string) (columns : list ColumnDef)
    (pk : nat) (col : ColumnDef) (ops : list table_op) :
  indexed_pk columns = Some (pk, col) →
  no_update_after_remove ops = true →
  ∃ t, run_table_ops (new_Table n columns) ops = Ret t ∧
       ∀ row r, r ∈ rows_ t → row !! pk = r !! pk →
                insert_row t row = Ret (t, Returned false).
Proof.
  intros Hpk Hops.
  destruct (run_table_ops_inv _ pk col ops (new_Table_inv n columns pk col Hpk) Hops)
    as (t & Hr & Hinv).
  exists t. split; [done|]. intros row r Hr' Hkey.
  by eapply insert_row_dup.
Qed.

(** A table whose primary key has no index -- there is none, or its type
    is not Int or Text -- admits every row that fits the columns, whether
    or not a row with the same key is there already. *)
Theorem insert_row_without_index (n : string) (columns : list ColumnDef)
    (ops : list table_op) (row : Row) :
  indexed_pk columns = None →
  ∃ t t' c,
    run_table_ops (new_Table n columns) ops = Ret t ∧
    insert_row t row = Ret (t', c) ∧
    (c = Returned true ↔ row_admitted columns row) ∧
    (c = Returned true → rows_ t' = rows_ t ++ [row]) ∧
    (c ≠ Returned true → t' = t).
Proof.
  intros Hpk.
  destruct (run_table_ops_ok (new_Table n columns) ops (new_Table_ok n columns))
    as (t & Hr & _ & Hc & Hp).
  simpl in Hc.
  assert (no_index t) as Hno.
  { pose proof (indexed_pk_None_no_index n columns Hpk) as Hno.
    unfold no_index in *. by rewrite Hp, Hc. }
  destruct (insert_row_no_index t row Hno) as (t' & c & Hi & Hiff & Hyes & Hnot).
  exists t, t', c. rewrite Hc in Hiff. done.
Qed.

(** [remove] returns the number of rows that a scan with the same
    conditions finds; afterwards such a scan finds nothing, a second
    [remove] removes nothing, and any other scan finds what it found
    before, less the removed rows. *)
Theorem remove_deletes_the_matching_rows (t : Table) (conditions : list Condition) :
  let t' := (remove t conditions).1 in
  (remove t conditions).2 = length (full_scan t conditions) ∧
  full_scan t' conditions = [] ∧
  remove t' conditions = (t', 0) ∧
  ∀ others,
    full_scan t' others
    = filter (λ row, row_matches t row conditions ≠ true) (full_scan t others).
Proof.
  simpl. split_and!.
  - apply (length_filter_complement (λ row, row_matches t row conditions = true)).
  - apply (filter_filter_none (λ row, row_matches t row conditions = true)).
  - unfold remove. simpl.
    assert (filter (λ row, row_matches t row conditions ≠ true)
              (filter (λ row, row_matches t row conditions ≠ true) (rows_ t))
            = filter (λ row, row_matches t row conditions ≠ true) (rows_ t)) as Hidem.
    { induction (rows_ t) as [|row rows IH]; [done|].
      destruct (decide (row_matches t row conditions ≠ true)).
      - rewrite !filter_cons_True by done. by f_equal.
      - by rewrite !filter_cons_False by done. }
    unfold row_matches in *. simpl. rewrite Hidem.
    by rewrite Nat.sub_diag.
  - intros others. unfold full_scan. simpl. apply filter_comm.
Qed.

(** [update] with one assignment to a column other than the primary key
    sets the column in every row that matches the conditions and returns
    their number; if the value is neither Null nor of the type of the
    column it changes nothing, yet counts the rows.  NOT NULL is not
    checked. *)
Theorem update_sets_the_column (n : string) (columns : list ColumnDef)
    (ops : list table_op) (column : string) (j : nat) (col : ColumnDef)
    (v : DBValue) (conditions : list Condition) :
  column_index_from 0 columns column = Some j →
  columns !! j = Some col →
  first_primary_key 0 columns ≠ Some j →
  ∃ t t',
    run_table_ops (new_Table n columns) ops = Ret t ∧
    update t {[column := v]} conditions
    = Ret (t', Returned (length (full_scan t conditions))) ∧
    rows_ t' =
      (λ row, if row_matches t row conditions
                 && (is_null v || bool_decide (value_type v = type col))
              then <[j := v]> row else row) <$> rows_ t.
Proof.
  intros Hj Hcol Hnp.
  destruct (run_table_ops_ok (new_Table n columns) ops (new_Table_ok n columns))
    as (t & Hr & _ & Hc & Hp).
  simpl in Hp, Hc. exists t. eexists. split; [done|].
  unfold update. rewrite resolve_updates_singleton. unfold column_index.
  rewrite Hc, Hj. rewrite update_loop_plain; [|intros pk Hpk|done].
  2:{ apply lookup_singleton_ne. congruence. }
  rewrite take_0, drop_0. simpl. split; [done|].
  apply list_fmap_ext. intros _ row _. simpl.
  destruct (row_matches t row conditions); [|done]. simpl.
  rewrite assign_fields_singleton. unfold assign_field. rewrite Hc, Hcol. simpl.
  destruct (is_null v); simpl; [done|].
  destruct (decide (value_type v = type col)) as [Hty|Hty].
  - by rewrite !bool_decide_eq_true_2 by congruence.
  - by rewrite !bool_decide_eq_false_2 by congruence.
Qed.

(** For values that are not floating-point numbers the six operators of a
    condition are one order: [>] is [<] with the sides exchanged, [<=],
    [>=] and [!=] are the negations of [>], [<] and [=], [=] holds for
    equal values only, and of [<], [=], [>] exactly one holds. *)
Theorem comparison_operators_agree (columns : list ColumnDef) (row : Row)
    (column : string) (j : nat) (x v : DBValue) :
  column_index_from 0 columns column = Some j → row !! j = Some x →
  value_type x ≠ Float → value_type v ≠ Float →
  let holds o := evaluate (mkCondition column o v) row columns in
  holds "<" = values_less x v ∧
  holds ">" = values_less v x ∧
  (holds "=" = true ↔ x = v) ∧
  holds "<=" = negb (holds ">") ∧
  holds ">=" = negb (holds "<") ∧
  holds "!=" = negb (holds "=") ∧
  (holds "<" = true → holds "=" = false ∧ holds ">" = false) ∧
  (holds "=" = true → holds "<" = false ∧ holds ">" = false) ∧
  (holds "<" = false → holds "=" = false → holds ">" = true).
Proof.
  intros Hj Hx Hxf Hvf. simpl. unfold evaluate. simpl. rewrite Hj, Hx. simpl.
  pose proof (values_equal_eq x v Hxf) as Heq.
  pose proof (values_less_irrefl x Hxf) as Hirr.
  pose proof (values_less_asym x v Hxf Hvf) as Hasym.
  pose proof (values_less_asym v x Hvf Hxf) as Hasym'.
  pose proof (values_less_total x v Hxf Hvf) as Htot.
  destruct (values_less x v) eqn:Hlt, (values_less v x) eqn:Hgt,
    (values_equal x v) eqn:He; simpl;
    try (by specialize (Hasym eq_refl));
    try (by specialize (Hasym' eq_refl));
    try (by (destruct Heq as [Heq _]; specialize (Heq eq_refl); subst; congruence));
    try (by (specialize (Htot eq_refl eq_refl); destruct Heq as [_ Heq];
             specialize (Heq Htot)));
    split_and!; try done; try (by intros [??]); naive_solver.
Qed.

End db_extras.

Section db_extras_examples.
Import db.

Lemma select_by_key_agrees_with_scan_witness :
  ∃ t, run_table_ops (new_Table "users" users_columns)
         [TInsert ada; TInsert linus; rename 1 "Grace"] = Ret t ∧
       ∀ conditions,
         select t conditions
         = Ret (filter (λ row, row_matches t row conditions = true) (rows_ t)).
Proof.
  apply (select_by_key_agrees_with_scan "users" users_columns 0 id_column
           [TInsert ada; TInsert linus; rename 1 "Grace"]); reflexivity.
Defined.


Lemma insert_row_then_select_witness :
  ∃ t, run_table_ops (new_Table "users" users_columns)
         [TInsert ada; TUpdate {["id" := DBInt 7]} [id_is 1]] = Ret t ∧
       ∀ row t',
         insert_row t row = Ret (t', Returned true) →
         ∃ k, row !! 0 = Some k ∧
              select t' [mkCondition "id" "=" k] = Ret [row].
Proof.
  apply (insert_row_then_select "users" users_columns 0 id_column
           [TInsert ada; TUpdate {["id" := DBInt 7]} [id_is 1]]); reflexivity.
Defined.

Lemma insert_row_rejects_duplicate_key_witness :
  ∃ t, run_table_ops (new_Table "users" users_columns)
         [TInsert ada; TInsert linus; TRemove [id_is 1]; TInsert guido] = Ret t ∧
       ∀ row r, r ∈ rows_ t → row !! 0 = r !! 0 →
                insert_row t row = Ret (t, Returned false).
Proof.
  apply (insert_row_rejects_duplicate_key "users" users_columns 0 id_column
           [TInsert ada; TInsert linus; TRemove [id_is 1]; TInsert guido]); reflexivity.
Defined.

Lemma insert_row_without_index_witness :
  ∃ t t' c,
    run_table_ops (new_Table "readings" readings_columns)
      [TInsert [DBFloat 1.5; DBText "first"]] = Ret t ∧
    insert_row t [DBFloat 1.5; DBText "again"] = Ret (t', c) ∧
    (c = Returned true ↔ row_admitted readings_columns [DBFloat 1.5; DBText "again"]) ∧
    (c = Returned true → rows_ t' = rows_ t ++ [[DBFloat 1.5; DBText "again"]]) ∧
    (c ≠ Returned true → t' = t).
Proof.
  apply (insert_row_without_index "readings" readings_columns
           [TInsert [DBFloat 1.5; DBText "first"]] [DBFloat 1.5; DBText "again"]).
  reflexivity.
Defined.

Lemma update_sets_the_column_witness :
  ∃ t t',
    run_table_ops (new_Table "users" users_columns) [TInsert ada; TInsert linus] = Ret t ∧
    update t {["name" := DBNull]} [id_is 2]
    = Ret (t', Returned (length (full_scan t [id_is 2]))) ∧
    rows_ t' =
      (λ row, if row_matches t row [id_is 2]
                 && (is_null DBNull || bool_decide (value_type DBNull = Text))
              then <[1 := DBNull]> row else row) <$> rows_ t.
Proof.
  apply (update_sets_the_column "users" users_columns [TInsert ada; TInsert linus]
           "name" 1 (mkColumnDef "name" Text false false) DBNull [id_is 2]);
    [reflexivity|reflexivity|discriminate].
Defined.

Lemma comparison_operators_agree_witness :
  let holds o := evaluate (mkCondition "id" o (DBText "7")) ada users_columns in
  holds "<" = values_less (DBInt 1) (DBText "7") ∧
  holds ">" = values_less (DBText "7") (DBInt 1) ∧
  (holds "=" = true ↔ DBInt 1 = DBText "7") ∧
  holds "<=" = negb (holds ">") ∧
  holds ">=" = negb (holds "<") ∧
  holds "!=" = negb (holds "=") ∧
  (holds "<" = true → holds "=" = false ∧ holds ">" = false) ∧
  (holds "=" = true → holds "<" = false ∧ holds ">" = false) ∧
  (holds "<" = false → holds "=" = false → holds ">" = true).
Proof.
  apply (comparison_operators_agree users_columns ada "id" 0 (DBInt 1) (DBText "7"));
    [reflexivity|reflexivity|discriminate|discriminate].
Defined.

End db_extras_examples.

(** ** The database *)

Section database_lemmas.
Import db.

Lemma validate_columns_spec has_primary_key columns :
  validate_columns has_primary_key columns = true ↔
  length (filter (λ col, primary_key col = true) columns)
    + (if has_primary_key then 1 else 0) ≤ 1.
Proof.
  revert has_primary_key. induction columns as [|col columns IH];
    intros has_primary_key; simpl.
  { destruct has_primary_key; simpl; split; (done || lia). }
  destruct (primary_key col) eqn:Hcol.
  - rewrite filter_cons_True by done. simpl.
    destruct has_primary_key; [split; [done|lia]|].
    rewrite IH. lia.
  - rewrite filter_cons_False by congruence. apply IH.
Qed.

Lemma validate_columns_one columns :
  validate_columns false columns = true ↔
  length (filter (λ col, primary_key col = true) columns) ≤ 1.
Proof. rewrite validate_columns_spec. lia. Qed.

Lemma create_table_spec (d : Database) (n : string) (columns : list ColumnDef) :
  let (d', created) := create_table d n columns in
  (created = true ↔
   get_table d n = None ∧
   length (filter (λ col, primary_key col = true) columns) ≤ 1) ∧
  (created = true →
   get_table d' n = Some (new_Table n columns) ∧
   ∀ n', n' ≠ n → get_table d' n' = get_table d n') ∧
  (created = false → d' = d).
Proof.
  unfold create_table, table_exists, get_table.
  pose proof (validate_columns_one columns) as Hv.
  case_bool_decide as Hn.
  { split_and!; [|done..]. split; [done|]. intros [Hnone _].
    rewrite Hnone in Hn. by destruct Hn. }
  apply eq_None_not_Some in Hn.
  destruct (validate_columns false columns); simpl.
  - split_and!; [|split; [by rewrite lookup_insert_eq|]|done].
    + split; [|done]. intros _. split; [done|]. by apply Hv.
    + intros n' Hn'. by rewrite lookup_insert_ne.
  - split_and!; [|done..]. split; [done|]. intros [_ Hle%Hv]. done.
Qed.

End database_lemmas.

Section database_extras.
Import db.

(** [create_table] returns true exactly when no table has the name and at
    most one column is declared primary key; it then registers a new, empty
    table under the name and leaves the other tables alone.  When it
    returns false the database is unchanged. *)
Theorem create_table_checks (d : Database) (n : string) (columns : list ColumnDef) :
  let (d', created) := create_table d n columns in
  (created = true ↔
   get_table d n = None ∧
   length (filter (λ col, primary_key col = true) columns) ≤ 1) ∧
  (created = true →
   get_table d' n = Some (new_Table n columns) ∧
   ∀ n', n' ≠ n → get_table d' n' = get_table d n') ∧
  (created = false → d' = d).
Proof. apply create_table_spec. Qed.

(** However tables are created and dropped, [list_tables] names exactly
    the tables that exist, each once; every table is registered under its
    own name, and none has two primary-key columns. *)
Theorem database_tables_are_well_formed (name : string) (ops : list database_op) :
  let d := run_database_ops (new_Database name) ops in
  NoDup (list_tables d) ∧
  (∀ n, n ∈ list_tables d ↔ table_exists d n = true) ∧
  (∀ n t, get_table d n = Some t →
          name_ t = n ∧
          length (filter (λ col, primary_key col = true) (columns_ t)) ≤ 1).
Proof.
  simpl. split_and!.
  - apply NoDup_fst_map_to_list.
  - intros n. unfold list_tables, table_exists. rewrite bool_decide_eq_true.
    rewrite list_elem_of_fmap. split.
    + intros ([n' t] & -> & Hin%elem_of_map_to_list). by exists t.
    + intros [t Ht]. exists (n, t). split; [done|]. by apply elem_of_map_to_list.
  - induction ops as [|o ops IH] using rev_ind.
    { intros n t. unfold get_table. simpl. by rewrite lookup_empty. }
    unfold run_database_ops in *. rewrite foldl_app. simpl.
    set (d := foldl run_database_op (new_Database name) ops) in *.
    intros n t. destruct o as [n' columns|n']; simpl.
    + pose proof (create_table_spec d n' columns) as Hc.
      destruct (create_table d n' columns) as [d' created].
      destruct Hc as (Hiff & Hyes & Hno). simpl.
      destruct created; [|rewrite Hno by done; apply IH].
      destruct (Hyes eq_refl) as [Hnew Hothers].
      destruct (decide (n = n')) as [->|Hne].
      * rewrite Hnew. intros [= <-]. simpl. split; [done|]. by apply Hiff.
      * rewrite Hothers by done. apply IH.
    + unfold drop_table, get_table. destruct (negb (table_exists d n')); simpl; [apply IH|].
      intros [_ Ht]%lookup_delete_Some. by apply IH.
Qed.

(** [drop_table] returns whether the table existed; afterwards it does
    not, the other tables are as before, and the name can be used for a
    new, empty table. *)
Theorem drop_table_forgets (d : Database) (n : string) (columns : list ColumnDef) :
  let (d', dropped) := drop_table d n in
  dropped = table_exists d n ∧
  get_table d' n = None ∧
  (∀ n', n' ≠ n → get_table d' n' = get_table d n') ∧
  (length (filter (λ col, primary_key col = true) columns) ≤ 1 →
   ∃ d'', create_table d' n columns = (d'', true) ∧
          get_table d'' n = Some (new_Table n columns)).
Proof.
  unfold drop_table. destruct (table_exists d n) eqn:Hex; simpl.
  - split_and!; [done|apply lookup_delete_eq| |].
    + intros n' Hn'. unfold get_table. simpl. by rewrite lookup_delete_ne.
    + intros Hpk. unfold create_table, table_exists. simpl.
      rewrite lookup_delete_eq. rewrite bool_decide_eq_false_2 by (by intros [??]).
      apply validate_columns_one in Hpk as ->. simpl.
      eexists. split; [done|]. unfold get_table. simpl. by rewrite lookup_insert_eq.
  - apply bool_decide_eq_false in Hex. apply eq_None_not_Some in Hex.
    split_and!; [done|done|done|].
    intros Hpk. unfold create_table, table_exists. rewrite Hex.
    rewrite bool_decide_eq_false_2 by (by intros [??]).
    apply validate_columns_one in Hpk as ->. simpl.
    eexists. split; [done|]. unfold get_table. simpl. by rewrite lookup_insert_eq.
Qed.

End database_extras.

(** ** The transaction manager *)

Section txn_lemmas.
Import txn.
Context {Value Column Index : Type}.
Implicit Types (tm : @TransactionManager Value) (id : N).


Lemma manager_inv_new : manager_inv (@new_TransactionManager Value) 0.
Proof. split; [done|]. intros id tx. simpl. by rewrite lookup_empty. Qed.

Lemma manager_inv_op tm count (o : @manager_op Value Column Index) :
  manager_inv tm count →
  (count + (if is_begin o then 1 else 0) < 2 ^ 64 - 1)%N →
  manager_inv (run_manager_op tm o) (count + (if is_begin o then 1 else 0)).
Proof.
  intros [Hnext Hall] Hcount. destruct o as [|id|id|t id]; simpl in *.
  - split; simpl.
    + rewrite Hnext. rewrite N.mod_small by lia. lia.
    + intros id tx. rewrite Hnext. rewrite N.mod_small by lia.
      destruct (decide (id = (1 + count)%N)) as [->|Hne].
      * rewrite lookup_insert_eq. intros [= <-]. simpl. split_and!; [done..|lia|lia].
      * rewrite lookup_insert_ne by done. intros Htx.
        destruct (Hall id tx Htx) as (? & ? & ?). split_and!; [done..|lia|lia].
  - rewrite N.add_0_r. unfold commit_transaction.
    destruct (transactions_ tm !! id) as [tx|] eqn:Htx; simpl; [|done].
    split; [done|]. simpl. intros id' tx'.
    intros [Hne Hl]%lookup_delete_Some. rewrite lookup_insert_ne in Hl by done.
    by apply Hall.
  - rewrite N.add_0_r. unfold abort_transaction.
    destruct (transactions_ tm !! id) as [tx|] eqn:Htx; simpl; [|done].
    split; [done|]. simpl. intros id' tx'.
    intros [Hne Hl]%lookup_delete_Some. rewrite lookup_insert_ne in Hl by done.
    by apply Hall.
  - rewrite N.add_0_r. unfold store_original_state, get_transaction.
    case_decide; [|done].
    destruct (transactions_ tm !! id) as [tx|] eqn:Htx; simpl; [|done].
    case_decide; [|done]. split; [done|]. simpl. intros id' tx'.
    destruct (decide (id' = id)) as [->|Hne].
    + rewrite lookup_insert_eq. intros [= <-]. simpl. by apply Hall.
    + rewrite lookup_insert_ne by done. by apply Hall.
Qed.

Lemma begins_snoc (ops : list (@manager_op Value Column Index)) o :
  begins (ops ++ [o]) = (begins ops + (if is_begin o then 1 else 0))%N.
Proof.
  unfold begins. rewrite filter_app, length_app.
  destruct (is_begin o) eqn:Ho.
  - rewrite filter_cons_True by done. simpl. lia.
  - rewrite filter_cons_False by congruence. simpl. lia.
Qed.

Lemma manager_inv_ops (ops : list (@manager_op Value Column Index)) :
  (begins ops < 2 ^ 64 - 1)%N →
  manager_inv (run_manager_ops new_TransactionManager ops) (begins ops).
Proof.
  induction ops as [|o ops IH] using rev_ind; intros Hcount.
  { apply manager_inv_new. }
  unfold run_manager_ops. rewrite foldl_app. simpl.
  rewrite begins_snoc in *. apply manager_inv_op; [|done].
  apply IH. destruct (is_begin o); lia.
Qed.

End txn_lemmas.

Section txn_extras.
Import txn.
Context {Value Column Index : Type}.

(** [commit_transaction] and [abort_transaction] do the same: when the
    transaction is registered they remove it from the manager -- the state
    they write into it goes with it -- and otherwise they throw and leave
    the manager as it is; neither touches the counter. *)
Theorem commit_and_abort_only_unregister (tm : @TransactionManager Value) (id : N) :
  commit_transaction tm id = abort_transaction tm id ∧
  let (tm', c) := abort_transaction tm id in
  next_transaction_id_ tm' = next_transaction_id_ tm ∧
  match transactions_ tm !! id with
  | Some _ => c = Returned () ∧ transactions_ tm' = delete id (transactions_ tm)
  | None => c = Thrown (not_found id) ∧ tm' = tm
  end.
Proof.
  unfold commit_transaction, abort_transaction.
  destruct (transactions_ tm !! id) as [tx|]; [|done]. simpl.
  by rewrite !delete_insert_eq.
Qed.

(** Until the counter wraps around, [begin_transaction] hands out the
    numbers 1, 2, 3, ... in turn, never the number of a registered
    transaction; and every registered transaction is ACTIVE and filed
    under its own number. *)
Theorem transaction_ids_are_fresh (ops : list (@manager_op Value Column Index)) :
  (begins ops < 2 ^ 64 - 1)%N →
  let tm := run_manager_ops new_TransactionManager ops in
  (begin_transaction tm).2 = (1 + begins ops)%N ∧
  transactions_ tm !! (begin_transaction tm).2 = None ∧
  ∀ id tx, transactions_ tm !! id = Some tx → id_ tx = id ∧ state_ tx = ACTIVE.
Proof.
  intros Hcount. simpl. destruct (manager_inv_ops ops Hcount) as [Hnext Hall].
  split_and!; [done| |].
  - destruct (transactions_ _ !! _) as [tx|] eqn:Htx; [|done].
    apply Hall in Htx as (_ & _ & ?). lia.
  - intros id tx Htx. apply Hall in Htx as (? & ? & _). done.
Qed.

(** Once a transaction was committed or aborted its number is unknown:
    [get_transaction], [commit_transaction] and [abort_transaction] throw
    "Transaction <id> not found", and change nothing. *)
Theorem finished_transaction_is_unknown (tm : @TransactionManager Value) (id : N) :
  let tm' := (commit_transaction tm id).1 in
  get_transaction tm' id = Thrown (not_found id) ∧
  commit_transaction tm' id = (tm', Thrown (not_found id)) ∧
  abort_transaction tm' id = (tm', Thrown (not_found id)).
Proof.
  simpl. assert (transactions_ (commit_transaction tm id).1 !! id = None) as Hnone.
  { unfold commit_transaction.
    destruct (transactions_ tm !! id) as [tx|] eqn:Htx; simpl; [|done].
    apply lookup_delete_eq. }
  unfold get_transaction. unfold commit_transaction at 2, abort_transaction.
  by rewrite Hnone.
Qed.

End txn_extras.

(** ** The transaction-aware table *)

Section txn_table_lemmas.
Import txn.
Context {Value Column Index : Type}.
Variable Index_column_index : Index → nat.
Variable Value_eq : Value → Value → bool.
Variable Index_update : Index → nat → Value → Index.
Variable Index_remove : Index → nat → Index.
Implicit Types (rows : list (list Value)) (indexes : gmap string Index).



End txn_table_lemmas.

Section txn_table_extras.
Import txn.
Context {Value Column Index : Type}.
Variable validate_value : Column → Value → bool.
Variable Column_name : Column → string.
Variable Index_column_index : Index → nat.
Variable Index_insert : Index → Value → nat → Index.
Variable Value_eq : Value → Value → bool.
Variable Index_update : Index → nat → Value → Index.
Variable Index_remove : Index → nat → Index.







End txn_table_extras.

Section txn_extras_examples.
Import txn.

Lemma transaction_ids_are_fresh_witness :
  let ops : list (@manager_op Z () ()) := [MBegin; MCapture accounts 1; MCommit 1; MBegin] in
  let tm := run_manager_ops new_TransactionManager ops in
  (begin_transaction tm).2 = (1 + begins ops)%N ∧
  transactions_ tm !! (begin_transaction tm).2 = None ∧
  ∀ id tx, transactions_ tm !! id = Some tx → id_ tx = id ∧ state_ tx = ACTIVE.
Proof.
  apply (transaction_ids_are_fresh
           ([MBegin; MCapture accounts 1; MCommit 1; MBegin] : list (@manager_op Z () ()))).
  reflexivity.
Defined.




End txn_extras_examples.

(** ** The tokenizer *)

Section parser_lemmas.
Import Stdlib.Strings.Ascii parser.
Implicit Types (sql pre body post current_token kept : list ascii).
Implicit Types (tokens out : list (list ascii)) (c q : ascii).

Lemma push_current_app tokens current_token :
  push_current tokens current_token = tokens ++ push_current [] current_token.
Proof. destruct current_token; simpl; by rewrite ?app_nil_r. Qed.

Lemma concat_push_current tokens current_token :
  concat (push_current tokens current_token) = concat tokens ++ current_token.
Proof.
  destruct current_token; simpl; [by rewrite app_nil_r|].
  by rewrite concat_app; simpl; rewrite app_nil_r.
Qed.

Lemma Forall_push_current (P : list ascii → Prop) tokens current_token :
  Forall P tokens → (current_token ≠ [] → P current_token) →
  Forall P (push_current tokens current_token).
Proof.
  intros Htokens Hcur. destruct current_token; simpl; [done|].
  apply Forall_app. split; [done|]. constructor; [by apply Hcur|done].
Qed.

(** Induction over the input of [tokenize_from], which consumes one or two
    characters in a step. *)
Lemma chars_ind2 (P : list ascii → Prop) :
  P [] → (∀ c sql, P sql → (∀ c' sql', sql = c' :: sql' → P sql') → P (c :: sql)) →
  ∀ sql, P sql.
Proof.
  intros Hnil Hcons sql. cut (P sql ∧ ∀ c' sql', sql = c' :: sql' → P sql').
  { by intros [? _]. }
  induction sql as [|c sql [IH1 IH2]]; [done|].
  split; [by apply Hcons|]. by intros c' sql' [= _ <-].
Qed.

(** *** What [tokenize] keeps of the input *)

Local Abbreviation keeps sql tokens current_token out :=
  (∃ kept, concat out = concat tokens ++ current_token ++ kept ∧
           kept `sublist_of` sql ∧
           filter (λ c, isspace c = false) kept = filter (λ c, isspace c = false) sql ∧
           (Forall (λ token, token ≠ []) tokens → Forall (λ token, token ≠ []) out)).

Lemma keeps_char c sql tokens current_token tokens' current_token' out :
  concat tokens' ++ current_token' = concat tokens ++ current_token ++ [c] →
  (Forall (λ token, token ≠ []) tokens → Forall (λ token, token ≠ []) tokens') →
  keeps sql tokens' current_token' out → keeps (c :: sql) tokens current_token out.
Proof.
  intros Heq Hne (kept & Hout & Hsub & Hfilter & Hall). exists (c :: kept). split_and!.
  - rewrite Hout. rewrite (app_assoc _ current_token'), Heq.
    by rewrite <-!app_assoc.
  - by apply sublist_skip.
  - destruct (isspace c) eqn:Hc.
    + rewrite !filter_cons_False by (by rewrite Hc). done.
    + rewrite !filter_cons_True by done. by rewrite Hfilter.
  - intros ?. by apply Hall, Hne.
Qed.

Lemma keeps_space c sql tokens current_token tokens' current_token' out :
  isspace c = true →
  concat tokens' ++ current_token' = concat tokens ++ current_token →
  (Forall (λ token, token ≠ []) tokens → Forall (λ token, token ≠ []) tokens') →
  keeps sql tokens' current_token' out → keeps (c :: sql) tokens current_token out.
Proof.
  intros Hc Heq Hne (kept & Hout & Hsub & Hfilter & Hall). exists kept. split_and!.
  - rewrite Hout. rewrite (app_assoc _ current_token'), Heq.
    by rewrite <-!app_assoc.
  - by apply sublist_cons.
  - rewrite filter_cons_False by (by rewrite Hc). done.
  - intros ?. by apply Hall, Hne.
Qed.

Lemma push_current_nonempty tokens current_token :
  Forall (λ token, token ≠ []) tokens →
  Forall (λ token, token ≠ []) (push_current tokens current_token).
Proof. intros ?. by apply Forall_push_current. Qed.

Lemma tokenize_from_keeps sql tokens current_token in_quotes quote_char :
  keeps sql tokens current_token
        (tokenize_from sql tokens current_token in_quotes quote_char).
Proof.
  revert tokens current_token in_quotes quote_char.
  induction sql as [|c rest IH IH2] using chars_ind2;
    intros tokens current_token in_quotes quote_char; simpl.
  { exists []. rewrite concat_push_current, !app_nil_r.
    split_and!; [done..|]. apply push_current_nonempty. }
  destruct (is_quote c) eqn:Hquote.
  { destruct in_quotes; simpl.
    - case_bool_decide.
      + eapply keeps_char; [| |apply IH].
        * by rewrite concat_app; simpl; rewrite !app_nil_r.
        * intros ?. apply Forall_app. split; [done|]. constructor; [|done].
          by destruct current_token.
      + eapply keeps_char; [| |apply IH]; [by rewrite app_assoc|done].
    - eapply keeps_char; [| |apply IH].
      + by rewrite concat_push_current, app_assoc.
      + apply push_current_nonempty. }
  destruct in_quotes.
  { eapply keeps_char; [| |apply IH]; [by rewrite app_assoc|done]. }
  destruct (isspace c) eqn:Hspace.
  { eapply keeps_space; [done| | |apply IH].
    - by rewrite concat_push_current, !app_nil_r.
    - apply push_current_nonempty. }
  assert (∀ tokens' rest', concat tokens' = concat tokens ++ current_token ++ [c] →
            (Forall (λ token, token ≠ []) tokens → Forall (λ token, token ≠ []) tokens') →
            ∀ out, keeps rest' tokens' [] out →
                   keeps (c :: rest') tokens current_token out)
    as Hone.
  { intros tokens' rest' Heq Hne out.
    apply (keeps_char c rest' tokens current_token tokens' [] out); [|done].
    by rewrite app_nil_r. }
  assert (concat (push_current tokens current_token ++ [[c]])
          = concat tokens ++ current_token ++ [c]) as Hsingle.
  { rewrite concat_app, concat_push_current; simpl. by rewrite <-app_assoc. }
  assert (Forall (λ token, token ≠ []) tokens →
          Forall (λ token, token ≠ []) (push_current tokens current_token ++ [[c]]))
    as Hsingle_ne.
  { intros ?. apply Forall_app. split; [by apply push_current_nonempty|].
    by constructor. }
  destruct (is_special c); [by eapply Hone; [..|apply IH]|].
  destruct (is_operator c).
  2:{ eapply keeps_char; [| |apply IH]; [by rewrite app_assoc|done]. }
  destruct rest as [|c' rest']; [by eapply Hone; [..|apply IH]|].
  destruct (_ || _); [|by eapply Hone; [..|apply IH]].
  eapply (keeps_char c _ _ _ (push_current tokens current_token) [c]).
  { by rewrite concat_push_current, app_assoc. }
  { apply push_current_nonempty. }
  eapply keeps_char; [| |by eapply IH2].
  - by rewrite concat_app; simpl; rewrite !app_nil_r.
  - intros ?. apply Forall_app. split; [done|]. by constructor.
Qed.

(** *** One step of the loop *)

Lemma is_plain_true c :
  is_plain c = true →
  is_quote c = false ∧ isspace c = false ∧ is_special c = false ∧
  is_operator c = false.
Proof.
  unfold is_plain. intros Hno%negb_true_iff.
  do 3 (apply orb_false_iff in Hno as [Hno ?]). done.
Qed.

Lemma is_special_true c :
  is_special c = true → is_quote c = false ∧ isspace c = false.
Proof.
  unfold is_special. rewrite !orb_true_iff, !bool_decide_eq_true.
  intros [[[->| ->]| ->]| ->]; by vm_compute.
Qed.

Lemma is_operator_true c :
  is_operator c = true →
  is_quote c = false ∧ isspace c = false ∧ is_special c = false.
Proof.
  unfold is_operator. rewrite !orb_true_iff, !bool_decide_eq_true.
  intros [[[->| ->]| ->]| ->]; by vm_compute.
Qed.

Lemma is_quote_true q :
  is_quote q = true → q ≠ "="%char ∧ q ≠ ">"%char ∧ q ≠ " "%char.
Proof.
  unfold is_quote. rewrite orb_true_iff, !bool_decide_eq_true.
  intros [->| ->]; by vm_compute.
Qed.

Lemma step_plain c rest tokens current_token q :
  is_plain c = true →
  tokenize_from (c :: rest) tokens current_token false q
  = tokenize_from rest tokens (current_token ++ [c]) false q.
Proof.
  intros Hc. destruct (is_plain_true c Hc) as (Hq & Hs & Hsp & Hop).
  simpl. by rewrite Hq, Hs, Hsp, Hop.
Qed.

Lemma step_space rest tokens current_token q :
  tokenize_from (" "%char :: rest) tokens current_token false q
  = tokenize_from rest (push_current tokens current_token) [] false q.
Proof. done. Qed.

Lemma step_special c rest tokens current_token q :
  is_special c = true →
  tokenize_from (c :: rest) tokens current_token false q
  = tokenize_from rest (push_current tokens current_token ++ [[c]]) [] false q.
Proof.
  intros Hc. destruct (is_special_true c Hc) as (Hq & Hs).
  simpl. by rewrite Hq, Hs, Hc.
Qed.

Lemma step_open c rest tokens current_token q :
  is_quote c = true →
  tokenize_from (c :: rest) tokens current_token false q
  = tokenize_from rest (push_current tokens current_token) [c] true c.
Proof. intros Hc. simpl. by rewrite Hc. Qed.

Lemma step_close rest tokens current_token q :
  is_quote q = true →
  tokenize_from (q :: rest) tokens current_token true q
  = tokenize_from rest (tokens ++ [current_token ++ [q]]) [] false q.
Proof. intros Hq. simpl. by rewrite Hq, bool_decide_eq_true_2. Qed.

Lemma step_inside c rest tokens current_token q :
  c ≠ q →
  tokenize_from (c :: rest) tokens current_token true q
  = tokenize_from rest tokens (current_token ++ [c]) true q.
Proof.
  intros Hc. simpl. rewrite (bool_decide_eq_false_2 (c = q)) by done.
  by destruct (is_quote c).
Qed.

Lemma step_operator c rest tokens current_token q :
  is_operator c = true →
  match rest with c' :: _ => c' ≠ "="%char ∧ c' ≠ ">"%char | [] => True end →
  tokenize_from (c :: rest) tokens current_token false q
  = tokenize_from rest (push_current tokens current_token ++ [[c]]) [] false q.
Proof.
  intros Hc Hrest. destruct (is_operator_true c Hc) as (Hq & Hs & Hsp).
  simpl. rewrite Hq, Hs, Hsp, Hc. destruct rest as [|c' rest']; [done|].
  destruct Hrest.
  rewrite (bool_decide_eq_false_2 (c' = "="%char)),
    (bool_decide_eq_false_2 (c' = ">"%char)) by done.
  by rewrite andb_false_r.
Qed.

Lemma step_operator2 c c' rest tokens current_token q :
  is_operator c = true →
  c' = "="%char ∨ (c = "<"%char ∧ c' = ">"%char) →
  tokenize_from (c :: c' :: rest) tokens current_token false q
  = tokenize_from rest (push_current tokens current_token ++ [[c; c']]) [] false q.
Proof.
  intros Hc Hc'. destruct (is_operator_true c Hc) as (Hq & Hs & Hsp).
  simpl. rewrite Hq, Hs, Hsp, Hc.
  destruct Hc' as [->|[-> ->]]; [by rewrite bool_decide_eq_true_2|done].
Qed.

(** Outside quotes the last quote character does not matter. *)
Lemma tokenize_from_quote_char sql tokens current_token q q' :
  tokenize_from sql tokens current_token false q
  = tokenize_from sql tokens current_token false q'.
Proof.
  revert tokens current_token.
  induction sql as [|c rest IH IH2] using chars_ind2; intros tokens current_token;
    simpl; [done|].
  destruct (is_quote c); [done|].
  destruct (isspace c); [done|]. destruct (is_special c); [done|].
  destruct (is_operator c); [|done].
  destruct rest as [|c' rest']; [done|]. destruct (_ || _); [by eapply IH2|done].
Qed.

(** The tokens found so far are a prefix of the result. *)
Lemma prefix_step (F : list (list ascii) → list (list ascii)) tokens tokens' :
  (∀ tokens, F tokens = tokens ++ F []) →
  F (tokens ++ tokens') = tokens ++ F tokens'.
Proof. intros HF. rewrite HF, (HF tokens'). by rewrite app_assoc. Qed.

Lemma tokenize_from_prefix sql tokens current_token in_quotes q :
  tokenize_from sql tokens current_token in_quotes q
  = tokens ++ tokenize_from sql [] current_token in_quotes q.
Proof.
  revert tokens current_token in_quotes q.
  induction sql as [|c rest IH IH2] using chars_ind2;
    intros tokens current_token in_quotes q; simpl.
  { by rewrite push_current_app. }
  assert (∀ rest' X cur inq q', 
            (∀ tokens cur inq q', tokenize_from rest' tokens cur inq q'
               = tokens ++ tokenize_from rest' [] cur inq q') →
            tokenize_from rest' (push_current tokens current_token ++ X) cur inq q'
            = tokens ++ tokenize_from rest' (push_current [] current_token ++ X) cur inq q')
    as Hpush.
  { intros rest' X cur inq q' Hrest. rewrite (push_current_app tokens), <-app_assoc.
    apply (prefix_step (λ tokens, tokenize_from rest' tokens cur inq q')).
    intros tokens'. apply Hrest. }
  assert (∀ cur inq q',
            tokenize_from rest (push_current tokens current_token) cur inq q'
            = tokens ++ tokenize_from rest (push_current [] current_token) cur inq q')
    as Hpush0.
  { intros cur inq q'. specialize (Hpush rest [] cur inq q' IH).
    by rewrite !app_nil_r in Hpush. }
  destruct (is_quote c).
  { destruct in_quotes; simpl; [|by apply Hpush0].
    case_bool_decide; [|by apply IH].
    apply (prefix_step (λ tokens, tokenize_from rest tokens [] false q) tokens [_]).
    intros tokens'. apply IH. }
  destruct in_quotes; [by apply IH|].
  destruct (isspace c); [by apply Hpush0|].
  destruct (is_special c); [by apply Hpush|].
  destruct (is_operator c); [|by apply IH].
  destruct rest as [|c' rest']; [by apply Hpush|].
  destruct (_ || _); [|by apply Hpush]. apply Hpush.
  intros. by eapply IH2.
Qed.

(** *** Runs of characters *)

Lemma word_run word rest tokens current_token q :
  Forall (λ c, is_plain c = true) word →
  tokenize_from (word ++ rest) tokens current_token false q
  = tokenize_from rest tokens (current_token ++ word) false q.
Proof.
  intros Hword. revert current_token.
  induction Hword as [|c word Hc _ IH]; intros current_token; simpl app.
  { by rewrite app_nil_r. }
  rewrite step_plain by done. rewrite IH. by rewrite <-app_assoc.
Qed.

Lemma string_run body rest tokens current_token q :
  q ∉ body →
  tokenize_from (body ++ rest) tokens current_token true q
  = tokenize_from rest tokens (current_token ++ body) true q.
Proof.
  revert current_token. induction body as [|c body IH]; intros current_token Hq;
    simpl app.
  { by rewrite app_nil_r. }
  apply not_elem_of_cons in Hq as [Hne Hq].
  rewrite step_inside by done. rewrite IH by done. by rewrite <-app_assoc.
Qed.

(** A blank or the end of the input ends the current token. *)
Lemma blank_ends rest tokens current_token q :
  match rest with c :: _ => c = " "%char | [] => True end →
  tokenize_from rest tokens current_token false q
  = tokenize_from rest (push_current tokens current_token) [] false q.
Proof. destruct rest as [|c rest]; [done|]. intros ->. done. Qed.

Lemma tokenize_from_token token rest tokens q :
  is_token token →
  match rest with c :: _ => c = " "%char | [] => True end →
  tokenize_from (token ++ rest) tokens [] false q
  = tokenize_from rest (tokens ++ [token]) [] false q.
Proof.
  intros [(q' & body & Hq' & Hbody & ->)|[(c & Hc & ->)|[(c & Hc & Hop)|[Hne Hword]]]] Hrest.
  - simpl app. rewrite step_open by done. simpl push_current.
    rewrite <-app_assoc, string_run by done. simpl app.
    rewrite step_close by done. apply tokenize_from_quote_char.
  - simpl app. by rewrite step_special.
  - destruct Hop as [->|[->|[-> ->]]]; simpl app.
    + rewrite step_operator; [done..|]. destruct rest; [done|]. by subst.
    + rewrite step_operator2; [done..|]. by left.
    + rewrite step_operator2; [done..|]. by right.
  - rewrite word_run by done. simpl app. rewrite blank_ends by done.
    by destruct token.
Qed.

Lemma tokenize_from_open_string last tokens q :
  is_string false last →
  tokenize_from last tokens [] false q = tokens ++ [last].
Proof.
  intros (q' & body & Hq' & Hbody & ->). rewrite app_nil_r.
  rewrite step_open by done. simpl push_current.
  rewrite <-(app_nil_r body) at 1. by rewrite string_run.
Qed.

Lemma join_cons token tokens :
  tokens ≠ [] → join (token :: tokens) = token ++ " "%char :: join tokens.
Proof. by destruct tokens. Qed.

Lemma tokenize_from_join tokens0 tokens q :
  Forall is_token tokens →
  tokenize_from (join tokens) tokens0 [] false q = tokens0 ++ tokens.
Proof.
  intros Htokens. revert tokens0.
  induction Htokens as [|token tokens Htoken _ IH]; intros tokens0.
  { simpl. by rewrite app_nil_r. }
  destruct tokens as [|token' tokens].
  { simpl join. rewrite <-(app_nil_r token) at 1.
    by rewrite tokenize_from_token. }
  rewrite join_cons by done. rewrite tokenize_from_token by done.
  rewrite step_space. simpl push_current. rewrite IH. by rewrite <-app_assoc.
Qed.

Lemma tokenize_from_join_open tokens0 tokens last q :
  Forall is_token tokens → is_string false last →
  tokenize_from (join (tokens ++ [last])) tokens0 [] false q
  = tokens0 ++ tokens ++ [last].
Proof.
  intros Htokens Hlast. revert tokens0.
  induction Htokens as [|token tokens Htoken _ IH]; intros tokens0.
  { simpl. by apply tokenize_from_open_string. }
  simpl app. rewrite join_cons by (by destruct tokens).
  rewrite tokenize_from_token by done.
  rewrite step_space. simpl push_current. rewrite IH. by rewrite <-app_assoc.
Qed.

Lemma tokenize_join tokens : are_tokens tokens → tokenize (join tokens) = tokens.
Proof.
  intros (complete & Hcomplete & [->|(last & Hlast & ->)]).
  - by apply (tokenize_from_join []).
  - by apply (tokenize_from_join_open []).
Qed.

(** *** The tokens [tokenize] returns *)

Lemma tokenize_from_tokens sql tokens current_token (in_quotes : bool) q :
  Forall is_token tokens →
  (if in_quotes
   then ∃ body, current_token = q :: body ∧ is_quote q = true ∧ q ∉ body
   else Forall (λ c, is_plain c = true) current_token) →
  are_tokens (tokenize_from sql tokens current_token in_quotes q).
Proof.
  revert tokens current_token in_quotes q.
  induction sql as [|c rest IH IH2] using chars_ind2;
    intros tokens current_token in_quotes q; simpl.
  { intros Htokens Hcur. destruct in_quotes.
    - destruct Hcur as (body & -> & Hq & Hbody). exists tokens. split; [done|].
      right. exists (q :: body). split; [|done]. exists q, body.
      by rewrite app_nil_r.
    - exists (push_current tokens current_token). split; [|by left].
      apply Forall_push_current; [done|]. intros Hne. by do 3 right. }
  assert (∀ cur, Forall is_token tokens → Forall (λ c, is_plain c = true) cur →
                 Forall is_token (push_current tokens cur)) as Hpush.
  { intros cur Htokens Hcur. apply Forall_push_current; [done|].
    intros Hne. by do 3 right. }
  destruct (is_quote c) eqn:Hquote.
  { destruct in_quotes; simpl.
    - case_bool_decide as Hc.
      + subst c. intros Htokens (body & -> & Hq & Hbody).
        apply IH; [|by constructor].
        apply Forall_app. split; [done|]. constructor; [|done].
        left. by exists q, body.
      + intros Htokens (body & -> & Hq & Hbody).
        apply IH; [done|]. exists (body ++ [c]).
        split_and!; [done..|]. rewrite not_elem_of_app, not_elem_of_cons.
        split; [done|]. split; [done|]. apply not_elem_of_nil.
    - intros Htokens Hcur. apply IH; [by apply Hpush|].
      exists []. split_and!; [done..|]. apply not_elem_of_nil. }
  destruct in_quotes.
  { intros Htokens (body & -> & Hq & Hbody).
    apply IH; [done|]. exists (body ++ [c]).
    split_and!; [done..|]. rewrite not_elem_of_app, not_elem_of_cons.
    split; [done|]. split; [congruence|]. apply not_elem_of_nil. }
  destruct (isspace c) eqn:Hspace.
  { intros Htokens Hcur. apply IH; [by apply Hpush|by constructor]. }
  assert (∀ token, is_token token → Forall is_token tokens →
                   Forall (λ c, is_plain c = true) current_token →
                   Forall is_token (push_current tokens current_token ++ [token]))
    as Hpush1.
  { intros token Htoken Htokens Hcur. apply Forall_app. split; [by apply Hpush|].
    by constructor. }
  destruct (is_special c) eqn:Hspecial.
  { intros Htokens Hcur. apply IH; [|by constructor].
    apply Hpush1; [|done..]. right. left. by exists c. }
  destruct (is_operator c) eqn:Hoperator.
  2:{ intros Htokens Hcur. apply IH; [done|].
      apply Forall_app. split; [done|]. constructor; [|done].
      unfold is_plain. by rewrite Hquote, Hspace, Hspecial, Hoperator. }
  assert (is_token [c]) as Hc.
  { right. right. left. exists c. split; [done|]. by left. }
  destruct rest as [|c' rest'].
  { intros Htokens Hcur. apply IH; [|by constructor]. by apply Hpush1. }
  destruct (_ || _) eqn:Htwo.
  2:{ intros Htokens Hcur. apply IH; [|by constructor]. by apply Hpush1. }
  intros Htokens Hcur. eapply IH2; [done| |by constructor].
  apply Hpush1; [|done..]. right. right. left. exists c. split; [done|].
  apply orb_true_iff in Htwo as [->%bool_decide_eq_true|Htwo]; [by right; left|].
  apply andb_true_iff in Htwo as [->%bool_decide_eq_true ->%bool_decide_eq_true].
  by right; right.
Qed.

Lemma tokenize_are_tokens sql : are_tokens (tokenize sql).
Proof. apply tokenize_from_tokens; by constructor. Qed.

(** *** A quoted string within the input *)

Lemma tokenize_from_before_quote pre q rest tokens current_token q0 :
  Forall (λ c, is_quote c = false) pre → is_quote q = true →
  tokenize_from (pre ++ q :: rest) tokens current_token false q0
  = tokenize_from rest (tokenize_from pre tokens current_token false q0) [q] true q.
Proof.
  intros Hpre Hq. revert tokens current_token Hpre.
  induction pre as [|c pre IH IH2] using chars_ind2;
    intros tokens current_token Hpre; simpl app.
  { simpl tokenize_from at 2. by rewrite step_open. }
  apply Forall_cons in Hpre as [Hc Hpre]. simpl. rewrite Hc.
  destruct (isspace c); [by apply IH|].
  destruct (is_special c); [by apply IH|].
  destruct (is_operator c); [|by apply IH].
  destruct pre as [|c' pre']; simpl app; lazy beta iota.
  { destruct (is_quote_true q Hq) as (? & ? & _).
    rewrite (bool_decide_eq_false_2 (q = "="%char)),
      (bool_decide_eq_false_2 (q = ">"%char)) by done.
    rewrite andb_false_r. simpl. by rewrite Hq. }
  destruct (_ || _); [|by apply IH].
  apply Forall_cons in Hpre as [_ Hpre]. by eapply IH2.
Qed.

End parser_lemmas.

Section parser_extras.
Import Stdlib.Strings.Ascii parser.

(** [tokenize] drops nothing but white space: the tokens are not empty,
    their characters are characters of the input in the order of the input,
    and they are all its characters that are not white space (and the white
    space inside quotes). *)
Theorem tokenize_drops_only_spaces (sql : list ascii) :
  Forall (λ token, token ≠ []) (tokenize sql) ∧
  concat (tokenize sql) `sublist_of` sql ∧
  filter (λ c, isspace c = false) (concat (tokenize sql))
  = filter (λ c, isspace c = false) sql.
Proof.
  destruct (tokenize_from_keeps sql [] [] false (ascii_of_nat 0))
    as (kept & Hout & Hsub & Hfilter & Hne).
  fold (tokenize sql) in Hout, Hne. simpl in Hout.
  rewrite Hout. split_and!; [by apply Hne|done..].
Qed.

(** Every token [tokenize] returns is a quoted string, one of [, ( ) ;],
    one of the operators, or a word, which contains no quote, white space,
    special character or operator character; only the last token can be a
    string whose closing quote is missing. *)
Theorem tokenize_returns_tokens (sql : list ascii) : are_tokens (tokenize sql).
Proof.
  unfold tokenize. apply tokenize_from_tokens; [by constructor|].
  by constructor.
Qed.

(** The tokens are stable: written out with one blank between them they
    are tokenized into themselves. *)
Theorem tokenize_join_round_trip (sql : list ascii) :
  tokenize (join (tokenize sql)) = tokenize sql.
Proof. apply tokenize_join, tokenize_are_tokens. Qed.

(** After a text without quote characters, a quoted string that does not
    contain its own quote character is one token, quotes included, whatever
    else it contains; and what comes before it and after it is tokenized as
    it would be alone. *)
Theorem quoted_string_is_one_token (pre body post : list ascii) (q : ascii) :
  is_quote q = true → q ∉ body → Forall (λ c, is_quote c = false) pre →
  tokenize (pre ++ q :: body ++ q :: post)
  = tokenize pre ++ [q :: body ++ [q]] ++ tokenize post.
Proof.
  intros Hq Hbody Hpre. unfold tokenize.
  rewrite tokenize_from_before_quote by done.
  rewrite string_run by done. rewrite step_close by done.
  rewrite tokenize_from_prefix.
  rewrite (tokenize_from_quote_char post [] [] q (ascii_of_nat 0)).
  by rewrite <-app_assoc.
Qed.

End parser_extras.

Section parser_extras_examples.
Import Stdlib.Strings.Ascii parser.

Example tokenize_query : tokenize query = query_tokens.
Proof. reflexivity. Qed.

Example tokenize_above_127 :
  tokenize (cafe ++ chars_of " = 1") = [cafe; chars_of "="; chars_of "1"].
Proof. reflexivity. Qed.

Lemma quoted_string_is_one_token_witness :
  tokenize (chars_of "name =" ++ single_quote :: chars_of "Ada L"
              ++ single_quote :: chars_of " AND id>=7;")
  = tokenize (chars_of "name =") ++ [single_quote :: chars_of "Ada L" ++ [single_quote]]
      ++ tokenize (chars_of " AND id>=7;").
Proof.
  apply (quoted_string_is_one_token (chars_of "name =") (chars_of "Ada L")
           (chars_of " AND id>=7;") single_quote).
  - reflexivity.
  - apply (bool_decide_unpack _). by vm_compute.
  - apply (bool_decide_unpack _). by vm_compute.
Defined.

End parser_extras_examples.
